(** * Remediation orchestration: a shallow embedding

    The development embeds the scheduling, dependency ordering, conflict
    resolution and patch application code of the accessibility remediation
    engine (class [ParallelRemediationManager] and class
    [AIRemediationAgent]) and states the properties of its specification
    against that embedding.

    Conventions.
    - A JavaScript object whose field may be absent ([undefined]) has an
      [option] field.
    - A JavaScript [Set] of job identifiers is a [gset string]; a [Map]
      whose iteration order is observed is an association list in insertion
      order.
    - Objects mutated in place and shared by reference (the Job objects) live
      in a store and are referred to by their index in it.
    - Promises settle when the environment says so: the environment is an
      explicit oracle argument of the scheduler. *)

From Stdlib Require Import ZArith QArith Ascii String List Lia Permutation.
From stdpp Require Import gmap strings list relations sorting pretty.

Set Warnings "-clear-no-such-hyp".

Open Scope string_scope.
Open Scope list_scope.
Open Scope nat_scope.

(** ** Data model *)

(** An Issue as far as the orchestration code inspects it. *)
Record Issue := mkIssue {
  criterion : option string;
  itype : option string;
  title : option string
}.

Inductive Status :=
| success | failed | warning | merged | needs_review.

#[global] Instance Status_eq_dec : EqDecision Status.
Proof. solve_decision. Defined.

Inductive JobStatus :=
| pending | processing_st | retrying.

(** A Job as built by [createJobs], with the fields the scheduler reads.
    The fields nothing reads are left out: [priority], [estimatedComplexity],
    [sourceHtml], [createdAt], and [startTime], which [executeJob] writes. *)
Record Job := mkJob {
  id : string;
  type : string;
  issues : list Issue;
  dependencies : list string;
  status : JobStatus;
  attempts : nat;
  maxAttempts : nat
}.

(** ** Dependency resolver: [resolveDependencies] *)

(** [jobs.find(j => j.type === depType)]: the first Job of that type. *)
Definition find_by_type (jobs : list Job) (depType : string) : option Job :=
  List.find (fun j => bool_decide (type j = depType)) jobs.

(** The three variables the closure [visit] captures. *)
Record VState := mkVState {
  sorted : list Job;
  visited : gset string;
  visiting : gset string
}.

(** [array.forEach] with a callback that threads a state and may run out
    of fuel. *)
Fixpoint forEachM {A S : Type} (f : A -> S -> option S) (l : list A) (s : S)
  : option S :=
  match l with
  | [] => Some s
  | x :: l' =>
      match f x s with
      | Some s' => forEachM f l' s'
      | None => None
      end
  end.

(** The closure [visit].  The JavaScript recursion is not structural, so the
    embedding takes a bound on the depth of the recursion; [None] means the
    bound was too small. *)
Fixpoint visit (fuel : nat) (jobs : list Job) (job : Job) (st : VState)
  : option VState :=
  match fuel with
  | O => None
  | S fuel' =>
      if decide (id job ∈ visiting st) then Some st
      else if decide (id job ∈ visited st) then Some st
      else
        let st1 := mkVState (sorted st) (visited st) (visiting st ∪ {[ id job ]}) in
        match
          forEachM (fun depType s =>
                      match find_by_type jobs depType with
                      | Some depJob => visit fuel' jobs depJob s
                      | None => Some s
                      end)
                   (dependencies job) st1
        with
        | Some st2 =>
            Some (mkVState (sorted st2 ++ [job])
                           (visited st2 ∪ {[ id job ]})
                           (visiting st2 ∖ {[ id job ]}))
        | None => None
        end
  end.

(** The top-level [jobs.forEach]: visit every Job not yet visited. *)
Definition visit_top (fuel : nat) (jobs : list Job) (job : Job) (st : VState)
  : option VState :=
  if decide (id job ∈ visited st) then Some st else visit fuel jobs job st.

Definition resolveDependencies_fuel (fuel : nat) (jobs : list Job)
  : option (list Job) :=
  sorted <$> forEachM (visit_top fuel jobs) jobs (mkVState [] ∅ ∅).

(** A nested call adds a fresh identifier to [visiting], so the depth of the
    recursion is at most the number of Jobs plus one. *)
Definition resolveDependencies (jobs : list Job) : option (list Job) :=
  resolveDependencies_fuel (S (length jobs)) jobs.

(** ** Patches and job results *)

(** A remediation (patch) object.  Failed placeholders carry no line number
    and no code, hence the optional fields.  [confidence] is a JavaScript
    number in [0,1]; it is a rational here, which is exact for the
    comparisons the code makes (the rounding of the averaged confidence of a
    merged patch is not modelled). *)
Record Remediation := mkRemediation {
  rtype : option string;
  rstatus : Status;
  lineNumber : option Z;
  beforeCode : option string;
  afterCode : option string;
  confidence : option Q;
  explanation : option string;
  wcagCriterion : option string;
  rerror : option string;
  jobId : option string;
  jobType : option string;
  mergedFrom : option (list (option string))
}.

(** The object a Job contributes to [results]. *)
Record JobResult := mkJobResult {
  res_jobId : string;
  res_type : option string;
  res_status : Status;
  res_error : option string;
  res_remediations : list Remediation
}.

(** How a promise settles. *)
Inductive Settled (A : Type) :=
| Fulfilled (value : A)
| Rejected (message : string).
Arguments Fulfilled {A} value.
Arguments Rejected {A} message.

(** ** Agent: [remediateIssues] (collection of the settled batches) *)

(** [getIssueTypeKey]; JavaScript's empty string is falsy. *)
Definition truthy (o : option string) : option string :=
  match o with
  | Some "" => None
  | _ => o
  end.

(** The failed placeholder pushed for one issue of a rejected group. *)
Definition failed_placeholder (type : string) (reason : string) (issue : Issue)
  : Remediation :=
  mkRemediation (Some type) failed None None None None None None
                (Some reason) None None None.

(** [batchResults.forEach((result, index) => ...)] over one batch: a
    fulfilled group contributes its value, a rejected group one failed
    placeholder per issue of [groupedIssues[type]]. *)
Fixpoint collectBatch (groupedIssues : list (string * list Issue))
    (batch : list string) (batchResults : list (Settled (list Remediation)))
    (remediationResults : list Remediation) : list Remediation :=
  match batch, batchResults with
  | type :: batch', result :: batchResults' =>
      let pushed :=
        match result with
        | Fulfilled value => value
        | Rejected reason =>
            (failed_placeholder type reason) <$>
              (default [] (snd <$> List.find (fun g => bool_decide (fst g = type)) groupedIssues))
        end in
      collectBatch groupedIssues batch' batchResults' (remediationResults ++ pushed)
  | _, _ => remediationResults
  end.

(** [remediateIssues] as [executeJob] calls it: [groupByType: false], so the
    single group is ["all"], and [validateChanges: false], so the results are
    returned as collected.  [processIssueType] is the settled outcome of the
    group's processing. *)
Definition remediateIssues (issues : list Issue)
    (processIssueType : string -> Settled (list Remediation)) : list Remediation :=
  let groupedIssues := [("all", issues)] in
  let issueTypes := fst <$> groupedIssues in
  collectBatch groupedIssues issueTypes (processIssueType <$> issueTypes) [].

(** ** Scheduler: [createJobs], [dependenciesMet], [executeJob], [executeJobs] *)

Record Config := mkConfig {
  maxConcurrency : nat;
  timeout : Z;
  retryAttempts : nat
}.

(** The constructor's defaults: [config.maxConcurrency || 3],
    [config.timeout || 60000] and [config.retryAttempts || 2] (zero is
    falsy). *)
Definition Config_of (given_maxConcurrency : option nat) (given_timeout : option Z)
    (given_retryAttempts : option nat) : Config :=
  mkConfig (match given_maxConcurrency with Some (S n) => S n | _ => 3 end)
           (match given_timeout with
            | Some ms => if decide (ms = 0)%Z then 60000%Z else ms
            | None => 60000%Z
            end)
           (match given_retryAttempts with Some (S n) => S n | _ => 2 end).

(** An element of [processedIssues]: a group of issues or a single issue. *)
Record Prepared := mkPrepared {
  p_type : option string;
  p_criterion : option string;
  p_title : option string;
  p_issues : option (list Issue);
  p_dependencies : option (list string)
}.

Definition as_issue (p : Prepared) : Issue :=
  mkIssue (p_criterion p) (p_type p) (p_title p).

Definition createJob (cfg : Config) (index : nat) (issueGroup : Prepared) : Job :=
  mkJob ("job-" +:+ pretty index)
        (default "unknown"
           (match truthy (p_type issueGroup) with
            | Some t => Some t
            | None => truthy (p_criterion issueGroup)
            end))
        (default [as_issue issueGroup] (p_issues issueGroup))
        (default [] (p_dependencies issueGroup))
        pending
        0
        (retryAttempts cfg + 1).

Definition createJobs (cfg : Config) (processedIssues : list Prepared) : list Job :=
  imap (createJob cfg) processedIssues.

Definition dependenciesMet (job : Job) (completedResults : list JobResult) : bool :=
  match dependencies job with
  | [] => true
  | deps =>
      forallb (fun depType =>
                 existsb (fun result =>
                            bool_decide (res_status result = success)
                            && bool_decide (res_type result = Some depType))
                         completedResults)
              deps
  end.

(** How the race inside [executeJob] is decided: by the worker call
    [agent.remediateIssues], which resolves to its remediations or rejects, or
    by the timeout promise.  The timeout cancels nothing: a worker call that
    loses the race goes on running. *)
Inductive Raced :=
| AgentResolved (remediations : list Remediation)
| AgentRejected (message : string)
| TimedOut.

(** The message [executeJob] throws with, [processingTime] being
    [endTime - startTime] as the clock gave them. *)
Definition failure_message (processingTime : Z) (message : string) : string :=
  "Job execution failed after " +:+ pretty processingTime +:+ "ms: " +:+ message.

(** The message of the timeout promise. *)
Definition timeout_message (cfg : Config) : string :=
  "Job timed out after " +:+ pretty (timeout cfg) +:+ "ms".

(** What the promise of [executeJob(job)] settles to, given how its race is
    decided and the time the clock shows for it. *)
Definition executeJob (cfg : Config) (job : Job) (raced : Raced) (processingTime : Z)
  : Settled JobResult :=
  match raced with
  | AgentResolved remediations =>
      Fulfilled (mkJobResult (id job) (Some (type job)) success None remediations)
  | AgentRejected message =>
      Rejected (failure_message processingTime message)
  | TimedOut =>
      Rejected (failure_message processingTime (timeout_message cfg))
  end.

(** A JavaScript [Map] keyed by job identifier, in insertion order. *)
Fixpoint map_set {V : Type} (k : string) (v : V) (m : list (string * V))
  : list (string * V) :=
  match m with
  | [] => [(k, v)]
  | (k', v') :: m' =>
      if decide (k' = k) then (k, v) :: m' else (k', v') :: map_set k v m'
  end.

Fixpoint map_delete {V : Type} (k : string) (m : list (string * V))
  : list (string * V) :=
  match m with
  | [] => []
  | (k', v') :: m' =>
      if decide (k' = k) then m' else (k', v') :: map_delete k m'
  end.

(** Where the coordinator of [executeJobs] stands. *)
Inductive Loc :=
| AtOuter      (* about to test the outer [while] *)
| AtInner      (* about to test the inner [while] *)
| AtRace       (* after the inner loop, about to await [Promise.race] *)
| Finished.    (* [return results] *)

#[global] Instance Loc_eq_dec : EqDecision Loc.
Proof. solve_decision. Defined.

(** The state of one [executeJobs] call.  [store] holds the Job objects of
    the array [jobs]; the queue and the promises refer to them by index. *)
Record SState := mkSState {
  store : list Job;
  jobQueue : list nat;
  processing : list (string * nat);
  results : list JobResult;
  completedCount : nat;
  pc : Loc
}.

Definition at_loc (l : Loc) (s : SState) : SState :=
  mkSState (store s) (jobQueue s) (processing s) (results s) (completedCount s) l.

(** The environment: for the k-th completion, which in-flight promise
    settles first (an index into the entries of [processing], taken modulo
    their number), how the race inside its [executeJob] was decided, and the
    processing time its [executeJob] measured. *)
Definition Env := nat -> nat * Raced * Z.

Definition set_status (st : JobStatus) (j : Job) : Job :=
  mkJob (id j) (type j) (issues j) (dependencies j) st (attempts j) (maxAttempts j).

Definition retry_job (j : Job) : Job :=
  mkJob (id j) (type j) (issues j) (dependencies j) retrying (S (attempts j)) (maxAttempts j).

(** One iteration of the inner loop, entered with [job] shifted off. *)
Definition inner_iteration (s : SState) (r : nat) (queue' : list nat) (job : Job)
  : SState :=
  if dependenciesMet job (results s) then
    mkSState (alter (set_status processing_st) r (store s))
             queue'
             (map_set (id job) r (processing s))
             (results s) (completedCount s) AtInner
  else
    mkSState (store s) (queue' ++ [r]) (processing s)
             (results s) (completedCount s) AtInner.

(** The promise that [Promise.race] hands over: the identifier it is filed
    under, the Job object its [executeJob] runs for, and how it settled. *)
Definition completing (env : Env) (s : SState)
  : option (string * Job * Raced * Z) :=
  let '(choice, raced, processingTime) := env (completedCount s) in
  match processing s !! (choice mod length (processing s)) with
  | None => None
  | Some (completed_jobId, r) =>
      match store s !! r with
      | None => None
      | Some running => Some (completed_jobId, running, raced, processingTime)
      end
  end.

(** The body of [if (processing.size > 0)]: the first promise to settle is
    removed and its outcome handled. *)
Definition handle_completion (cfg : Config) (env : Env) (s : SState) : SState :=
  match completing env s with
  | None => at_loc AtOuter s
  | Some (completed_jobId, running, raced, processingTime) =>
      let processing' := map_delete completed_jobId (processing s) in
      let completedCount' := S (completedCount s) in
      match executeJob cfg running raced processingTime with
      | Rejected message =>
          match list_find (fun j => id j = completed_jobId) (store s) with
          | Some (i, job) =>
              if decide (attempts job < maxAttempts job) then
                mkSState (<[ i := retry_job job ]> (store s))
                         (i :: jobQueue s) processing' (results s)
                         completedCount' AtOuter
              else
                mkSState (store s) (jobQueue s) processing'
                         (results s ++ [mkJobResult completed_jobId None failed (Some message) []])
                         completedCount' AtOuter
          | None =>
              mkSState (store s) (jobQueue s) processing'
                       (results s ++ [mkJobResult completed_jobId None failed (Some message) []])
                       completedCount' AtOuter
          end
      | Fulfilled result =>
          mkSState (store s) (jobQueue s) processing'
                   (results s ++ [result]) completedCount' AtOuter
      end
  end.

(** One step of the coordinator. *)
Definition step (cfg : Config) (env : Env) (s : SState) : SState :=
  match pc s with
  | AtOuter =>
      match jobQueue s, processing s with
      | [], [] => at_loc Finished s
      | _, _ => at_loc AtInner s
      end
  | AtInner =>
      match jobQueue s with
      | r :: queue' =>
          if decide (length (processing s) < maxConcurrency cfg) then
            match store s !! r with
            | Some job => inner_iteration s r queue' job
            | None => s
            end
          else at_loc AtRace s
      | [] => at_loc AtRace s
      end
  | AtRace =>
      match processing s with
      | [] => at_loc AtOuter s
      | _ :: _ => handle_completion cfg env s
      end
  | Finished => s
  end.

Fixpoint steps (n : nat) (cfg : Config) (env : Env) (s : SState) : SState :=
  match n with
  | O => s
  | S n' => steps n' cfg env (step cfg env s)
  end.

(** Run until [return results], or give up after [fuel] steps. *)
Fixpoint run (fuel : nat) (cfg : Config) (env : Env) (s : SState) : option SState :=
  match pc s with
  | Finished => Some s
  | _ =>
      match fuel with
      | O => None
      | S fuel' => run fuel' cfg env (step cfg env s)
      end
  end.

(** The reference to a Job object of [jobs].  A Job that [resolveDependencies]
    returns is the first object of [jobs] equal to it: it was reached either by
    the in-order [forEach] or by [find], and both meet the first one first. *)
#[global] Instance Issue_eq_dec : EqDecision Issue.
Proof. solve_decision. Defined.
#[global] Instance JobStatus_eq_dec : EqDecision JobStatus.
Proof. solve_decision. Defined.
#[global] Instance Job_eq_dec : EqDecision Job.
Proof. solve_decision. Defined.

Definition ref_of (jobs : list Job) (job : Job) : option nat :=
  fst <$> list_find (fun j => j = job) jobs.

Definition initial (jobs : list Job) (queue : list Job) : SState :=
  mkSState jobs (omap (ref_of jobs) queue) [] [] 0 AtOuter.

(** [executeJobs]: the results and the final Job objects, when the call
    returns within [fuel] steps of the coordinator. *)
Definition executeJobs (fuel : nat) (cfg : Config) (env : Env) (jobs : list Job)
  : option (list JobResult * list Job) :=
  match resolveDependencies jobs with
  | None => None
  | Some queue =>
      match run fuel cfg env (initial jobs queue) with
      | Some s => Some (results s, store s)
      | None => None
      end
  end.

(** ** The worker calls of a run *)

(** A run of [executeJobs] with its worker calls counted, as a counting
    worker would: [abandoned] are the calls that lost the race against their
    timeout and have not ended, [races] the races handed over so far, each
    with the identifier of its Job, and [suspensions] the times the
    coordinator has waited, in [sleep] or in [Promise.race]. *)
Record Traced := mkTraced {
  sched : SState;
  abandoned : nat;
  races : list (string * Raced * Z);
  suspensions : nat
}.

(** Whether the next step waits: in [sleep(100)], for a Job whose
    dependencies are not met, or in [Promise.race]. *)
Definition suspends (cfg : Config) (env : Env) (s : SState) : bool :=
  match pc s with
  | AtInner =>
      match jobQueue s with
      | r :: _ =>
          if decide (length (processing s) < maxConcurrency cfg) then
            match store s !! r with
            | Some job => negb (dependenciesMet job (results s))
            | None => false
            end
          else false
      | [] => false
      end
  | AtRace => bool_decide (is_Some (completing env s))
  | _ => false
  end.

(** The race the next step hands over, if it hands one over. *)
Definition handed_over (env : Env) (s : SState) : option (string * Raced * Z) :=
  match pc s with
  | AtRace =>
      match completing env s with
      | Some (completed_jobId, _, raced, processingTime) =>
          Some (completed_jobId, raced, processingTime)
      | None => None
      end
  | _ => None
  end.

Definition timed_out (call : string * Raced * Z) : Prop :=
  snd (fst call) = TimedOut.

#[global] Instance timed_out_dec call : Decision (timed_out call).
Proof. unfold timed_out. destruct (snd (fst call)); (by left) || (by right). Defined.

(** One step of the coordinator with the count kept.  [drain i] is the
    number of abandoned calls that end while the coordinator waits for the
    i-th time: when such a call ends is up to the service, and nothing in the
    code waits for it. *)
Definition traced_step (cfg : Config) (env : Env) (drain : nat -> nat) (t : Traced)
  : Traced :=
  let s := sched t in
  let waits := suspends cfg env s in
  let still := if waits then abandoned t - drain (suspensions t) else abandoned t in
  match handed_over env s with
  | Some call =>
      mkTraced (step cfg env s)
               (if decide (timed_out call) then S still else still)
               (races t ++ [call])
               (if waits then S (suspensions t) else suspensions t)
  | None =>
      mkTraced (step cfg env s) still (races t)
               (if waits then S (suspensions t) else suspensions t)
  end.

Fixpoint traced_steps (n : nat) (cfg : Config) (env : Env) (drain : nat -> nat)
    (t : Traced) : Traced :=
  match n with
  | O => t
  | S n' => traced_steps n' cfg env drain (traced_step cfg env drain t)
  end.

Definition traced_initial (jobs queue : list Job) : Traced :=
  mkTraced (initial jobs queue) 0 [] 0.

(** The worker calls in flight: one for each promise of [processing], a
    promise being handed over when it settles, and the abandoned ones. *)
Definition in_flight (t : Traced) : nat :=
  length (processing (sched t)) + abandoned t.

(** The races handed over for the Job [jobId], in order. *)
Definition calls_of (jobId : string) (t : Traced) : list (Raced * Z) :=
  (fun call => (snd (fst call), snd call))
    <$> filter (fun call => fst (fst call) = jobId) (races t).

(** A worker call that does not give the Job its remediations. *)
Definition failing (call : Raced * Z) : Prop :=
  match fst call with
  | AgentResolved _ => False
  | _ => True
  end.

#[global] Instance failing_dec call : Decision (failing call).
Proof. unfold failing. destruct (fst call); apply _. Defined.

(** The results recorded for the Job [jobId]. *)
Definition results_of (jobId : string) (s : SState) : list JobResult :=
  filter (fun r => res_jobId r = jobId) (results s).

(** ** Vocabulary for the dependency resolver's contract *)

(** An edge of the dependency graph as the code follows it: from a Job to
    the first Job of [jobs] whose type it lists. *)
Definition dep_first (jobs : list Job) (j d : Job) : Prop :=
  j ∈ jobs ∧ ∃ t, t ∈ dependencies j ∧ find_by_type jobs t = Some d.

(** An edge of the dependency graph as the contract words it: from a Job to
    every Job of [jobs] whose type it lists. *)
Definition dep_any (jobs : list Job) (j d : Job) : Prop :=
  j ∈ jobs ∧ d ∈ jobs ∧ type d ∈ dependencies j.

Definition acyclic (R : relation Job) (jobs : list Job) : Prop :=
  ∀ j, j ∈ jobs → ¬ tc R j j.

(** Wherever [j] stands in [out], every [d] it points to stands before it. *)
Definition ordered_by (R : relation Job) (out : list Job) : Prop :=
  ∀ l1 j l2 d, out = l1 ++ j :: l2 → R j d → d ∈ l1.

Definition ids_of (l : list Job) : gset string := list_to_set (id <$> l).

(** What holds of the resolver's variables between two calls of [visit]. *)
Record resolver_inv (jobs : list Job) (st : VState) : Prop := mk_resolver_inv {
  inv_sub : ∀ j, j ∈ sorted st → j ∈ jobs;
  inv_visited : visited st = ids_of (sorted st);
  inv_nodup : NoDup (id <$> sorted st);
  inv_order : ordered_by (dep_first jobs) (sorted st);
  inv_disj : visiting st ## visited st;
  inv_visiting : visiting st ⊆ ids_of jobs
}.

(** The resolver's contract as the specification words it: on an acyclic
    graph the output holds exactly the input Jobs, each after every Job of a
    type it depends on. *)
Definition resolver_contract (jobs : list Job) : Prop :=
  acyclic (dep_any jobs) jobs →
  ∃ out, resolveDependencies jobs = Some out ∧ out ≡ₚ jobs ∧
         ordered_by (dep_any jobs) out.

(** Three Jobs, two of them of the same type. *)
Definition job_x : Job := mkJob "job-0" "1.4.3" [] ["1.3.1"] pending 0 3.
Definition job_t1 : Job := mkJob "job-1" "1.3.1" [] [] pending 0 3.
Definition job_t2 : Job := mkJob "job-2" "1.3.1" [] [] pending 0 3.

(** ** A batch with a dependency *)

(** One coordinator slot, the default two retries. *)
Definition cfg_serial : Config := Config_of (Some 1) None None.

(** Two issues prepared without grouping, as [prepareIssues] orders them:
    an alt-text issue, which depends on the page language, and the
    page-language issue.  Neither has a [type], so the Job type is the
    criterion, and neither has [issues], so each Job holds the issue itself. *)
Definition batch_lang_alt : list Job :=
  createJobs cfg_serial
    [ mkPrepared None (Some "1.1.1") None None (Some ["3.1.1"]);
      mkPrepared None (Some "3.1.1") None None (Some []) ].

(** The order [resolveDependencies] gives them: the language Job first. *)
Definition queue_lang_alt : list Job := rev batch_lang_alt.

(** Every worker call times out. *)
Definition env_always_rejects : Env :=
  fun _ => (0, TimedOut, 60000%Z).

(** The default configuration: three slots, two retries. *)
Definition cfg_default : Config := Config_of None None None.

(** Every worker call succeeds, with no patch. *)
Definition env_always_fulfils : Env := fun _ => (0, AgentResolved [], 1500%Z).

(** No state among the first [n] is the final one. *)
Fixpoint unfinished_for (n : nat) (cfg : Config) (env : Env) (s : SState) : bool :=
  match n with
  | O => true
  | S n' => negb (bool_decide (pc s = Finished)) && unfinished_for n' cfg env (step cfg env s)
  end.

(** No result so far belongs to the Job [jobId]. *)
Definition no_result_for (jobId : string) (s : SState) : bool :=
  forallb (fun r => negb (bool_decide (res_jobId r = jobId))) (results s).

(** The result pushed for a Job whose retries are used up. *)
Definition failed_result (jobId message : string) : JobResult :=
  mkJobResult jobId None failed (Some message) [].


(** A single alt-text Job with one Issue, as [createJobs] builds it. *)
Definition job_alt : Job :=
  createJob cfg_serial 0
    (mkPrepared (Some "1.1.1") None None (Some [mkIssue (Some "1.1.1") None None]) None).


Definition group_alt : Prepared :=
  mkPrepared (Some "1.1.1") None None (Some [mkIssue (Some "1.1.1") None None]) None.


(** The two shapes a Job result has: the one [executeJob] resolves to, or
    the failed one of an exhausted Job, which has no remediation. *)
Definition result_shape (r : JobResult) : Prop :=
  res_status r = success ∨ (res_status r = failed ∧ res_remediations r = []).

(** A service that never ends a call it was left with. *)
Definition drain_never : nat -> nat := fun _ => 0.

(** The concurrency guarantee as the specification words it: at no point
    are more than [maxConcurrency] worker calls in flight. *)
Definition bounded_calls (cfg : Config) (env : Env) (drain : nat -> nat)
    (jobs queue : list Job) : Prop :=
  ∀ n, in_flight (traced_steps n cfg env drain (traced_initial jobs queue))
       ≤ maxConcurrency cfg.

(** ** JavaScript library functions the code relies on *)

(** [Array.prototype.sort(compare)], which is stable: an element moves
    behind a later one only when the comparator is positive on the pair.
    [after a b] says [compare(a, b) > 0]. *)
Fixpoint sort_insert {A : Type} (after : A -> A -> bool) (x : A) (l : list A)
  : list A :=
  match l with
  | [] => [x]
  | y :: l' => if after x y then y :: sort_insert after x l' else x :: y :: l'
  end.

Fixpoint js_sort {A : Type} (after : A -> A -> bool) (l : list A) : list A :=
  match l with
  | [] => []
  | x :: l' => sort_insert after x (js_sort after l')
  end.

(** [String.prototype.includes]. *)
Fixpoint includes (s sub : string) : bool :=
  String.prefix sub s ||
  match s with
  | EmptyString => false
  | String _ s' => includes s' sub
  end.

Definition newline : ascii := "010"%char.

(** [s.split('\n')]. *)
Fixpoint split_lines (s : string) : list string :=
  match s with
  | EmptyString => [EmptyString]
  | String c s' =>
      if Ascii.eqb c newline then EmptyString :: split_lines s'
      else match split_lines s' with
           | [] => [String c EmptyString]
           | l :: ls => String c l :: ls
           end
  end.

(** [array.join(sep)]. *)
Fixpoint join (sep : string) (l : list string) : string :=
  match l with
  | [] => ""
  | [x] => x
  | x :: l' => x +:+ sep +:+ join sep l'
  end.

Fixpoint has_newline (s : string) : bool :=
  match s with
  | EmptyString => false
  | String c s' => Ascii.eqb c newline || has_newline s'
  end.

(** [array.indexOf(x)], with [-1] when [x] is absent. *)
Fixpoint indexOf_from (i : Z) (l : list string) (x : option string) : Z :=
  match l with
  | [] => (-1)%Z
  | y :: l' => if decide (Some y = x) then i else indexOf_from (i + 1)%Z l' x
  end.

Definition indexOf (l : list string) (x : option string) : Z := indexOf_from 0 l x.

(** [lines[lineNum - 1]]. *)
Definition line_at (lines : list string) (lineNum : option Z) : option string :=
  match lineNum with
  | Some z => if decide (1 <= z)%Z then lines !! Z.to_nat (z - 1) else None
  | None => None
  end.

(** ** Conflict resolver *)

(** What [resolveConflicts] returns: remediation objects, and under the
    manual strategy review placeholders, which have no line number. *)
Inductive Resolved :=
| Patch (r : Remediation)
| NeedsReview (options : list Remediation) (originalLine : option string).

Definition priorityOrder : list string :=
  [ "3.1.1";  (* Language first *)
    "2.4.2";  (* Page title *)
    "1.3.1";  (* Structure *)
    "1.1.1";  (* Alt text *)
    "3.3.2";  (* Labels *)
    "2.1.1";  (* Keyboard *)
    "2.4.4";  (* Link purpose *)
    "1.4.3";  (* Contrast *)
    "4.1.2"   (* Name, role, value *) ].

(** [priorityOrder.indexOf(r.wcagCriterion) || 999]: zero is falsy. *)
Definition priority_index (r : Remediation) : Z :=
  let i := indexOf priorityOrder (wcagCriterion r) in
  if decide (i = 0)%Z then 999%Z else i.

Definition resolveByCriteriaPriority (remediations : list Remediation)
  : option Remediation :=
  head (js_sort (fun a b => bool_decide (0 < priority_index a - priority_index b)%Z)
                remediations).

(** [r.confidence || 0.5]: zero is falsy. *)
Definition confidence_or_half (r : Remediation) : Q :=
  match confidence r with
  | Some q => if Qeq_bool q 0 then (1 # 2)%Q else q
  | None => (1 # 2)%Q
  end.

(** The comparator [(b.confidence || 0.5) - (a.confidence || 0.5)]. *)
Definition by_confidence (remediations : list Remediation) : list Remediation :=
  js_sort (fun a b => negb (Qle_bool (confidence_or_half b) (confidence_or_half a)))
          remediations.

Definition resolveByConfidence (remediations : list Remediation)
  : option Remediation :=
  head (by_confidence remediations).

(** [hasAttributeConflict] and [mergeAttributes], as they are written. *)
Definition hasAttributeConflict (currentLine : option string) (newLine : string)
    (previousChanges : list Remediation) : bool := false.

Definition mergeAttributes (currentLine : option string) (newLine : string) : string :=
  newLine.

(** [attemptMerge]: the merged line on success, [None] when the code answers
    [success: false], which is also where reading [includes] off a missing
    [afterCode] ends up. *)
Definition attemptMerge (currentLine : option string) (remediation : Remediation)
    (previousChanges : list Remediation) : option string :=
  match afterCode remediation with
  | None => None
  | Some after =>
      if includes after "=" && negb (hasAttributeConflict currentLine after previousChanges)
      then Some (mergeAttributes currentLine after)
      else if forallb (fun c => match afterCode c with
                                | Some a => includes a "="
                                | None => false
                                end) previousChanges
      then Some after
      else None
  end.

(** The [for] loop of [mergeRemediations]. *)
Fixpoint merge_loop (sortedRemediations : list Remediation)
    (mergedLine : option string) (appliedChanges : list Remediation)
  : option string * list Remediation :=
  match sortedRemediations with
  | [] => (mergedLine, appliedChanges)
  | remediation :: rest =>
      match attemptMerge mergedLine remediation appliedChanges with
      | Some result => merge_loop rest (Some result) (appliedChanges ++ [remediation])
      | None => merge_loop rest mergedLine appliedChanges
      end
  end.

Definition Qsum (l : list Q) : Q := fold_left Qplus l 0%Q.

Definition mergeRemediations (remediations : list Remediation)
    (originalLine : option string) : option Remediation :=
  let sortedRemediations := by_confidence remediations in
  let '(mergedLine, appliedChanges) := merge_loop sortedRemediations originalLine [] in
  match appliedChanges, sortedRemediations with
  | _ :: _, base :: _ =>
      Some (mkRemediation
              (rtype base) merged (lineNumber base)
              originalLine mergedLine
              (Some (Qsum (confidence_or_half <$> appliedChanges)
                     / inject_Z (Z.of_nat (length appliedChanges)))%Q)
              (Some ("Merged " +:+ pretty (length appliedChanges) +:+ " changes: "
                     +:+ join "; " (default "" <$> (explanation <$> appliedChanges))))
              (wcagCriterion base) (rerror base) (jobId base) (jobType base)
              (Some (wcagCriterion <$> appliedChanges)))
  | _, _ => resolveByConfidence sortedRemediations
  end.

Definition applyConflictResolution (conflictingRemediations : list Remediation)
    (strategy : string) (originalLine : option string) : option Resolved :=
  if decide (strategy = "priority") then
    Patch <$> resolveByCriteriaPriority conflictingRemediations
  else if decide (strategy = "merge") then
    Patch <$> mergeRemediations conflictingRemediations originalLine
  else if decide (strategy = "confidence") then
    Patch <$> resolveByConfidence conflictingRemediations
  else if decide (strategy = "manual") then
    Some (NeedsReview conflictingRemediations originalLine)
  else
    Patch <$> resolveByConfidence conflictingRemediations.

(** [allRemediations]: the patches of the successful results, tagged with
    the Job they come from. *)
Definition tag (result : JobResult) (r : Remediation) : Remediation :=
  mkRemediation (rtype r) (rstatus r) (lineNumber r) (beforeCode r) (afterCode r)
                (confidence r) (explanation r) (wcagCriterion r) (rerror r)
                (Some (res_jobId result)) (res_type result) (mergedFrom r).

Definition collect (results : list JobResult) : list Remediation :=
  flat_map (fun result =>
              if decide (res_status result = success)
              then tag result <$> res_remediations result
              else [])
           results.

(** [lineGroups]: a [Map] from line number to the successful patches on
    that line, keys and patches in order of first appearance. *)
Fixpoint group_push (lineNum : option Z) (r : Remediation)
    (groups : list (option Z * list Remediation))
  : list (option Z * list Remediation) :=
  match groups with
  | [] => [(lineNum, [r])]
  | (k, g) :: groups' =>
      if decide (k = lineNum) then (k, g ++ [r]) :: groups'
      else (k, g) :: group_push lineNum r groups'
  end.

Definition lineGroups (allRemediations : list Remediation)
  : list (option Z * list Remediation) :=
  fold_left (fun groups r =>
               if decide (rstatus r = success)
               then group_push (lineNumber r) r groups
               else groups)
            allRemediations [].

(** One turn of the loop over [lineGroups.entries()]. *)
Definition resolve_group (strategy : string) (lines : list string)
    (entry : option Z * list Remediation) : list Resolved :=
  let '(lineNum, lineRemediations) := entry in
  match lineRemediations with
  | [only] => [Patch only]
  | _ =>
      match applyConflictResolution lineRemediations strategy (line_at lines lineNum) with
      | Some resolved => [resolved]
      | None => []
      end
  end.

(** The first part of the returned list: what the groups resolve to. *)
Definition resolved_part (results : list JobResult) (sourceHtml strategy : string)
  : list Resolved :=
  flat_map (resolve_group strategy (split_lines sourceHtml))
           (lineGroups (collect results)).

(** The second part: the patches that are not successful, as they came. *)
Definition passed_through (results : list JobResult) : list Resolved :=
  Patch <$> filter (fun r => rstatus r ≠ success) (collect results).

Definition resolveConflicts (results : list JobResult) (sourceHtml strategy : string)
  : list Resolved :=
  resolved_part results sourceHtml strategy ++ passed_through results.

(** The line number an entry of the returned list carries in its own
    [lineNumber] field. *)
Definition line_of (x : Resolved) : option Z :=
  match x with
  | Patch r => lineNumber r
  | NeedsReview _ _ => None
  end.

(** The line an entry is about: for a patch its line number, for a review
    placeholder the line of the candidates it carries. *)
Definition line_about (x : Resolved) : option Z :=
  match x with
  | Patch r => lineNumber r
  | NeedsReview options _ => head options ≫= lineNumber
  end.

(** How many entries of [l] target line [z]. *)
Definition targeting (z : Z) (l : list Resolved) : nat :=
  length (filter (fun x => line_of x = Some z) l).

(** The entries of [l] that are about line [z], in their order. *)
Definition about (z : Z) (l : list Resolved) : list Resolved :=
  filter (fun x => line_about x = Some z) l.

(** The line numbers that appear among the successful input patches. *)
Definition successful_line (results : list JobResult) (z : Z) : Prop :=
  ∃ result r, result ∈ results ∧ r ∈ res_remediations result ∧
              rstatus r = success ∧ lineNumber r = Some z.

(** The conflict resolver's invariant as the specification words it. *)
Definition unique_per_line (results : list JobResult) (sourceHtml strategy : string)
  : Prop :=
  ∀ z, successful_line results z →
       targeting z (resolveConflicts results sourceHtml strategy) = 1.

(** The line numbers of the successful patches that [resolveConflicts]
    collects: those of the job results of status success. *)
Definition collected_line (results : list JobResult) (z : Z) : Prop :=
  ∃ result r, result ∈ results ∧ res_status result = success ∧
              r ∈ res_remediations result ∧
              rstatus r = success ∧ lineNumber r = Some z.

(** The collected patches on line [z]: the successful ones, which are the
    candidates for the line, and the others, in the order of the input. *)
Definition candidates (results : list JobResult) (z : Z) : list Remediation :=
  filter (fun r => rstatus r = success ∧ lineNumber r = Some z) (collect results).

Definition unsuccessful_on (results : list JobResult) (z : Z) : list Remediation :=
  filter (fun r => rstatus r ≠ success ∧ lineNumber r = Some z) (collect results).

(** A resolved entry that is a patch, with status success or merged. *)
Definition resolved_patch (x : Resolved) : Prop :=
  ∃ p, x = Patch p ∧ (rstatus p = success ∨ rstatus p = merged).

(** What holds of [lineGroups]: distinct keys, and under each key a
    non-empty list of successful patches on that line. *)
Definition group_ok (entry : option Z * list Remediation) : Prop :=
  snd entry ≠ [] ∧
  Forall (fun r => rstatus r = success ∧ lineNumber r = fst entry) (snd entry).

Definition groups_ok (groups : list (option Z * list Remediation)) : Prop :=
  NoDup (fst <$> groups) ∧ Forall group_ok groups.

(** Two successful patches on line 1, from one Job. *)
Definition patch_on (line : Z) (criterion after : string) (conf : Q) : Remediation :=
  mkRemediation (Some criterion) success (Some line) (Some "<img src=a.png>")
                (Some after) (Some conf) (Some "fix") (Some criterion)
                None None None None.

Definition original_img : string := "<img src=a.png>".

(** An alt-text patch and a role patch for the same image on line 1, each
    adding one attribute to the original line. *)
Definition patch_alt : Remediation :=
  patch_on 1 "1.1.1" "<img src=a.png alt=logo>" (9 # 10).
Definition patch_role : Remediation :=
  patch_on 1 "4.1.2" "<img src=a.png role=img>" (8 # 10).

(** A page-language patch and a patch for a criterion outside the list. *)
Definition patch_lang : Remediation :=
  patch_on 1 "3.1.1" "<html lang=en>" (9 # 10).
Definition patch_unlisted : Remediation :=
  patch_on 1 "2.5.8" "<a class=big>" (9 # 10).

(** One successful Job result carrying the two image patches. *)
Definition results_two_on_line_1 : list JobResult :=
  [mkJobResult "job-0" (Some "1.1.1") success None [patch_alt; patch_role]].

(** The alt-text patch beside a patch for the same line whose status the
    validation has turned into warning. *)
Definition patch_warned : Remediation :=
  mkRemediation (Some "4.1.2") warning (Some 1%Z) (Some "<img src=a.png>")
                (Some "<img src=a.png role=img>") (Some (8 # 10)%Q) (Some "fix")
                (Some "4.1.2") None None None None.

Definition results_with_warning : list JobResult :=
  [mkJobResult "job-0" (Some "1.1.1") success None [patch_alt; patch_warned]].

(** The alt-text patch in a job result that is not a success. *)
Definition results_of_failed_job : list JobResult :=
  [mkJobResult "job-0" (Some "1.1.1") failed (Some "gave up") [patch_alt]].

(** ** Agent: rate limiter and [processIssueType] *)

Definition windowMs : Z := 60000.
Definition maxRequests : nat := 60.

(** [requests.set(currentMinute, ...)] on the limiter's [Map]. *)
Fixpoint requests_set (k : Z) (v : nat) (m : list (Z * nat)) : list (Z * nat) :=
  match m with
  | [] => [(k, v)]
  | (k', v') :: m' =>
      if decide (k' = k) then (k, v) :: m' else (k', v') :: requests_set k v m'
  end.

Definition requests_get (k : Z) (m : list (Z * nat)) : option nat :=
  snd <$> List.find (fun e => bool_decide (fst e = k)) m.

(** [canMakeRequest], called at time [now]: the answer and the limiter's
    map afterwards. *)
Definition canMakeRequest (now : Z) (requests : list (Z * nat))
  : bool * list (Z * nat) :=
  let windowStart := (now - windowMs)%Z in
  let requests := filter (fun e => ¬ (fst e < windowStart)%Z) requests in
  let currentRequests := fold_left (fun sum e => sum + snd e) requests 0 in
  if decide (maxRequests ≤ currentRequests) then (false, requests)
  else
    let currentMinute := (now / windowMs * windowMs)%Z in
    (true, requests_set currentMinute
                        (default 0 (requests_get currentMinute requests) + 1)
                        requests).

(** What [processIssueType] ends with. *)
Inductive Completion :=
| Returned (remediations : list Remediation)
| ThrewError (message : string)     (* [throw new Error(...)] *)
| ThrewTypeError.                   (* reading [message] off an undefined [lastError] *)

(** The agent's environment: the clock read by the k-th call of the limiter,
    and how the k-th [try] block (prompt, API call, parse) ends. *)
Record AgentEnv := mkAgentEnv {
  clock : nat -> Z;
  attempt_outcome : nat -> Settled (list Remediation)
}.

(** The state [processIssueType] threads through its loop. *)
Record AgentState := mkAgentState {
  requests : list (Z * nat);
  checks : nat;        (* calls of the limiter so far *)
  calls : nat;         (* [try] blocks entered so far *)
  lastError : option string
}.

(** The [for] loop, with [remaining] iterations to go: [attempt] runs from
    1 to [maxRetries], and [continue] moves to the next value like any other
    end of the body. *)
Fixpoint processIssueType_loop (env : AgentEnv) (maxRetries : nat) (type : string)
    (remaining : nat) (st : AgentState) : Completion * AgentState :=
  match remaining with
  | O =>
      (match lastError st with
       | Some message =>
           ThrewError ("Failed to process issue type " +:+ type +:+ " after "
                       +:+ pretty maxRetries +:+ " attempts: " +:+ message)
       | None => ThrewTypeError
       end, st)
  | S remaining' =>
      let '(allowed, requests') := canMakeRequest (clock env (checks st)) (requests st) in
      if allowed then
        match attempt_outcome env (calls st) with
        | Fulfilled remediations =>
            (Returned remediations,
             mkAgentState requests' (S (checks st)) (S (calls st)) (lastError st))
        | Rejected message =>
            processIssueType_loop env maxRetries type remaining'
              (mkAgentState requests' (S (checks st)) (S (calls st)) (Some message))
        end
      else
        processIssueType_loop env maxRetries type remaining'
          (mkAgentState requests' (S (checks st)) (calls st) (lastError st))
  end.

(** [this.config.retries]: [config.retries || 1]. *)
Definition retries_of (given : option nat) : nat :=
  match given with
  | Some (S n) => S n
  | _ => 1
  end.

Definition processIssueType (env : AgentEnv) (maxRetries : nat) (type : string)
    (requests : list (Z * nat)) : Completion * AgentState :=
  processIssueType_loop env maxRetries type maxRetries (mkAgentState requests 0 0 None).

(** How the promise of [processIssueType] settles for [remediateIssues]. *)
Definition settle (c : Completion) : Settled (list Remediation) :=
  match c with
  | Returned remediations => Fulfilled remediations
  | ThrewError message => Rejected message
  | ThrewTypeError => Rejected "Cannot read properties of undefined (reading 'message')"
  end.

(** A limiter that has let sixty requests through during the minute that
    starts at 120000 ms. *)
Definition requests_full : list (Z * nat) :=
  Nat.iter 60 (fun requests => snd (canMakeRequest 120500 requests)) [].

(** A clock that advances by the one second the coordinator sleeps after a
    denial, and a service that would answer. *)
Definition env_same_minute : AgentEnv :=
  mkAgentEnv (fun k => (121000 + Z.of_nat k * 1000)%Z) (fun _ => Fulfilled []).

(** The same service under a clock that stands still. *)
Definition env_frozen : AgentEnv :=
  mkAgentEnv (fun _ => 121000%Z) (fun _ => Fulfilled []).

(** ** Agent: [applyRemediations] *)

Record Applied := mkApplied {
  modifiedHtml : string;
  appliedCount : nat;
  errors : list string;
  totalRemediations : nat
}.

(** [lineIndex >= 0 && lineIndex < lines.length], with the index. *)
Definition line_index (lines : list string) (r : Remediation) : option nat :=
  match lineNumber r with
  | Some z =>
      if decide (0 <= z - 1 < Z.of_nat (length lines))%Z
      then Some (Z.to_nat (z - 1))
      else None
  | None => None
  end.

(** The comparator [b.lineNumber - a.lineNumber].  A missing line number
    makes it [NaN], and the order [sort] gives with such a comparator is the
    engine's own; it is taken here as the order for a comparator that answers
    zero: where a line number is missing, the order of the patches, and so
    of the recorded errors, may differ from the engine's. *)
Definition line_after (a b : Remediation) : bool :=
  match lineNumber a, lineNumber b with
  | Some za, Some zb => bool_decide (0 < zb - za)%Z
  | _, _ => false
  end.

(** One turn of [sortedRemediations.forEach].  A missing [afterCode] is
    stored as the empty string, which is what [join] makes of it. *)
Definition apply_one (acc : list string * nat * list string) (r : Remediation)
  : list string * nat * list string :=
  let '(lines, applied, errs) := acc in
  match line_index lines r with
  | Some i => (<[ i := default "" (afterCode r) ]> lines, S applied, errs)
  | None =>
      (lines, applied,
       errs ++ ["Invalid line number: " +:+
                match lineNumber r with
                | Some z => pretty z
                | None => "undefined"
                end])
  end.

Definition applyRemediations (sourceHtml : string) (remediations : list Remediation)
  : Applied :=
  let lines := split_lines sourceHtml in
  let sortedRemediations :=
    js_sort line_after (filter (fun r => rstatus r = success) remediations) in
  let '(lines', applied, errs) := fold_left apply_one sortedRemediations (lines, 0, []) in
  mkApplied (join (String newline "") lines') applied errs (length sortedRemediations).

(** A successful remediation whose line number is that of an existing line. *)
Definition applies_to (sourceHtml : string) (r : Remediation) (z : Z) : Prop :=
  rstatus r = success ∧ lineNumber r = Some z ∧
  (1 <= z <= Z.of_nat (length (split_lines sourceHtml)))%Z.

(** The frame property of [applyRemediations] as the specification words it. *)
Definition apply_frame (sourceHtml : string) (remediations : list Remediation) : Prop :=
  let out := split_lines (modifiedHtml (applyRemediations sourceHtml remediations)) in
  length out = length (split_lines sourceHtml) ∧
  ∀ k : nat,
    (¬ ∃ r, r ∈ remediations ∧ applies_to sourceHtml r (Z.of_nat k + 1)) →
    out !! k = split_lines sourceHtml !! k.

(** What the loop of [applyRemediations] keeps true of its array [lines]:
    the length, the absence of line breaks inside a line, and the lines that
    no applying remediation targets. *)
Definition lines_kept (sourceHtml : string) (remediations : list Remediation)
    (lines : list string) : Prop :=
  length lines = length (split_lines sourceHtml) ∧
  Forall (fun s => has_newline s = false) lines ∧
  ∀ k : nat,
    (¬ ∃ r, r ∈ remediations ∧ applies_to sourceHtml r (Z.of_nat k + 1)) →
    lines !! k = split_lines sourceHtml !! k.

(** A patch whose new text spans two lines. *)
Definition patch_two_lines : Remediation :=
  mkRemediation (Some "1.3.1") success (Some 1%Z) (Some "<p>a</p>")
                (Some (String "x" (String newline "y")))
                (Some (9 # 10)%Q) None (Some "1.3.1") None None None None.

(** ** Vocabulary for the scheduler's further properties *)

(** The retries the Jobs of the store still have. *)
Definition retries_left (jobs : list Job) : nat :=
  foldr (fun j n => (maxAttempts j - attempts j) + n) 0 jobs.

Definition loc_rank (l : Loc) : nat :=
  match l with
  | AtOuter => 2
  | AtInner => 1
  | AtRace => 0
  | Finished => 0
  end.

(** A bound on the steps the coordinator still takes when no Job has to
    wait for another: every completion uses up a retry or retires a Job, and
    every turn of the inner loop takes a Job off the queue. *)
Definition steps_left (s : SState) : nat :=
  3 * (2 * (retries_left (store s) + length (jobQueue s) + length (processing s))
       + length (jobQueue s))
  + loc_rank (pc s).

(** The references of the queue and of the promises point into the store,
    no Job of the store has a dependency, and the coordinator awaits a race only
    with a promise in flight. *)
Record free_running (s : SState) : Prop := mk_free_running {
  fr_queue : Forall (fun r => r < length (store s)) (jobQueue s);
  fr_processing : Forall (fun kr => snd kr < length (store s)) (processing s);
  fr_no_deps : Forall (fun j => dependencies j = []) (store s);
  fr_inner : pc s = AtInner → jobQueue s ≠ [] ∨ processing s ≠ [];
  fr_race : pc s = AtRace → processing s ≠ []
}.

(** A Job record without what [executeJobs] writes to it: its status and
    its [attempts] counter.  What is left is [id], [type], [issues],
    [dependencies] and [maxAttempts]. *)
Definition static_part (j : Job) : Job :=
  mkJob (id j) (type j) (issues j) (dependencies j) pending 0 (maxAttempts j).

(** Where every Job of the batch is: waiting in the queue, in flight, or
    done with a result.  [ids] are the identifiers of the Jobs of the store, in
    its order; each promise is filed under the identifier of its Job, and
    at [return] nothing waits and nothing is in flight. *)
Record accounted (ids : list string) (s : SState) : Prop := mk_accounted {
  acc_ids : id <$> store s = ids;
  acc_refs : Forall (fun r => r < length ids) (jobQueue s);
  acc_keys : Forall (fun kr => ids !! snd kr = Some (fst kr)) (processing s);
  acc_all : omap (fun r => ids !! r) (jobQueue s)
            ++ (fst <$> processing s)
            ++ (res_jobId <$> results s) ≡ₚ ids;
  acc_done : pc s = Finished → jobQueue s = [] ∧ processing s = []
}.

(** The [attempts] counter of every Job of the store is within bounds. *)
Definition attempts_bounded (jobs : list Job) : Prop :=
  Forall (fun j => attempts j ≤ maxAttempts j) jobs.

(** What holds of the resolver's variables on every input, cyclic or not. *)
Record resolver_sound (jobs : list Job) (st : VState) : Prop := mk_resolver_sound {
  rs_sub : ∀ j, j ∈ sorted st → j ∈ jobs;
  rs_visited : visited st = ids_of (sorted st);
  rs_nodup : NoDup (id <$> sorted st);
  rs_disj : visiting st ## visited st;
  rs_visiting : visiting st ⊆ ids_of jobs
}.

(** Every dependency of the Job filed under [k] names the type of some Job
    of the batch. *)
Definition deps_present (jobs : list Job) (k : string) : Prop :=
  ∀ j, j ∈ jobs → id j = k → Forall (fun t => t ∈ type <$> jobs) (dependencies j).

(** What dispatching on [dependenciesMet] keeps true: a successful result
    has the type of a Job of the batch, and only Jobs whose dependencies all
    name such a type are ever in flight or done. *)
Record dispatch_sound (jobs : list Job) (s : SState) : Prop := mk_dispatch_sound {
  ds_static : static_part <$> store s = static_part <$> jobs;
  ds_typed : Forall (fun r => res_status r = success →
                              ∃ t, res_type r = Some t ∧ t ∈ type <$> jobs)
                    (results s);
  ds_keys : Forall (fun kr => (id <$> jobs) !! snd kr = Some (fst kr)) (processing s);
  ds_processing : Forall (fun kr => deps_present jobs (fst kr)) (processing s);
  ds_results : Forall (fun r => deps_present jobs (res_jobId r)) (results s)
}.

(** ** [detectConflicts] *)

(** An entry of [lineMap]: a remediation with the [resultId] it is given. *)
Definition Detected : Type := Remediation * string.

(** [lineMap]: a [Map] from line number to the entries on that line, keys
    and entries in order of first appearance. *)
Fixpoint line_push (lineNum : Z) (d : Detected) (lineMap : list (Z * list Detected))
  : list (Z * list Detected) :=
  match lineMap with
  | [] => [(lineNum, [d])]
  | (k, g) :: lineMap' =>
      if decide (k = lineNum) then (k, g ++ [d]) :: lineMap'
      else (k, g) :: line_push lineNum d lineMap'
  end.

(** The entries [detectConflicts] considers: every remediation of every
    result, whatever their status, whose [lineNumber] is truthy, that is
    present and not zero. *)
Definition detected (results : list JobResult) : list (Z * Detected) :=
  flat_map (fun result =>
              omap (fun r => match lineNumber r with
                             | Some z => if decide (z = 0)%Z then None
                                         else Some (z, (r, res_jobId result))
                             | None => None
                             end)
                   (res_remediations result))
           results.

Definition lineMap_of (entries : list (Z * Detected)) : list (Z * list Detected) :=
  fold_left (fun lineMap e => line_push (fst e) (snd e) lineMap) entries [].

Record Conflict := mkConflict {
  c_lineNumber : Z;
  c_count : nat;
  c_remediations : list Detected
}.

Definition detectConflicts (results : list JobResult) : list Conflict :=
  omap (fun entry => if decide (1 < length (snd entry))
                     then Some (mkConflict (fst entry) (length (snd entry)) (snd entry))
                     else None)
       (lineMap_of (detected results)).

(** What holds of [lineMap] once the entries [es] have been filed: distinct
    keys, under each key the entries on that line in their order, and a key
    for every line that has an entry. *)
Definition lineMap_ok (es : list (Z * Detected)) (lineMap : list (Z * list Detected))
  : Prop :=
  NoDup (fst <$> lineMap) ∧
  (∀ k g, (k, g) ∈ lineMap →
          g ≠ [] ∧ g = snd <$> filter (fun e => fst e = k) es) ∧
  (∀ e, e ∈ es → fst e ∈ fst <$> lineMap).

(** ** The limiter over a run of calls *)

(** [Array.from(requests.values()).reduce(...)]. *)
Definition total_requests (requests : list (Z * nat)) : nat :=
  fold_left (fun sum e => sum + snd e) requests 0.

(** The entries [canMakeRequest] does not delete at time [now]. *)
Definition recent (now : Z) (requests : list (Z * nat)) : list (Z * nat) :=
  filter (fun e => ¬ (fst e < now - windowMs)%Z) requests.

(** [Math.floor(now / windowMs) * windowMs]. *)
Definition minute_of (now : Z) : Z := (now / windowMs * windowMs)%Z.

(** [canMakeRequest] called at the times [times] in turn, on one limiter:
    each time with its answer, and the limiter's map at the end. *)
Fixpoint limiter_run (times : list Z) (requests : list (Z * nat))
  : list (Z * bool) * list (Z * nat) :=
  match times with
  | [] => ([], requests)
  | now :: times' =>
      let '(allowed, requests') := canMakeRequest now requests in
      let '(log, final) := limiter_run times' requests' in
      ((now, allowed) :: log, final)
  end.

(** The calls of a run that fall in the calendar minute starting at
    [minute] and were let through. *)
Definition granted_in (minute : Z) (log : list (Z * bool)) : nat :=
  length (filter (fun e => minute_of (fst e) = minute ∧ snd e = true) log).

(** ** [validateRemediations] *)

(** A remediation after [validateRemediations], with the two fields the
    function adds where the source line differs from [beforeCode]. *)
Record Validated := mkValidated {
  v_remediation : Remediation;
  v_warning : option string;
  v_actualLine : option string
}.

Definition set_status_error (r : Remediation) (s : Status) (e : option string)
  : Remediation :=
  mkRemediation (rtype r) s (lineNumber r) (beforeCode r) (afterCode r)
                (confidence r) (explanation r) (wcagCriterion r) e
                (jobId r) (jobType r) (mergedFrom r).

(** One turn of [remediations.forEach], [None] where it throws: without a
    line number the index is [NaN], which passes the range test and reads
    [undefined] off [lines]; and [trim] cannot be read off a missing
    [beforeCode].  [trim] is [String.prototype.trim]. *)
Definition validate_one (trim : string -> string) (lines : list string)
    (remediation : Remediation) : option Validated :=
  if decide (rstatus remediation ≠ success)
  then Some (mkValidated remediation None None)
  else
    match lineNumber remediation with
    | None => None
    | Some z =>
        if decide (z - 1 < 0 ∨ Z.of_nat (length lines) <= z - 1)%Z
        then Some (mkValidated
                     (set_status_error remediation failed
                        (Some ("Line number " +:+ pretty z +:+ " is out of range")))
                     None None)
        else
          match lines !! Z.to_nat (z - 1), beforeCode remediation with
          | Some actualLine, Some before =>
              if decide (trim actualLine ≠ trim before)
              then Some (mkValidated
                           (set_status_error remediation warning (rerror remediation))
                           (Some "beforeCode does not exactly match source line")
                           (Some actualLine))
              else Some (mkValidated remediation None None)
          | _, _ => None
          end
    end.

Definition validateRemediations (trim : string -> string) (sourceHtml : string)
    (remediations : list Remediation) : option (list Validated) :=
  mapM (validate_one trim (split_lines sourceHtml)) remediations.

(** ** [applyRemediations] after the conflict resolver *)

(** An entry of the resolver's list as [applyRemediations] reads it: of a
    review placeholder it finds the status and no other field. *)
Definition as_remediation (x : Resolved) : Remediation :=
  match x with
  | Patch r => r
  | NeedsReview _ _ =>
      mkRemediation None needs_review None None None None None None None None None None
  end.

(** A successful remediation that [applyRemediations] writes into a source
    of [lines]. *)
Definition on_line (lines : list string) (r : Remediation) : Prop :=
  is_Some (line_index lines r).

#[global] Instance on_line_dec lines r : Decision (on_line lines r).
Proof. unfold on_line. apply _. Defined.

(** ** Examples *)

(** The identity in the place of [trim], for sources free of blanks. *)
Definition trim_none (s : string) : string := s.

(** A patch for a line the source does not have. *)
Definition patch_far : Remediation :=
  patch_on 7 "1.1.1" "<img src=a.png alt=logo>" (9 # 10).

(** A Job whose dependency no Job of the batch provides. *)
Definition job_orphan : Job :=
  createJob cfg_serial 0 (mkPrepared None (Some "1.1.1") None None (Some ["3.1.1"])).

(** A patch for the image on line 1 and one for a line that is not there,
    as [validateRemediations] leaves them. *)
Definition validated_alt_far : list Validated :=
  default [] (validateRemediations trim_none original_img [patch_alt; patch_far]).

(** One successful Job result with a patch for line 1 and one for line 7. *)
Definition results_two_lines : list JobResult :=
  [mkJobResult "job-0" (Some "1.1.1") success None [patch_alt; patch_far]].

(** ** [findDependencies], and [prepareIssues] without grouping *)

(** [s?.startsWith(prefix)], which is falsy for a missing [s]. *)
Definition startsWith (s : option string) (prefix : string) : bool :=
  match s with
  | Some s => String.prefix prefix s
  | None => false
  end.

(** What one turn of [allIssues.forEach] pushes for an [otherIssue] that is
    not [issue] itself: its criterion, once for each rule that holds.  Every
    rule asks for a criterion of [otherIssue]. *)
Definition pushed_for (issue otherIssue : Issue) : list string :=
  match criterion otherIssue with
  | None => []
  | Some other =>
      (if startsWith (criterion issue) "1.4" && String.prefix "1.3" other
       then [other] else [])
      ++ (if bool_decide (criterion issue ≠ Some "3.1.1") && bool_decide (other = "3.1.1")
          then [other] else [])
      ++ (if startsWith (criterion issue) "3.3" && bool_decide (other = "3.3.2")
          then [other] else [])
  end.

(** [findDependencies(issue, allIssues)] for the [issue] at position [index]
    of [allIssues], which is how [prepareIssues] calls it: [otherIssue ===
    issue] holds at that position only, the objects of the array being
    distinct. *)
Definition findDependencies (index : nat) (issue : Issue) (allIssues : list Issue)
  : list string :=
  concat (imap (fun j otherIssue =>
                  if decide (j = index) then [] else pushed_for issue otherIssue)
               allIssues).

(** The objects [prepareIssues] builds from the issues, one by one, when it
    does not group them, as far as [createJobs] reads them: the issue's own
    fields and its [dependencies].  The sort that may follow rearranges
    them. *)
Definition prepared_ungrouped (issues : list Issue) : list Prepared :=
  imap (fun index issue =>
          mkPrepared (itype issue) (criterion issue) (title issue) None
                     (Some (findDependencies index issue issues)))
       issues.

(** Two issues as a checker reports them, with a severity for [type]. *)
Definition issues_alt_lang : list Issue :=
  [ mkIssue (Some "1.1.1") (Some "error") None;
    mkIssue (Some "3.1.1") (Some "warning") None ].

(** ** [groupIssuesByType], and [prepareIssues] with grouping *)

(** The property names an object literal inherits: under such a key
    [grouped[key]] holds something from the start, and it is no array. *)
Definition inherited_keys : list string :=
  [ "constructor"; "__defineGetter__"; "__defineSetter__"; "hasOwnProperty";
    "__lookupGetter__"; "__lookupSetter__"; "isPrototypeOf";
    "propertyIsEnumerable"; "toString"; "valueOf"; "__proto__"; "toLocaleString" ].

(** [issue.criterion || issue.type || 'unknown']. *)
Definition group_key (issue : Issue) : string :=
  default "unknown" (match truthy (criterion issue) with
                     | Some c => Some c
                     | None => truthy (itype issue)
                     end).

(** [grouped[key].push(issue)], after [grouped[key] = []] for a new key. *)
Fixpoint grouped_push (key : string) (issue : Issue)
    (grouped : list (string * list Issue)) : list (string * list Issue) :=
  match grouped with
  | [] => [(key, [issue])]
  | (k, g) :: grouped' =>
      if decide (k = key) then (k, g ++ [issue]) :: grouped'
      else (k, g) :: grouped_push key issue grouped'
  end.

(** [groupIssuesByType]: the groups under their keys, in order of first
    appearance; [None] where it throws, which is at an inherited key, where
    [push] is called on what is found there. *)
Definition groupIssuesByType (allIssues : list Issue)
  : option (list (string * list Issue)) :=
  fold_left (fun acc issue =>
               match acc with
               | Some grouped =>
                   if decide (group_key issue ∈ inherited_keys) then None
                   else Some (grouped_push (group_key issue) issue grouped)
               | None => None
               end)
            allIssues (Some []).

(** The objects [prepareIssues] builds from the groups, as far as
    [createJobs] reads them: [type] and [issues], and no [dependencies].
    [Object.entries] lists keys that read as array indices before the
    others, and the sort may follow: both rearrange them. *)
Definition prepared_grouped (grouped : list (string * list Issue)) : list Prepared :=
  (fun entry => mkPrepared (Some (fst entry)) None None (Some (snd entry)) None)
    <$> grouped.

(** What holds of [grouped] once the issues [seen] have been filed. *)
Definition grouped_ok (seen : list Issue) (grouped : list (string * list Issue))
  : Prop :=
  NoDup (fst <$> grouped) ∧
  Forall (fun entry => snd entry ≠ [] ∧
                       Forall (fun issue => group_key issue = fst entry) (snd entry))
         grouped ∧
  concat (snd <$> grouped) ≡ₚ seen.

(** Three issues under two criteria. *)
Definition issues_three : list Issue :=
  [ mkIssue (Some "1.1.1") (Some "error") None;
    mkIssue (Some "3.1.1") (Some "warning") None;
    mkIssue (Some "1.1.1") (Some "error") (Some "logo") ].

Definition grouped_three : list (string * list Issue) :=
  default [] (groupIssuesByType issues_three).

(** ** The calls and the results of one Job *)

(** What the races handed over for a Job and the results recorded for it
    say of each other, [job0] being the Job as it was passed and [job] the
    Job as it is.  Before there is a result every race was lost and cost a
    retry; the result, of which there is one at most, is what the last race
    gave, a failure only when no retry was left. *)
Definition job_history (cfg : Config) (job0 job : Job)
    (handed : list (Raced * Z)) (own : list JobResult) : Prop :=
  match own with
  | [] => Forall failing handed ∧ attempts job = attempts job0 + length handed
  | [result] =>
      ∃ before last,
        handed = before ++ [last] ∧ Forall failing before ∧
        attempts job = attempts job0 + length before ∧
        match executeJob cfg job0 (fst last) (snd last) with
        | Fulfilled done => result = done
        | Rejected message =>
            result = failed_result (id job0) message ∧
            ¬ attempts job < maxAttempts job0
        end
  | _ => False
  end.

(** What a counted run keeps true of a batch [jobs0] with pairwise distinct
    identifiers. *)
Record history_ok (cfg : Config) (jobs0 : list Job) (t : Traced) : Prop :=
  mk_history_ok {
  ho_accounted : accounted (id <$> jobs0) (sched t);
  ho_static : static_part <$> store (sched t) = static_part <$> jobs0;
  ho_jobs : ∀ r job0 job,
    jobs0 !! r = Some job0 → store (sched t) !! r = Some job →
    job_history cfg job0 job (calls_of (id job0) t) (results_of (id job0) (sched t))
}.


(** The contract of an exhausted Job as the specification words it: a Job
    whose every worker call fails ends, when execution completes, with a
    result of status failed that carries as many placeholder entries as the
    Job has Issues. *)
Definition exhausted_contract (cfg : Config) (env : Env) (drain : nat -> nat)
    (jobs queue : list Job) (n : nat) (job : Job) : Prop :=
  let t := traced_steps n cfg env drain (traced_initial jobs queue) in
  NoDup (id <$> jobs) → resolveDependencies jobs = Some queue → job ∈ jobs →
  Forall failing (calls_of (id job) t) →
  pc (sched t) = Finished →
  ∃ result,
    results_of (id job) (sched t) = [result] ∧
    res_status result = failed ∧
    length (res_remediations result) = length (issues job).


(** Two alt-text Jobs of one Issue each, without dependencies. *)
Definition batch_two_alt : list Job := createJobs cfg_serial [group_alt; group_alt].

(** The message [executeJob] throws with when the race [call] is lost: the
    message of the rejected worker call, or of the timeout promise, behind
    the prefix of the [catch] block. *)
Definition thrown_message (cfg : Config) (call : Raced * Z) : string :=
  failure_message (snd call)
    match fst call with
    | AgentRejected message => message
    | _ => timeout_message cfg
    end.

(** * Properties *)

(** ** The dependency resolver *)

Lemma NoDup_fmap_inj {A B : Type} (f : A → B) (l : list A) (x y : A) :
  NoDup (f <$> l) → x ∈ l → y ∈ l → f x = f y → x = y.
Proof.
  induction l as [|a l IH]; intros Hnd Hx Hy Hf.
  - by apply elem_of_nil in Hx.
  - rewrite fmap_cons in Hnd. apply NoDup_cons in Hnd as [Hna Hnd].
    apply elem_of_cons in Hx as [->|Hx]; apply elem_of_cons in Hy as [->|Hy];
      try done.
    + exfalso. apply Hna. rewrite Hf. by apply list_elem_of_fmap_2.
    + exfalso. apply Hna. rewrite <- Hf. by apply list_elem_of_fmap_2.
    + by apply IH.
Qed.

Lemma find_by_type_Some jobs t d :
  find_by_type jobs t = Some d → d ∈ jobs ∧ type d = t.
Proof.
  unfold find_by_type. intros H. apply find_some in H as [Hin Hb].
  split; [by apply list_elem_of_In | by apply bool_decide_eq_true in Hb].
Qed.

Lemma elem_of_ids_of (l : list Job) (x : string) :
  x ∈ ids_of l ↔ ∃ j, j ∈ l ∧ id j = x.
Proof.
  unfold ids_of. rewrite elem_of_list_to_set, list_elem_of_fmap.
  split; intros (j & H1 & H2); exists j; by split.
Qed.

Lemma ids_of_snoc (l : list Job) (j : Job) : ids_of (l ++ [j]) = ids_of l ∪ {[ id j ]}.
Proof.
  unfold ids_of. rewrite fmap_app, list_to_set_app_L. f_equal.
  simpl. apply union_empty_r_L.
Qed.

Lemma ids_of_size (l : list Job) : size (ids_of l) ≤ length l.
Proof.
  unfold ids_of. rewrite <- (length_fmap id l).
  generalize (id <$> l). intros k.
  induction k as [|x k IH].
  - rewrite list_to_set_nil, size_empty. simpl. lia.
  - rewrite list_to_set_cons, size_union_alt, size_singleton.
    assert (size (list_to_set k ∖ {[x]} : gset string)
            ≤ size (list_to_set k : gset string)) as Hle.
    { apply subseteq_size. apply subseteq_difference_l. done. }
    simpl. lia.
Qed.

(** [resolveDependencies] returns on every input, with or without cycles:
    the bound on the depth of [visit] is never reached. *)
Lemma visit_returns (jobs : list Job) (fuel : nat) : ∀ c st,
  c ∈ jobs → visiting st ⊆ ids_of jobs →
  size (ids_of jobs) - size (visiting st) < fuel →
  ∃ st', visit fuel jobs c st = Some st' ∧ visiting st' = visiting st.
Proof.
  induction fuel as [|fuel IH]; intros c st Hc Hsub Hfuel; [lia|].
  simpl. destruct (decide (id c ∈ visiting st)) as [Hin|Hnin]; [by exists st|].
  destruct (decide (id c ∈ visited st)) as [Hvis|Hnvis]; [by exists st|].
  set (body := fun depType s =>
                 match find_by_type jobs depType with
                 | Some depJob => visit fuel jobs depJob s
                 | None => Some s
                 end).
  assert (Hc' : id c ∈ ids_of jobs) by (apply elem_of_ids_of; eauto).
  assert (Hsize : size (visiting st) < size (ids_of jobs)).
  { apply subset_size. split; [done|]. intros Hsup. by apply Hnin, Hsup. }
  assert (Hloop : ∀ ds s,
    visiting s = visiting st ∪ {[ id c ]} →
    ∃ s', forEachM body ds s = Some s' ∧ visiting s' = visiting s).
  { induction ds as [|t ds IHds]; intros s Hvs; [by exists s|].
    simpl. unfold body at 1.
    destruct (find_by_type jobs t) as [d|] eqn:Hfind; [|by apply IHds].
    apply find_by_type_Some in Hfind as [Hd _].
    destruct (IH d s Hd) as (s1 & Hv & Hvs1).
    { rewrite Hvs. set_solver. }
    { rewrite Hvs, size_union by set_solver. rewrite size_singleton. lia. }
    rewrite Hv. destruct (IHds s1) as (s2 & Hf & Hvs2); [congruence|].
    exists s2. split; [done|congruence]. }
  destruct (Hloop (dependencies c)
              (mkVState (sorted st) (visited st) (visiting st ∪ {[id c]})))
    as (s2 & Hf & Hvs2); [done|].
  fold body. rewrite Hf. eexists. split; [done|]. simpl in *.
  rewrite Hvs2. set_solver.
Qed.

Lemma resolveDependencies_returns (jobs : list Job) :
  is_Some (resolveDependencies jobs).
Proof.
  unfold resolveDependencies, resolveDependencies_fuel.
  assert (Hloop : ∀ ds s,
    (∀ j, j ∈ ds → j ∈ jobs) → visiting s = ∅ →
    ∃ s', forEachM (visit_top (S (length jobs)) jobs) ds s = Some s').
  { induction ds as [|c ds IHds]; intros s Hds Hvs; [by exists s|].
    simpl. unfold visit_top at 1.
    destruct (decide (id c ∈ visited s)).
    - apply IHds; [|done]. intros j Hj. apply Hds. by right.
    - destruct (visit_returns jobs (S (length jobs)) c s) as (s1 & Hv & Hvs1).
      { apply Hds. by left. }
      { rewrite Hvs. set_solver. }
      { pose proof (ids_of_size jobs). lia. }
      rewrite Hv. apply IHds; [|congruence]. intros j Hj. apply Hds. by right. }
  destruct (Hloop jobs (mkVState [] ∅ ∅)) as (s' & Hs'); [done|done|].
  rewrite Hs'. by eexists.
Qed.

Section resolver.
Variable jobs : list Job.
Hypothesis ids_distinct : NoDup (id <$> jobs).
Hypothesis no_cycle : acyclic (dep_first jobs) jobs.

Lemma ordered_snoc (l : list Job) (c : Job) :
  ordered_by (dep_first jobs) l →
  (∀ d, dep_first jobs c d → d ∈ l) →
  ordered_by (dep_first jobs) (l ++ [c]).
Proof.
  intros Hord Hc l1 j l2 d Heq Hdep.
  destruct l2 as [|x l2 _] using rev_ind.
  - apply app_inj_tail in Heq as [-> ->]. by apply Hc.
  - rewrite app_comm_cons, app_assoc in Heq.
    apply app_inj_tail in Heq as [Heq _].
    by eapply Hord.
Qed.

Lemma visit_ok (fuel : nat) : ∀ c st,
  c ∈ jobs → resolver_inv jobs st →
  (∀ j, j ∈ jobs → id j ∈ visiting st → tc (dep_first jobs) j c) →
  size (ids_of jobs) - size (visiting st) < fuel →
  ∃ st', visit fuel jobs c st = Some st' ∧ resolver_inv jobs st' ∧
         visiting st' = visiting st ∧ visited st ⊆ visited st' ∧
         id c ∈ visited st'.
Proof.
  induction fuel as [|fuel IH]; intros c st Hc Hinv Hpath Hfuel; [lia|].
  simpl. destruct (decide (id c ∈ visiting st)) as [Hin|Hnin].
  { exfalso. apply (no_cycle c Hc). by apply Hpath. }
  destruct (decide (id c ∈ visited st)) as [Hvis|Hnvis].
  { exists st. done. }
  set (body := fun depType s =>
                 match find_by_type jobs depType with
                 | Some depJob => visit fuel jobs depJob s
                 | None => Some s
                 end).
  assert (Hsize : size (visiting st) < size (ids_of jobs)).
  { apply subset_size. split; [by destruct Hinv|].
    intros Hsub. apply Hnin, Hsub, elem_of_ids_of. eauto. }
  assert (Hloop : ∀ ds s,
    (∀ t, t ∈ ds → t ∈ dependencies c) →
    resolver_inv jobs s → visiting s = visiting st ∪ {[ id c ]} →
    ∃ s', forEachM body ds s = Some s' ∧ resolver_inv jobs s' ∧
          visiting s' = visiting s ∧ visited s ⊆ visited s' ∧
          ∀ t d, t ∈ ds → find_by_type jobs t = Some d → id d ∈ visited s').
  { induction ds as [|t ds IHds]; intros s Hds Hs Hvs.
    - exists s. simpl. split_and!; try done. intros t d Ht. by apply elem_of_nil in Ht.
    - simpl. unfold body at 1.
      destruct (find_by_type jobs t) as [d|] eqn:Hfind.
      + apply find_by_type_Some in Hfind as Hd. destruct Hd as [Hd _].
        destruct (IH d s Hd Hs) as (s1 & Hv & Hs1 & Hvs1 & Hmono & Hdv).
        { intros j Hj Hjv. rewrite Hvs in Hjv.
          assert (Hedge : dep_first jobs c d).
          { split; [done|]. exists t. split; [apply Hds; left|done]. }
          apply elem_of_union in Hjv as [Hjv|Hjv].
          - eapply tc_r; [by apply Hpath|done].
          - apply elem_of_singleton in Hjv.
            rewrite (NoDup_fmap_inj id jobs j c ids_distinct Hj Hc Hjv).
            by apply tc_once. }
        { rewrite Hvs, size_union by set_solver. rewrite size_singleton. lia. }
        rewrite Hv.
        destruct (IHds s1) as (s2 & Hf & Hs2 & Hvs2 & Hmono2 & Hdv2).
        { intros t' Ht'. apply Hds. by right. }
        { done. }
        { congruence. }
        exists s2. split_and!; try done; try congruence.
        * set_solver.
        * intros t' d' Ht' Hfind'. apply elem_of_cons in Ht' as [->|Ht'].
          -- rewrite Hfind in Hfind'. injection Hfind' as <-. set_solver.
          -- by eapply Hdv2.
      + destruct (IHds s) as (s2 & Hf & Hs2 & Hvs2 & Hmono2 & Hdv2).
        { intros t' Ht'. apply Hds. by right. }
        { done. }
        { done. }
        exists s2. split_and!; try done.
        intros t' d' Ht' Hfind'. apply elem_of_cons in Ht' as [->|Ht'].
        * congruence.
        * by eapply Hdv2. }
  destruct (Hloop (dependencies c)
              (mkVState (sorted st) (visited st) (visiting st ∪ {[id c]})))
    as (s2 & Hf & Hs2 & Hvs2 & Hmono2 & Hdv2).
  { done. }
  { destruct Hinv. constructor; simpl; try done.
    - set_solver.
    - apply union_least; [done|]. apply singleton_subseteq_l.
      apply elem_of_ids_of. eauto. }
  { done. }
  fold body. rewrite Hf. eexists. split; [done|]. simpl in *.
  destruct Hs2 as [Hsub2 Hvis2 Hnd2 Hord2 Hdisj2 Hving2].
  split_and!; simpl.
  - constructor; simpl.
    + intros j Hj. apply elem_of_app in Hj as [Hj|Hj]; [by apply Hsub2|].
      apply list_elem_of_singleton in Hj. by subst.
    + rewrite ids_of_snoc. by rewrite Hvis2.
    + rewrite fmap_app. apply NoDup_app. split; [done|]. split.
      * intros x Hx Hx'. simpl in Hx'. apply list_elem_of_singleton in Hx'. subst x.
        assert (id c ∈ visited s2).
        { rewrite Hvis2. unfold ids_of. by apply elem_of_list_to_set. }
        set_solver.
      * simpl. apply NoDup_singleton.
    + apply ordered_snoc; [done|].
      intros d [_ [t [Ht Hfind]]].
      specialize (Hdv2 t d Ht Hfind). rewrite Hvis2 in Hdv2.
      apply elem_of_ids_of in Hdv2 as (d' & Hd' & Hid).
      apply find_by_type_Some in Hfind as [Hd _].
      by rewrite <- (NoDup_fmap_inj id jobs d' d ids_distinct (Hsub2 _ Hd') Hd Hid).
    + set_solver.
    + set_solver.
  - set_solver.
  - set_solver.
  - set_solver.
Qed.

Lemma visit_top_ok (ds : list Job) : ∀ s,
  (∀ j, j ∈ ds → j ∈ jobs) → resolver_inv jobs s → visiting s = ∅ →
  ∃ s', forEachM (visit_top (S (length jobs)) jobs) ds s = Some s' ∧
        resolver_inv jobs s' ∧ visiting s' = ∅ ∧ visited s ⊆ visited s' ∧
        ∀ j, j ∈ ds → id j ∈ visited s'.
Proof.
  induction ds as [|c ds IHds]; intros s Hds Hs Hvs.
  - exists s. simpl. split_and!; try done. intros j Hj. by apply elem_of_nil in Hj.
  - simpl. unfold visit_top at 1.
    destruct (decide (id c ∈ visited s)) as [Hin|Hnin].
    + destruct (IHds s) as (s2 & Hf & Hs2 & Hvs2 & Hmono2 & Hdv2); try done.
      { intros j Hj. apply Hds. by right. }
      exists s2. split_and!; try done.
      intros j Hj. apply elem_of_cons in Hj as [->|Hj]; [set_solver|by apply Hdv2].
    + destruct (visit_ok (S (length jobs)) c s) as (s1 & Hv & Hs1 & Hvs1 & Hmono & Hdv).
      { apply Hds. by left. }
      { done. }
      { intros j _. rewrite Hvs. set_solver. }
      { pose proof (ids_of_size jobs). lia. }
      rewrite Hv.
      destruct (IHds s1) as (s2 & Hf & Hs2 & Hvs2 & Hmono2 & Hdv2); try congruence.
      { intros j Hj. apply Hds. by right. }
      exists s2. split_and!; try done; set_solver.
Qed.

(** C3, as amended.  For Jobs with pairwise distinct identifiers whose
    dependency graph, with an edge from a Job to the first Job of each type
    it lists, is acyclic, [resolveDependencies] returns, its output is a
    permutation of the input, and every Job stands after the first Job of
    each type it depends on.  A listed type that no Job has yields no edge
    and so no constraint. *)
Theorem resolveDependencies_topological :
  ∃ out, resolveDependencies jobs = Some out ∧ out ≡ₚ jobs ∧
         ordered_by (dep_first jobs) out.
Proof.
  destruct (visit_top_ok jobs (mkVState [] ∅ ∅)) as (s & Hf & Hs & _ & _ & Hall).
  { done. }
  { constructor; simpl; try done.
    - intros j Hj. by apply elem_of_nil in Hj.
    - apply NoDup_nil_2.
    - intros l1 j l2 d Heq. by destruct l1. }
  { done. }
  exists (sorted s). unfold resolveDependencies, resolveDependencies_fuel.
  rewrite Hf. split; [done|]. destruct Hs as [Hsub Hvis Hnd Hord _ _].
  split; [|done].
  apply NoDup_Permutation.
  - by eapply NoDup_fmap_1.
  - by eapply NoDup_fmap_1.
  - intros j. split; [by apply Hsub|].
    intros Hj. specialize (Hall j Hj). rewrite Hvis in Hall.
    apply elem_of_ids_of in Hall as (j' & Hj' & Hid).
    by rewrite <- (NoDup_fmap_inj id jobs j' j ids_distinct (Hsub _ Hj') Hj Hid).
Qed.
End resolver.

Lemma acyclic_by_rank (R : relation Job) (jobs : list Job) (rank : Job → nat) :
  (∀ j d, R j d → rank d < rank j) → acyclic R jobs.
Proof.
  intros Hrank j _ Hloop.
  assert (Hlt : ∀ a b, tc R a b → rank b < rank a).
  { induction 1 as [a b Hab|a b c Hab _ IH].
    - by apply Hrank.
    - apply Hrank in Hab. lia. }
  specialize (Hlt j j Hloop). lia.
Qed.

Lemma resolveDependencies_topological_witness :
  ∃ out, resolveDependencies [job_x; job_t1; job_t2] = Some out ∧
         out ≡ₚ [job_x; job_t1; job_t2] ∧
         ordered_by (dep_first [job_x; job_t1; job_t2]) out.
Proof.
  apply resolveDependencies_topological.
  - repeat constructor; vm_compute; set_solver.
  - apply (acyclic_by_rank _ _ (fun j => length (dependencies j))).
    intros j d [Hj [t [Ht Hfind]]].
    repeat (apply elem_of_cons in Hj as [->|Hj]);
      [| by apply elem_of_nil in Ht ..| by apply elem_of_nil in Hj].
    apply list_elem_of_singleton in Ht. subst t.
    vm_compute in Hfind. injection Hfind as <-. simpl. lia.
Defined.

(** C3, counterexample.  With two Jobs of type 1.3.1 the graph of the
    contract is acyclic, yet the Job that depends on 1.3.1 is placed before the
    second of them. *)
Lemma resolver_contract_fails : ¬ resolver_contract [job_x; job_t1; job_t2].
Proof.
  intros Hc. destruct Hc as (out & Hout & _ & Hord).
  - apply (acyclic_by_rank _ _ (fun j => length (dependencies j))).
    intros j d (Hj & Hd & Ht).
    repeat (apply elem_of_cons in Hj as [->|Hj]);
      [| by apply elem_of_nil in Ht ..| by apply elem_of_nil in Hj].
    repeat (apply elem_of_cons in Hd as [->|Hd]);
      [ | simpl; lia .. | by apply elem_of_nil in Hd].
    simpl in Ht. apply list_elem_of_singleton in Ht. discriminate.
  - assert (Hrun : resolveDependencies [job_x; job_t1; job_t2]
                   = Some [job_t1; job_x; job_t2]) by (vm_compute; reflexivity).
    rewrite Hrun in Hout. injection Hout as <-.
    specialize (Hord [job_t1] job_x [job_t2] job_t2 eq_refl).
    assert (Hin : job_t2 ∈ [job_t1]).
    { apply Hord. split_and!; [set_solver..|]. simpl. set_solver. }
    apply list_elem_of_singleton in Hin. discriminate.
Qed.
(** ** The scheduler: bounded concurrency *)

Lemma filter_none {A : Type} (P : A → Prop) `{∀ x, Decision (P x)} (l : list A) :
  Forall (fun x => ¬ P x) l → filter P l = [].
Proof.
  induction 1 as [|x l Hx _ IH]; [done|]. by rewrite filter_cons, decide_False.
Qed.

Lemma map_set_length {V : Type} (k : string) (v : V) (m : list (string * V)) :
  length (map_set k v m) ≤ S (length m).
Proof.
  induction m as [|[k' v'] m IH]; simpl; [lia|].
  destruct (decide (k' = k)); simpl; lia.
Qed.

Lemma map_delete_length {V : Type} (k : string) (m : list (string * V)) :
  length (map_delete k m) ≤ length m.
Proof.
  induction m as [|[k' v'] m IH]; simpl; [lia|].
  destruct (decide (k' = k)); simpl; lia.
Qed.

Lemma handle_completion_processing (cfg : Config) (env : Env) (s : SState) :
  length (processing (handle_completion cfg env s)) ≤ length (processing s).
Proof.
  unfold handle_completion.
  destruct (completing env s) as [[[[completed_jobId running] raced] processingTime]|];
    [|done].
  pose proof (map_delete_length completed_jobId (processing s)) as Hdel.
  destruct (executeJob cfg running raced processingTime) as [result|message]; [done|].
  destruct (list_find _ (store s)) as [[i job]|]; [|done].
  by destruct (decide (attempts job < maxAttempts job)).
Qed.

Lemma step_bounded (cfg : Config) (env : Env) (s : SState) :
  length (processing s) ≤ maxConcurrency cfg →
  length (processing (step cfg env s)) ≤ maxConcurrency cfg.
Proof.
  intros Hle. unfold step. destruct (pc s); try done.
  - destruct (jobQueue s); [destruct (processing s) eqn:Hp|];
      simpl; rewrite ?Hp; done.
  - destruct (jobQueue s) as [|r queue']; [done|].
    destruct (decide (length (processing s) < maxConcurrency cfg)) as [Hlt|]; [|done].
    destruct (store s !! r) as [job|]; [|done].
    unfold inner_iteration. destruct (dependenciesMet job (results s)); simpl; [|done].
    pose proof (map_set_length (id job) r (processing s)). lia.
  - destruct (processing s) eqn:Hp; [simpl; rewrite Hp; simpl; lia|].
    rewrite <- Hp in *.
    pose proof (handle_completion_processing cfg env s). lia.
Qed.

Lemma steps_bounded (cfg : Config) (env : Env) (n : nat) : ∀ s,
  length (processing s) ≤ maxConcurrency cfg →
  length (processing (steps n cfg env s)) ≤ maxConcurrency cfg.
Proof.
  induction n as [|n IH]; intros s Hs; simpl; [done|].
  by apply IH, step_bounded.
Qed.

(** The counted run is the run. *)
Lemma sched_traced_step cfg env drain (t : Traced) :
  sched (traced_step cfg env drain t) = step cfg env (sched t).
Proof. unfold traced_step. by destruct (handed_over env (sched t)). Qed.

Lemma sched_traced_steps cfg env drain (n : nat) : ∀ t,
  sched (traced_steps n cfg env drain t) = steps n cfg env (sched t).
Proof.
  induction n as [|n IH]; intros t; simpl; [done|].
  by rewrite IH, sched_traced_step.
Qed.

(** Every abandoned call is one that timed out. *)
Lemma traced_step_abandoned cfg env drain (t : Traced) :
  abandoned t ≤ length (filter timed_out (races t)) →
  abandoned (traced_step cfg env drain t)
  ≤ length (filter timed_out (races (traced_step cfg env drain t))).
Proof.
  intros Hle. unfold traced_step.
  set (still := if suspends cfg env (sched t)
                then abandoned t - drain (suspensions t) else abandoned t).
  assert (Hstill : still ≤ abandoned t).
  { unfold still. destruct (suspends cfg env (sched t)); lia. }
  destruct (handed_over env (sched t)) as [call|]; cbn [abandoned races]; [|lia].
  rewrite filter_app, length_app, filter_cons, filter_nil.
  destruct (decide (timed_out call)); simpl; lia.
Qed.

Lemma traced_steps_abandoned cfg env drain (n : nat) : ∀ t,
  abandoned t ≤ length (filter timed_out (races t)) →
  abandoned (traced_steps n cfg env drain t)
  ≤ length (filter timed_out (races (traced_steps n cfg env drain t))).
Proof.
  induction n as [|n IH]; intros t Ht; simpl; [done|].
  by apply IH, traced_step_abandoned.
Qed.

(** C1, as amended.  Whatever batch is passed, however the races are
    decided and whichever promise settles first, after any number of steps of
    the coordinator the [processing] map holds at most [maxConcurrency]
    promises: that many worker calls at most are in flight with their race
    undecided.  The calls in flight besides are calls that timed out and were
    left running, so that all in all there are at most [maxConcurrency] and
    the number of timeouts so far, and at most [maxConcurrency] as long as no
    call has timed out. *)
Theorem executeJobs_bounded_concurrency
    (cfg : Config) (env : Env) (drain : nat → nat) (jobs queue : list Job) (n : nat) :
  let t := traced_steps n cfg env drain (traced_initial jobs queue) in
  sched t = steps n cfg env (initial jobs queue) ∧
  length (processing (sched t)) ≤ maxConcurrency cfg ∧
  abandoned t ≤ length (filter timed_out (races t)) ∧
  in_flight t ≤ maxConcurrency cfg + length (filter timed_out (races t)) ∧
  (Forall (fun call => ¬ timed_out call) (races t) → in_flight t ≤ maxConcurrency cfg).
Proof.
  cbn zeta.
  pose proof (sched_traced_steps cfg env drain n (traced_initial jobs queue)) as Hsched.
  cbn [traced_initial sched] in Hsched.
  pose proof (steps_bounded cfg env n (initial jobs queue)) as Hproc.
  rewrite <- Hsched in Hproc. specialize (Hproc ltac:(simpl; lia)).
  pose proof (traced_steps_abandoned cfg env drain n (traced_initial jobs queue)
                ltac:(simpl; lia)) as Hab.
  split_and!; [done|done|done|unfold in_flight; lia|].
  intros Hnone. unfold in_flight.
  rewrite (filter_none timed_out) in Hab by done. simpl in Hab. lia.
Qed.

(** C1, counterexample.  One slot and one Job whose worker call times out:
    the retry is dispatched in the same turn, and its call runs beside the
    one that was left running.  Two calls are in flight, with a limit of
    one. *)
Lemma bounded_calls_fail :
  ¬ bounded_calls cfg_serial env_always_rejects drain_never [job_alt] [job_alt].
Proof.
  intros Hc. specialize (Hc 6). vm_compute in Hc. lia.
Qed.

(** ** The scheduler: running to completion *)

Lemma steps_plus (cfg : Config) (env : Env) (n m : nat) (s : SState) :
  steps (n + m) cfg env s = steps m cfg env (steps n cfg env s).
Proof. revert s. induction n as [|n IH]; intros s; simpl; [done|]. apply IH. Qed.

Lemma step_Finished (cfg : Config) (env : Env) (s : SState) :
  pc s = Finished → step cfg env s = s.
Proof. intros H. unfold step. by rewrite H. Qed.

Lemma steps_Finished (cfg : Config) (env : Env) (n : nat) (s : SState) :
  pc s = Finished → steps n cfg env s = s.
Proof.
  intros H. induction n as [|n IH]; simpl; [done|]. by rewrite step_Finished.
Qed.

Lemma steps_fixpoint (cfg : Config) (env : Env) (n : nat) (s : SState) :
  step cfg env s = s → steps n cfg env s = s.
Proof. intros H. induction n as [|n IH]; simpl; [done|]. by rewrite H. Qed.

(** Enough fuel gives the result. *)
Lemma run_steps (cfg : Config) (env : Env) (n : nat) : ∀ s,
  pc (steps n cfg env s) = Finished →
  run n cfg env s = Some (steps n cfg env s).
Proof.
  induction n as [|n IH]; intros s Hfin; simpl in *.
  - by rewrite Hfin.
  - destruct (pc s) eqn:Hpc; try by apply IH.
    rewrite step_Finished in * by done. by rewrite steps_Finished.
Qed.

(** A coordinator that never reaches [return] gives no result, whatever the
    fuel. *)
Lemma run_never (cfg : Config) (env : Env) (fuel : nat) : ∀ s,
  (∀ n, pc (steps n cfg env s) ≠ Finished) → run fuel cfg env s = None.
Proof.
  induction fuel as [|fuel IH]; intros s Hn.
  - specialize (Hn 0). simpl in *. by destruct (pc s).
  - pose proof (Hn 0) as H0. simpl in *. destruct (pc s); try done;
      apply IH; intros n; apply (Hn (S n)).
Qed.

(** Once a state repeats itself, every later state is that state. *)
Lemma steps_eventually (cfg : Config) (env : Env) (k n : nat) (s : SState) :
  step cfg env (steps k cfg env s) = steps k cfg env s →
  k ≤ n → steps n cfg env s = steps k cfg env s.
Proof.
  intros Hfix Hle. replace n with (k + (n - k)) by lia.
  rewrite steps_plus. by apply steps_fixpoint.
Qed.

Lemma unfinished_for_spec (cfg : Config) (env : Env) (k : nat) : ∀ s n,
  unfinished_for k cfg env s = true → n < k → pc (steps n cfg env s) ≠ Finished.
Proof.
  induction k as [|k IH]; intros s n Hk Hn; [lia|].
  simpl in Hk. apply andb_true_iff in Hk as [Hhd Htl].
  destruct n as [|n]; simpl.
  - apply negb_true_iff, bool_decide_eq_false in Hhd. done.
  - apply IH; [done|lia].
Qed.

(** C2, the code at the failing input.  One slot, an alt-text Job (job-0)
    that depends on the page language and the language Job (job-1), every
    worker call timing out: the language Job fails once its retries are used
    up, after which the coordinator requeues the dependent Job for ever.
    [executeJobs] never returns, and the dependent Job never gets a result. *)
Theorem executeJobs_unmet_dependency_never_returns :
  resolveDependencies batch_lang_alt = Some queue_lang_alt ∧
  (∀ fuel, executeJobs fuel cfg_serial env_always_rejects batch_lang_alt = None) ∧
  (∀ n, no_result_for "job-0"
          (steps n cfg_serial env_always_rejects
             (initial batch_lang_alt queue_lang_alt)) = true) ∧
  (∀ n, results (steps (17 + n) cfg_serial env_always_rejects
                         (initial batch_lang_alt queue_lang_alt))
        = [failed_result "job-1"
             "Job execution failed after 60000ms: Job timed out after 60000ms"]).
Proof.
  set (s0 := initial batch_lang_alt queue_lang_alt).
  assert (Hres : resolveDependencies batch_lang_alt = Some queue_lang_alt)
    by (vm_compute; reflexivity).
  assert (Hfix : step cfg_serial env_always_rejects
                   (steps 17 cfg_serial env_always_rejects s0)
                 = steps 17 cfg_serial env_always_rejects s0)
    by (vm_compute; reflexivity).
  assert (Hlate : ∀ n, 17 ≤ n →
            steps n cfg_serial env_always_rejects s0
            = steps 17 cfg_serial env_always_rejects s0).
  { intros n Hn. by apply steps_eventually. }
  assert (Hpc : ∀ n, pc (steps n cfg_serial env_always_rejects s0) ≠ Finished).
  { intros n. destruct (decide (n < 17)) as [Hlt|Hge].
    - apply (unfinished_for_spec _ _ 17); [vm_compute; reflexivity|done].
    - rewrite Hlate by lia. vm_compute. discriminate. }
  split_and!.
  - done.
  - intros fuel. unfold executeJobs. rewrite Hres. fold s0.
    by rewrite run_never.
  - intros n. destruct (decide (n < 17)) as [Hlt|Hge].
    + do 17 (destruct n as [|n]; [vm_compute; reflexivity|]). lia.
    + rewrite Hlate by lia. vm_compute. reflexivity.
  - intros n. rewrite Hlate by lia. vm_compute. reflexivity.
Qed.

(** The same batch under the default configuration, every worker call
    succeeding.  The language Job is dispatched; the dependent Job is then
    requeued for ever inside the inner loop, which never gets to await the
    completion of the first: no result is ever recorded. *)
Lemma executeJobs_default_config_never_returns :
  (∀ fuel, executeJobs fuel cfg_default env_always_fulfils batch_lang_alt = None) ∧
  (∀ n, results (steps n cfg_default env_always_fulfils
                   (initial batch_lang_alt queue_lang_alt)) = []).
Proof.
  set (s0 := initial batch_lang_alt queue_lang_alt).
  assert (Hres : resolveDependencies batch_lang_alt = Some queue_lang_alt)
    by (vm_compute; reflexivity).
  assert (Hfix : step cfg_default env_always_fulfils
                   (steps 2 cfg_default env_always_fulfils s0)
                 = steps 2 cfg_default env_always_fulfils s0)
    by (vm_compute; reflexivity).
  assert (Hlate : ∀ n, 2 ≤ n →
            steps n cfg_default env_always_fulfils s0
            = steps 2 cfg_default env_always_fulfils s0).
  { intros n Hn. by apply steps_eventually. }
  split.
  - intros fuel. unfold executeJobs. rewrite Hres. fold s0.
    rewrite run_never; [done|].
    intros n. destruct (decide (n < 2)) as [Hlt|Hge].
    + apply (unfinished_for_spec _ _ 2); [vm_compute; reflexivity|done].
    + rewrite Hlate by lia. vm_compute. discriminate.
  - intros n. destruct (decide (n < 2)) as [Hlt|Hge].
    + do 2 (destruct n as [|n]; [vm_compute; reflexivity|]). lia.
    + rewrite Hlate by lia. vm_compute. reflexivity.
Qed.

(** ** Invariants of the resolver and of the scheduler *)

(** ** The dependency resolver on arbitrary graphs *)

Lemma visit_sound (jobs : list Job) (fuel : nat) : ∀ c st,
  c ∈ jobs → resolver_sound jobs st →
  size (ids_of jobs) - size (visiting st) < fuel →
  ∃ st', visit fuel jobs c st = Some st' ∧ resolver_sound jobs st' ∧
         visiting st' = visiting st ∧ visited st ⊆ visited st' ∧
         (id c ∈ visited st' ∨ id c ∈ visiting st).
Proof.
  induction fuel as [|fuel IH]; intros c st Hc Hinv Hfuel; [lia|].
  simpl. destruct (decide (id c ∈ visiting st)) as [Hin|Hnin].
  { exists st. split_and!; try done. by right. }
  destruct (decide (id c ∈ visited st)) as [Hvis|Hnvis].
  { exists st. split_and!; try done. by left. }
  set (body := fun depType s =>
                 match find_by_type jobs depType with
                 | Some depJob => visit fuel jobs depJob s
                 | None => Some s
                 end).
  assert (Hc' : id c ∈ ids_of jobs) by (apply elem_of_ids_of; eauto).
  assert (Hsize : size (visiting st) < size (ids_of jobs)).
  { apply subset_size. split; [by destruct Hinv|].
    intros Hsup. by apply Hnin, Hsup. }
  assert (Hloop : ∀ ds s,
    resolver_sound jobs s → visiting s = visiting st ∪ {[ id c ]} →
    ∃ s', forEachM body ds s = Some s' ∧ resolver_sound jobs s' ∧
          visiting s' = visiting s ∧ visited s ⊆ visited s').
  { induction ds as [|t ds IHds]; intros s Hs Hvs; [by exists s|].
    simpl. unfold body at 1.
    destruct (find_by_type jobs t) as [d|] eqn:Hfind; [|by apply IHds].
    apply find_by_type_Some in Hfind as [Hd _].
    destruct (IH d s Hd Hs) as (s1 & Hv & Hs1 & Hvs1 & Hmono & _).
    { rewrite Hvs, size_union by set_solver. rewrite size_singleton. lia. }
    rewrite Hv.
    destruct (IHds s1 Hs1) as (s2 & Hf & Hs2 & Hvs2 & Hmono2); [congruence|].
    exists s2. split_and!; try done; [congruence|set_solver]. }
  destruct (Hloop (dependencies c)
              (mkVState (sorted st) (visited st) (visiting st ∪ {[id c]})))
    as (s2 & Hf & Hs2 & Hvs2 & Hmono2).
  { destruct Hinv. constructor; simpl; try done; set_solver. }
  { done. }
  fold body. rewrite Hf. eexists. split; [done|]. simpl in *.
  destruct Hs2 as [Hsub2 Hvis2 Hnd2 Hdisj2 Hving2].
  split_and!; simpl.
  - constructor; simpl.
    + intros j Hj. apply elem_of_app in Hj as [Hj|Hj]; [by apply Hsub2|].
      apply list_elem_of_singleton in Hj. by subst.
    + rewrite ids_of_snoc. by rewrite Hvis2.
    + rewrite fmap_app. apply NoDup_app. split; [done|]. split.
      * intros x Hx Hx'. simpl in Hx'. apply list_elem_of_singleton in Hx'. subst x.
        assert (id c ∈ visited s2).
        { rewrite Hvis2. unfold ids_of. by apply elem_of_list_to_set. }
        set_solver.
      * simpl. apply NoDup_singleton.
    + set_solver.
    + set_solver.
  - set_solver.
  - set_solver.
  - left. set_solver.
Qed.

Lemma visit_top_sound (jobs ds : list Job) : ∀ s,
  (∀ j, j ∈ ds → j ∈ jobs) → resolver_sound jobs s → visiting s = ∅ →
  ∃ s', forEachM (visit_top (S (length jobs)) jobs) ds s = Some s' ∧
        resolver_sound jobs s' ∧ visiting s' = ∅ ∧ visited s ⊆ visited s' ∧
        ∀ j, j ∈ ds → id j ∈ visited s'.
Proof.
  induction ds as [|c ds IHds]; intros s Hds Hs Hvs.
  - exists s. simpl. split_and!; try done. intros j Hj. by apply elem_of_nil in Hj.
  - simpl. unfold visit_top at 1.
    destruct (decide (id c ∈ visited s)) as [Hin|Hnin].
    + destruct (IHds s) as (s2 & Hf & Hs2 & Hvs2 & Hmono2 & Hdv2); try done.
      { intros j Hj. apply Hds. by right. }
      exists s2. split_and!; try done.
      intros j Hj. apply elem_of_cons in Hj as [->|Hj]; [set_solver|by apply Hdv2].
    + destruct (visit_sound jobs (S (length jobs)) c s) as (s1 & Hv & Hs1 & Hvs1 & Hmono & Hdv).
      { apply Hds. by left. }
      { done. }
      { pose proof (ids_of_size jobs). lia. }
      rewrite Hv.
      destruct (IHds s1) as (s2 & Hf & Hs2 & Hvs2 & Hmono2 & Hdv2); try congruence.
      { intros j Hj. apply Hds. by right. }
      exists s2. split_and!; try done; [set_solver|].
      intros j Hj. apply elem_of_cons in Hj as [->|Hj]; [|by apply Hdv2].
      destruct Hdv as [Hdv|Hdv]; set_solver.
Qed.

(** On every input, with or without circular dependencies,
    [resolveDependencies] returns Jobs of the input, one for each identifier
    of the input and no identifier twice. *)
Lemma resolveDependencies_sound (jobs : list Job) :
  ∃ out, resolveDependencies jobs = Some out ∧
         (∀ j, j ∈ out → j ∈ jobs) ∧
         NoDup (id <$> out) ∧
         (∀ j, j ∈ jobs → id j ∈ id <$> out).
Proof.
  destruct (visit_top_sound jobs jobs (mkVState [] ∅ ∅)) as (s & Hf & Hs & _ & _ & Hall).
  { done. }
  { constructor; simpl; try done.
    - intros j Hj. by apply elem_of_nil in Hj.
    - apply NoDup_nil_2. }
  { done. }
  exists (sorted s). unfold resolveDependencies, resolveDependencies_fuel.
  rewrite Hf. split; [done|]. destruct Hs as [Hsub Hvis Hnd _ _].
  split_and!; [done|done|].
  intros j Hj. specialize (Hall j Hj). rewrite Hvis in Hall.
  unfold ids_of in Hall. by apply elem_of_list_to_set in Hall.
Qed.

Lemma resolveDependencies_length (jobs out : list Job) :
  resolveDependencies jobs = Some out → length out ≤ length jobs.
Proof.
  intros Hout. destruct (resolveDependencies_sound jobs) as (out' & Hout' & Hsub & Hnd & _).
  rewrite Hout in Hout'. injection Hout' as <-.
  rewrite <- (length_fmap id out), <- (length_fmap id jobs).
  apply submseteq_length, NoDup_submseteq; [done|].
  intros x Hx. apply list_elem_of_fmap in Hx as (j & -> & Hj).
  apply list_elem_of_fmap_2. by apply Hsub.
Qed.

Lemma resolveDependencies_keeps_every_job_aux (jobs : list Job) :
  NoDup (id <$> jobs) →
  ∃ out, resolveDependencies jobs = Some out ∧ out ≡ₚ jobs.
Proof.
  intros Hids.
  destruct (resolveDependencies_sound jobs) as (out & Hout & Hsub & Hnd & Hall).
  exists out. split; [done|].
  apply NoDup_Permutation.
  - by eapply NoDup_fmap_1.
  - by eapply NoDup_fmap_1.
  - intros j. split; [by apply Hsub|].
    intros Hj. specialize (Hall j Hj).
    apply list_elem_of_fmap in Hall as (j' & Hid & Hj').
    by rewrite (NoDup_fmap_inj id jobs j j' Hids Hj (Hsub _ Hj') Hid).
Qed.

(** ** The scheduler: batches without dependencies run to completion *)

Lemma executeJob_Fulfilled cfg job raced processingTime result :
  executeJob cfg job raced processingTime = Fulfilled result →
  ∃ remediations,
    raced = AgentResolved remediations ∧
    result = mkJobResult (id job) (Some (type job)) success None remediations.
Proof. destruct raced; intros [= <-]. by eexists. Qed.

Lemma executeJob_Rejected cfg job raced processingTime message :
  executeJob cfg job raced processingTime = Rejected message →
  failing (raced, processingTime) ∧
  message = failure_message processingTime
              match raced with
              | AgentRejected m => m
              | _ => timeout_message cfg
              end.
Proof. destruct raced; intros [= <-]; done. Qed.

Lemma retries_left_alter_status (jobs : list Job) (r : nat) (st : JobStatus) :
  retries_left (alter (set_status st) r jobs) = retries_left jobs.
Proof.
  unfold alter. revert r. induction jobs as [|j jobs IH]; intros r; [done|].
  destruct r as [|r]; simpl; [done|]. by rewrite IH.
Qed.

Lemma retries_left_retry (jobs : list Job) (i : nat) (job : Job) :
  jobs !! i = Some job → attempts job < maxAttempts job →
  S (retries_left (<[ i := retry_job job ]> jobs)) = retries_left jobs.
Proof.
  revert i. induction jobs as [|j jobs IH]; intros i Hi Hlt; [done|].
  destruct i as [|i]; simpl in *.
  - injection Hi as ->. lia.
  - rewrite <- (IH i Hi Hlt). lia.
Qed.

Lemma map_set_nonempty {V : Type} (k : string) (v : V) (m : list (string * V)) :
  map_set k v m ≠ [].
Proof. destruct m as [|[k' v'] m]; simpl; [done|]. by destruct (decide (k' = k)). Qed.

Lemma map_set_Forall {V : Type} (P : string * V → Prop) k v (m : list (string * V)) :
  P (k, v) → Forall P m → Forall P (map_set k v m).
Proof.
  intros Hkv. induction 1 as [|[k' v'] m Hx Hm IH]; simpl.
  - by apply Forall_singleton.
  - destruct (decide (k' = k)); apply Forall_cons; by split.
Qed.

Lemma map_delete_Forall {V : Type} (P : string * V → Prop) k (m : list (string * V)) :
  Forall P m → Forall P (map_delete k m).
Proof.
  induction 1 as [|[k' v'] m Hx Hm IH]; simpl; [done|].
  destruct (decide (k' = k)); [done|]. apply Forall_cons; by split.
Qed.

Lemma map_delete_present {V : Type} (k : string) (v : V) (m : list (string * V)) :
  (k, v) ∈ m → S (length (map_delete k m)) = length m.
Proof.
  induction m as [|[k' v'] m IH]; intros Hin; [by apply elem_of_nil in Hin|].
  simpl. destruct (decide (k' = k)) as [->|Hne]; [done|].
  apply elem_of_cons in Hin as [[=]|Hin]; [congruence|].
  simpl. by rewrite IH.
Qed.

Lemma dependenciesMet_no_deps (job : Job) (completed : list JobResult) :
  dependencies job = [] → dependenciesMet job completed = true.
Proof. intros H. unfold dependenciesMet. by rewrite H. Qed.

Section free_running.
Variable cfg : Config.
Variable env : Env.
Hypothesis slot : 0 < maxConcurrency cfg.

Lemma Forall_store_alter (P : Job → Prop) (f : Job → Job) (r : nat) (jobs : list Job) :
  (∀ j, P j → P (f j)) → Forall P jobs → Forall P (alter f r jobs).
Proof.
  intros Hf. unfold alter. revert r.
  induction jobs as [|j jobs IH]; intros r Hall; [done|].
  apply Forall_cons in Hall as [Hj Hall].
  destruct r as [|r]; simpl; apply Forall_cons; split; auto.
Qed.

(** A step keeps the coordinator free running and uses up one of the steps
    it has left. *)
Lemma step_free_running (s : SState) :
  free_running s → pc s ≠ Finished →
  free_running (step cfg env s) ∧ steps_left (step cfg env s) < steps_left s.
Proof.
  intros [Hq Hp Hdeps Hinner Hrace] Hpc. unfold step.
  destruct (pc s) eqn:Hloc; [| | |done].
  - (* outer test *)
    destruct (jobQueue s) as [|r q] eqn:Hqueue;
      [destruct (processing s) as [|kr p] eqn:Hproc|].
    + split; [|unfold steps_left; simpl; rewrite Hloc; simpl; lia].
      constructor; simpl; rewrite ?Hqueue, ?Hproc; done.
    + split; [|unfold steps_left; simpl; rewrite Hloc; simpl; lia].
      constructor; simpl; rewrite ?Hqueue, ?Hproc; try done. intros _. by right.
    + split; [|unfold steps_left; simpl; rewrite Hloc; simpl; lia].
      constructor; simpl; rewrite ?Hqueue; try done. intros _. by left.
  - (* inner test *)
    destruct (jobQueue s) as [|r q] eqn:Hqueue.
    { split; [|unfold steps_left; simpl; rewrite Hloc, Hqueue; simpl; lia].
      constructor; simpl; rewrite ?Hqueue; try done.
      intros _. destruct (Hinner eq_refl); done. }
    destruct (decide (length (processing s) < maxConcurrency cfg)) as [Hlt|Hge].
    2:{ split; [|unfold steps_left; simpl; rewrite Hloc, Hqueue; simpl; lia].
        constructor; simpl; rewrite ?Hqueue; try done.
        intros _ Hnil. rewrite Hnil in Hge. simpl in Hge. lia. }
    apply Forall_cons in Hq as [Hr Hq].
    destruct (store s !! r) as [job|] eqn:Hjob;
      [|apply lookup_ge_None in Hjob; lia].
    unfold inner_iteration.
    rewrite dependenciesMet_no_deps
      by (rewrite Forall_forall in Hdeps; apply Hdeps; by eapply list_elem_of_lookup_2).
    split.
    + constructor; simpl.
      * by rewrite length_alter.
      * rewrite length_alter. by apply map_set_Forall.
      * by apply Forall_store_alter.
      * intros _. right. apply map_set_nonempty.
      * done.
    + unfold steps_left. simpl. rewrite Hloc, Hqueue, retries_left_alter_status. simpl.
      pose proof (map_set_length (id job) r (processing s)). lia.
  - (* the race *)
    destruct (processing s) as [|kr0 p0] eqn:Hproc; [by destruct Hrace|].
    rewrite <- Hproc in *. clear kr0 p0 Hproc.
    unfold handle_completion, completing.
    destruct (env (completedCount s)) as [[choice raced] processingTime].
    assert (Hlen : 0 < length (processing s)).
    { destruct (processing s); [by destruct Hrace|simpl; lia]. }
    destruct (processing s !! (choice mod length (processing s)))
      as [[completed_jobId r]|] eqn:Hpick.
    2:{ apply lookup_ge_None in Hpick.
        pose proof (Nat.mod_upper_bound choice (length (processing s))). lia. }
    apply list_elem_of_lookup_2 in Hpick as Hin.
    pose proof (map_delete_present _ _ _ Hin) as Hdel.
    pose proof (map_delete_Forall _ completed_jobId _ Hp) as Hp'.
    rewrite Forall_forall in Hp. specialize (Hp _ Hin). simpl in Hp.
    destruct (store s !! r) as [running|] eqn:Hrun;
      [|apply lookup_ge_None in Hrun; lia].
    destruct (executeJob cfg running raced processingTime) as [result|message]; simpl.
    + split; [by constructor|].
      unfold steps_left. simpl. rewrite Hloc. simpl. lia.
    + destruct (list_find (fun j => id j = completed_jobId) (store s))
        as [[i job]|] eqn:Hfind.
      2:{ split; [by constructor|].
          unfold steps_left. simpl. rewrite Hloc. simpl. lia. }
      apply list_find_Some in Hfind as (Hi & _ & _).
      destruct (decide (attempts job < maxAttempts job)) as [Hlt|Hge].
      * split.
        -- constructor; simpl; rewrite ?length_insert; try done.
           ++ apply Forall_cons. split; [by eapply lookup_lt_Some|done].
           ++ apply Forall_insert; [done|].
              rewrite Forall_forall in Hdeps. apply (Hdeps job).
              by eapply list_elem_of_lookup_2.
        -- unfold steps_left. simpl. rewrite Hloc. simpl.
           pose proof (retries_left_retry _ _ _ Hi Hlt). lia.
      * split; [by constructor|].
        unfold steps_left. simpl. rewrite Hloc. simpl. lia.
Qed.

Lemma free_running_finishes (n : nat) : ∀ s,
  free_running s → steps_left s ≤ n → pc (steps n cfg env s) = Finished.
Proof.
  induction n as [|n IH]; intros s Hs Hn.
  - simpl. destruct (pc s) eqn:Hloc; try done;
      unfold steps_left in Hn; rewrite Hloc in Hn; simpl in Hn; try lia.
    destruct Hs as [_ _ _ _ Hrace]. specialize (Hrace Hloc).
    destruct (processing s); [done|simpl in Hn; lia].
  - simpl. destruct (decide (pc s = Finished)) as [Hfin|Hnf].
    + rewrite step_Finished by done. by rewrite steps_Finished.
    + destruct (step_free_running s Hs Hnf) as [Hs' Hlt].
      apply IH; [done|lia].
Qed.
End free_running.

Lemma ref_of_Some (jobs : list Job) (job : Job) (r : nat) :
  ref_of jobs job = Some r → jobs !! r = Some job.
Proof.
  unfold ref_of. destruct (list_find _ jobs) as [[i x]|] eqn:Hfind; [|done].
  simpl. intros [= <-]. apply list_find_Some in Hfind as (Hi & Hx & _). by subst.
Qed.

Lemma length_omap_le {A B : Type} (f : A → option B) (l : list A) :
  length (omap f l) ≤ length l.
Proof.
  induction l as [|x l IH]; csimpl; [done|]. destruct (f x); csimpl; lia.
Qed.

Lemma ref_of_elem (jobs : list Job) (job : Job) :
  job ∈ jobs → ∃ r, ref_of jobs job = Some r.
Proof.
  intros Hin. unfold ref_of.
  destruct (list_find_elem_of (fun j => j = job) jobs job Hin eq_refl) as [[i x] ->].
  by exists i.
Qed.

Lemma initial_free_running (jobs queue : list Job) :
  Forall (fun j => dependencies j = []) jobs →
  free_running (initial jobs queue).
Proof.
  intros Hdeps. constructor; simpl; try done.
  apply Forall_forall. intros r Hr.
  apply list_elem_of_omap in Hr as (j & _ & Hj).
  apply ref_of_Some in Hj. by eapply lookup_lt_Some.
Qed.

Lemma run_without_dependencies
    (cfg : Config) (env : Env) (jobs queue : list Job) :
  0 < maxConcurrency cfg →
  Forall (fun j => dependencies j = []) jobs →
  length queue ≤ length jobs →
  is_Some (run (6 * retries_left jobs + 9 * length jobs + 2) cfg env (initial jobs queue)).
Proof.
  intros Hslot Hdeps Hlen.
  rewrite run_steps; [by eexists|].
  apply free_running_finishes; [done|by apply initial_free_running|].
  unfold steps_left. simpl.
  pose proof (length_omap_le (ref_of jobs) queue) as Hle.
  lia.
Qed.

(** ** The scheduler: what it writes to the Jobs *)

Lemma static_part_alter (jobs : list Job) (r : nat) (st : JobStatus) :
  static_part <$> alter (set_status st) r jobs = static_part <$> jobs.
Proof.
  rewrite (list_fmap_alter static_part (set_status st) (fun j => j))
    by (by apply Forall_forall).
  unfold alter. generalize (static_part <$> jobs). clear. intros l. revert r.
  induction l as [|x l IH]; intros [|r]; simpl; try done. by rewrite IH.
Qed.

Lemma static_part_retry (jobs : list Job) (i : nat) (job : Job) :
  jobs !! i = Some job →
  static_part <$> <[ i := retry_job job ]> jobs = static_part <$> jobs.
Proof.
  intros Hi. rewrite list_fmap_insert. apply list_insert_id.
  by rewrite list_lookup_fmap, Hi.
Qed.

(** A step changes nothing of a Job but its status and its counter. *)
Lemma step_static (cfg : Config) (env : Env) (s : SState) :
  static_part <$> store (step cfg env s) = static_part <$> store s.
Proof.
  unfold step. destruct (pc s); try done.
  - by destruct (jobQueue s), (processing s).
  - destruct (jobQueue s) as [|r queue']; [done|].
    destruct (decide (length (processing s) < maxConcurrency cfg)); [|done].
    destruct (store s !! r) as [job|]; [|done].
    unfold inner_iteration. destruct (dependenciesMet job (results s)); simpl; [|done].
    apply static_part_alter.
  - destruct (processing s) eqn:Hp; [done|]. clear Hp.
    unfold handle_completion, completing.
    destruct (env (completedCount s)) as [[choice raced] processingTime].
    destruct (processing s !! (choice mod length (processing s)))
      as [[completed_jobId r]|]; [|done].
    destruct (store s !! r) as [running|]; [|done].
    destruct (executeJob cfg running raced processingTime) as [result|message];
      simpl; [done|].
    destruct (list_find _ (store s)) as [[i job]|] eqn:Hfind; [|done].
    apply list_find_Some in Hfind as (Hi & _ & _).
    destruct (decide (attempts job < maxAttempts job)); simpl; [|done].
    by apply static_part_retry.
Qed.

Lemma steps_static (cfg : Config) (env : Env) (n : nat) : ∀ s,
  static_part <$> store (steps n cfg env s) = static_part <$> store s.
Proof.
  induction n as [|n IH]; intros s; simpl; [done|]. by rewrite IH, step_static.
Qed.

Lemma step_attempts_bounded (cfg : Config) (env : Env) (s : SState) :
  attempts_bounded (store s) → attempts_bounded (store (step cfg env s)).
Proof.
  unfold attempts_bounded. intros Hb. unfold step. destruct (pc s); try done.
  - by destruct (jobQueue s), (processing s).
  - destruct (jobQueue s) as [|r queue']; [done|].
    destruct (decide (length (processing s) < maxConcurrency cfg)); [|done].
    destruct (store s !! r) as [job|]; [|done].
    unfold inner_iteration. destruct (dependenciesMet job (results s)); simpl; [|done].
    by apply Forall_alter.
  - destruct (processing s) eqn:Hp; [done|]. clear Hp.
    unfold handle_completion, completing.
    destruct (env (completedCount s)) as [[choice raced] processingTime].
    destruct (processing s !! (choice mod length (processing s)))
      as [[completed_jobId r]|]; [|done].
    destruct (store s !! r) as [running|]; [|done].
    destruct (executeJob cfg running raced processingTime) as [result|message];
      simpl; [done|].
    destruct (list_find _ (store s)) as [[i job]|] eqn:Hfind; [|done].
    destruct (decide (attempts job < maxAttempts job)); simpl; [|done].
    apply Forall_insert; [done|]. simpl. lia.
Qed.

(** ** The scheduler: one result per Job *)

Lemma map_set_keys_fresh {V : Type} (k : string) (v : V) (m : list (string * V)) :
  k ∉ fst <$> m → fst <$> map_set k v m = (fst <$> m) ++ [k].
Proof.
  induction m as [|[k' v'] m IH]; intros Hk; csimpl; [done|].
  csimpl in Hk. apply not_elem_of_cons in Hk as [Hne Hk].
  rewrite decide_False by done. csimpl. by rewrite IH.
Qed.

Lemma map_delete_keys {V : Type} (k : string) (m : list (string * V)) :
  k ∈ fst <$> m → fst <$> m ≡ₚ k :: (fst <$> map_delete k m).
Proof.
  induction m as [|[k' v'] m IH]; intros Hk; csimpl in *.
  - by apply elem_of_nil in Hk.
  - destruct (decide (k' = k)) as [->|Hne]; [done|].
    apply elem_of_cons in Hk as [?|Hk]; [congruence|].
    csimpl. rewrite (IH Hk) at 1. apply Permutation_swap.
Qed.

Lemma static_part_ids (l1 l2 : list Job) :
  static_part <$> l1 = static_part <$> l2 → id <$> l1 = id <$> l2.
Proof.
  intros H. apply (f_equal (fmap id)) in H.
  by rewrite <- !list_fmap_compose in H.
Qed.

Section accounted.
Variable cfg : Config.
Variable env : Env.
Variable ids : list string.
Hypothesis ids_distinct : NoDup ids.

Lemma step_accounted (s : SState) :
  accounted ids s → accounted ids (step cfg env s).
Proof.
  intros Hacc.
  assert (Hids' : id <$> store (step cfg env s) = ids).
  { destruct Hacc as [Hids _ _ _ _]. rewrite <- Hids.
    apply static_part_ids, step_static. }
  destruct Hacc as [Hids Hrefs Hkeys Hall Hdone].
  revert Hids'. unfold step. destruct (pc s) eqn:Hloc.
  - (* outer test *)
    destruct (jobQueue s) eqn:Hq; [destruct (processing s) eqn:Hp|];
      intros Hids'; constructor; simpl; rewrite ?Hq, ?Hp; done.
  - (* inner test *)
    destruct (jobQueue s) as [|r queue'] eqn:Hq;
      [intros Hids'; constructor; simpl; rewrite ?Hq; done|].
    destruct (decide (length (processing s) < maxConcurrency cfg));
      [|intros Hids'; constructor; simpl; rewrite ?Hq; done].
    destruct (store s !! r) as [job|] eqn:Hjob;
      [|intros Hids'; constructor; simpl; rewrite ?Hq, ?Hloc; done].
    assert (Hr : ids !! r = Some (id job)).
    { by rewrite <- Hids, list_lookup_fmap, Hjob. }
    apply Forall_cons in Hrefs as [Hrlt Hrefs].
    csimpl in Hall. rewrite Hr in Hall. csimpl in Hall.
    unfold inner_iteration. destruct (dependenciesMet job (results s)); simpl;
      intros Hids'; constructor; simpl; try done.
    + by apply map_set_Forall.
    + assert (Hfresh : id job ∉ fst <$> processing s).
      { rewrite <- Hall in ids_distinct.
        apply NoDup_cons in ids_distinct as [Hnin _].
        intros Hin. apply Hnin. rewrite !elem_of_app. auto. }
      rewrite map_set_keys_fresh by done. rewrite <- Hall.
      solve_Permutation.
    + apply Forall_app. split; [done|]. by apply Forall_singleton.
    + rewrite omap_app. csimpl. rewrite Hr. csimpl.
      rewrite <- Hall. solve_Permutation.
  - (* the race *)
    destruct (processing s) as [|kr0 p0] eqn:Hproc;
      [intros Hids'; constructor; simpl; rewrite ?Hproc; done|].
    rewrite <- Hproc in *. clear kr0 p0 Hproc.
    unfold handle_completion, completing.
    destruct (env (completedCount s)) as [[choice raced] processingTime].
    destruct (processing s !! (choice mod length (processing s)))
      as [[k r]|] eqn:Hpick;
      [|intros Hids'; constructor; simpl; done].
    apply list_elem_of_lookup_2 in Hpick as Hin.
    pose proof (map_delete_Forall _ k _ Hkeys) as Hkeys'.
    assert (Hk : k ∈ fst <$> processing s).
    { apply list_elem_of_fmap. by exists (k, r). }
    pose proof (map_delete_keys k _ Hk) as Hperm.
    pose proof Hkeys as Hkeys0.
    rewrite Forall_forall in Hkeys. specialize (Hkeys _ Hin). simpl in Hkeys.
    assert (Hmoved : ∀ q,
      omap (fun r => ids !! r) q ++ (fst <$> map_delete k (processing s))
        ++ (res_jobId <$> results s) ++ [k]
      ≡ₚ omap (fun r => ids !! r) q ++ (fst <$> processing s)
        ++ (res_jobId <$> results s)).
    { intros q. rewrite Hperm. solve_Permutation. }
    destruct (store s !! r) as [running|] eqn:Hrun;
      [|intros Hids'; constructor; simpl; done].
    assert (Hrunning : id running = k).
    { rewrite <- Hids, list_lookup_fmap, Hrun in Hkeys. by injection Hkeys. }
    destruct (executeJob cfg running raced processingTime) as [result|message] eqn:Hexec;
      simpl.
    + apply executeJob_Fulfilled in Hexec as (remediations & _ & ->).
      intros Hids'. constructor; simpl; try done.
      rewrite fmap_app. simpl. rewrite Hrunning, Hmoved. done.
    + destruct (list_find (fun j => id j = k) (store s)) as [[i job]|] eqn:Hfind.
      2:{ intros Hids'. constructor; simpl; try done.
          rewrite fmap_app. simpl. by rewrite Hmoved. }
      apply list_find_Some in Hfind as (Hi & Hidk & _).
      assert (Hik : ids !! i = Some k).
      { by rewrite <- Hids, list_lookup_fmap, Hi, <- Hidk. }
      destruct (decide (attempts job < maxAttempts job)); simpl.
      * intros Hids'. constructor; simpl; try done.
        -- apply Forall_cons. split; [by eapply lookup_lt_Some|done].
        -- csimpl. rewrite Hik. csimpl. rewrite <- Hall, Hperm.
           solve_Permutation.
      * intros Hids'. constructor; simpl; try done.
        rewrite fmap_app. simpl. by rewrite Hmoved.
  - intros _. constructor; try done. intros _. by apply Hdone.
Qed.

Lemma steps_accounted (n : nat) : ∀ s,
  accounted ids s → accounted ids (steps n cfg env s).
Proof.
  induction n as [|n IH]; intros s Hs; simpl; [done|].
  by apply IH, step_accounted.
Qed.
End accounted.

Lemma run_Some_steps (cfg : Config) (env : Env) (fuel : nat) : ∀ s s',
  run fuel cfg env s = Some s' →
  ∃ n, s' = steps n cfg env s ∧ pc s' = Finished.
Proof.
  induction fuel as [|fuel IH]; intros s s' Hrun; simpl in Hrun.
  - destruct (pc s) eqn:Hloc; try done. injection Hrun as <-. by exists 0.
  - destruct (pc s) eqn:Hloc;
      try (destruct (IH _ _ Hrun) as (n & -> & Hfin); by exists (S n)).
    injection Hrun as <-. by exists 0.
Qed.

Lemma queue_ids (jobs queue : list Job) :
  (∀ j, j ∈ queue → j ∈ jobs) →
  omap (fun r => (id <$> jobs) !! r) (omap (ref_of jobs) queue) = id <$> queue.
Proof.
  induction queue as [|j queue IH]; intros Hsub; [done|].
  destruct (ref_of_elem jobs j) as [r Hr]; [apply Hsub; by left|].
  csimpl. rewrite Hr. csimpl.
  rewrite list_lookup_fmap, (ref_of_Some _ _ _ Hr). csimpl.
  rewrite IH; [done|]. intros j' Hj'. apply Hsub. by right.
Qed.

Lemma initial_accounted (jobs queue : list Job) :
  queue ≡ₚ jobs → accounted (id <$> jobs) (initial jobs queue).
Proof.
  intros Hperm. constructor; simpl; try done.
  - apply Forall_forall. intros r Hr.
    apply list_elem_of_omap in Hr as (j & _ & Hj).
    apply ref_of_Some in Hj. rewrite length_fmap. by eapply lookup_lt_Some.
  - rewrite !app_nil_r, queue_ids; [by rewrite Hperm|].
    intros j Hj. by rewrite <- Hperm.
Qed.

Lemma static_part_types (l1 l2 : list Job) :
  static_part <$> l1 = static_part <$> l2 → type <$> l1 = type <$> l2.
Proof.
  intros H. apply (f_equal (fmap type)) in H.
  by rewrite <- !list_fmap_compose in H.
Qed.

Lemma static_part_lookup (l1 l2 : list Job) (r : nat) (job : Job) :
  static_part <$> l1 = static_part <$> l2 → l1 !! r = Some job →
  ∃ j, l2 !! r = Some j ∧ static_part j = static_part job.
Proof.
  intros H Hr. apply (f_equal (fun l => l !! r)) in H.
  rewrite !list_lookup_fmap, Hr in H.
  destruct (l2 !! r) as [j|]; [|done]. exists j. split; [done|].
  cbn [fmap option_fmap option_map] in H. congruence.
Qed.

Lemma createJob_id (cfg : Config) (i : nat) (p : Prepared) :
  id (createJob cfg i p) = "job-" +:+ pretty i.
Proof. done. Qed.

Lemma job_id_inj (i j : nat) :
  "job-" +:+ pretty i = "job-" +:+ pretty j → i = j.
Proof.
  intros H.
  change ("job-" +:+ pretty i)
    with (String "j" (String "o" (String "b" (String "-" (pretty i))))) in H.
  change ("job-" +:+ pretty j)
    with (String "j" (String "o" (String "b" (String "-" (pretty j))))) in H.
  injection H as H. by apply (inj pretty) in H.
Qed.

Lemma createJobs_ids_distinct (cfg : Config) (processedIssues : list Prepared) :
  NoDup (id <$> createJobs cfg processedIssues).
Proof.
  apply NoDup_alt. intros i j x Hi Hj.
  unfold createJobs in *.
  rewrite list_lookup_fmap, list_lookup_imap in Hi, Hj.
  destruct (processedIssues !! i) as [pi|]; [|done].
  destruct (processedIssues !! j) as [pj|]; [|done].
  cbn [fmap option_fmap option_map] in Hi, Hj.
  rewrite createJob_id in Hi, Hj. injection Hi as <-.
  apply (inj Some) in Hj. symmetry. by apply job_id_inj.
Qed.

Lemma steps_attempts_bounded (cfg : Config) (env : Env) (n : nat) : ∀ s,
  attempts_bounded (store s) → attempts_bounded (store (steps n cfg env s)).
Proof.
  induction n as [|n IH]; intros s Hs; simpl; [done|].
  by apply IH, step_attempts_bounded.
Qed.
(** ** The scheduler: the calls and the result of a Job *)

Lemma list_find_id (jobs : list Job) (r : nat) (job : Job) :
  NoDup (id <$> jobs) → jobs !! r = Some job →
  list_find (fun j => id j = id job) jobs = Some (r, job).
Proof.
  intros Hnd Hr. apply list_find_Some. split_and!; [done|done|].
  intros i j Hi Hlt Hid.
  assert (i = r); [|lia].
  eapply NoDup_lookup; [exact Hnd| |].
  - by rewrite list_lookup_fmap, Hi.
  - rewrite list_lookup_fmap, Hr. simpl. by rewrite Hid.
Qed.

Lemma traced_step_races cfg env drain (t : Traced) :
  races (traced_step cfg env drain t)
  = races t ++ match handed_over env (sched t) with
               | Some call => [call]
               | None => []
               end.
Proof.
  unfold traced_step. destruct (handed_over env (sched t)); simpl; [done|].
  by rewrite app_nil_r.
Qed.

(** A step that hands no race over records no result and leaves the
    counters of the Jobs alone. *)
Lemma step_quiet (cfg : Config) (env : Env) (s : SState) :
  handed_over env s = None →
  results (step cfg env s) = results s ∧
  attempts <$> store (step cfg env s) = attempts <$> store s.
Proof.
  unfold handed_over, step. destruct (pc s); try done.
  - intros _. by destruct (jobQueue s), (processing s).
  - intros _. destruct (jobQueue s) as [|r queue']; [done|].
    destruct (decide (length (processing s) < maxConcurrency cfg)); [|done].
    destruct (store s !! r) as [job|]; [|done].
    unfold inner_iteration. destruct (dependenciesMet job (results s)); simpl; [|done].
    split; [done|].
    rewrite (list_fmap_alter attempts (set_status processing_st) (fun a => a))
      by (by apply Forall_forall).
    by apply list_alter_id.
  - destruct (completing env s) as [[[[k running] raced] processingTime]|] eqn:Hc; [done|].
    intros _. destruct (processing s); [done|].
    unfold handle_completion. by rewrite Hc.
Qed.

(** What handing a race over does, in a batch with distinct identifiers. *)
Lemma step_completion (cfg : Config) (env : Env) (ids : list string) (s : SState)
    k running raced processingTime :
  NoDup ids → accounted ids s → pc s = AtRace →
  completing env s = Some (k, running, raced, processingTime) →
  ∃ r, store s !! r = Some running ∧ id running = k ∧ ids !! r = Some k ∧
       (k ∉ res_jobId <$> results s) ∧
       match executeJob cfg running raced processingTime with
       | Fulfilled result =>
           store (step cfg env s) = store s ∧
           results (step cfg env s) = results s ++ [result]
       | Rejected message =>
           if decide (attempts running < maxAttempts running)
           then store (step cfg env s) = <[r := retry_job running]> (store s) ∧
                results (step cfg env s) = results s
           else store (step cfg env s) = store s ∧
                results (step cfg env s) = results s ++ [failed_result k message]
       end.
Proof.
  intros Hnd [Hids Hrefs Hkeys Hall Hdone] Hloc Hc.
  pose proof Hc as Hc0. unfold completing in Hc.
  destruct (env (completedCount s)) as [[choice raced'] processingTime'].
  destruct (processing s !! (choice mod length (processing s))) as [[k' r]|] eqn:Hpick;
    [|done].
  destruct (store s !! r) as [running'|] eqn:Hrun; [|done].
  injection Hc as -> -> -> ->.
  apply list_elem_of_lookup_2 in Hpick as Hin.
  rewrite Forall_forall in Hkeys. specialize (Hkeys _ Hin). simpl in Hkeys.
  assert (Hrunning : id running = k).
  { rewrite <- Hids, list_lookup_fmap, Hrun in Hkeys. by injection Hkeys. }
  exists r. split_and!; [done|done|done| |].
  - rewrite <- Hall in Hnd. apply NoDup_app in Hnd as (_ & _ & Hnd).
    apply NoDup_app in Hnd as (_ & Hdisj & _). apply Hdisj.
    apply list_elem_of_fmap. by exists (k, r).
  - unfold step. rewrite Hloc.
    destruct (processing s) as [|kr p] eqn:Hproc; [by rewrite lookup_nil in Hpick|].
    unfold handle_completion. rewrite Hc0.
    destruct (executeJob cfg running raced processingTime) as [result|message]; [done|].
    rewrite <- Hrunning, (list_find_id _ r running) by (rewrite ?Hids; done).
    by destruct (decide (attempts running < maxAttempts running)).
Qed.

Lemma job_history_attempts cfg job0 job job' handed own :
  attempts job' = attempts job →
  job_history cfg job0 job handed own → job_history cfg job0 job' handed own.
Proof.
  intros Heq. unfold job_history. destruct own as [|result [|]]; [| |done].
  - by rewrite Heq.
  - intros (before & last & H1 & H2 & H3 & H4). exists before, last.
    rewrite Heq. done.
Qed.

Lemma executeJob_static cfg job job' raced processingTime :
  static_part job = static_part job' →
  executeJob cfg job raced processingTime = executeJob cfg job' raced processingTime.
Proof. intros [= Hid Hty _ _ _]. unfold executeJob. by rewrite Hid, Hty. Qed.

Section history.
Variable cfg : Config.
Variable env : Env.
Variable drain : nat → nat.
Variable jobs0 : list Job.
Hypothesis ids_distinct : NoDup (id <$> jobs0).

Lemma traced_step_history (t : Traced) :
  history_ok cfg jobs0 t → history_ok cfg jobs0 (traced_step cfg env drain t).
Proof.
  intros [Hacc Hstatic Hjobs].
  assert (Hacc' : accounted (id <$> jobs0) (step cfg env (sched t)))
    by (by apply step_accounted).
  assert (Hstatic' : static_part <$> store (step cfg env (sched t))
                     = static_part <$> jobs0) by (by rewrite step_static).
  constructor; rewrite ?sched_traced_step; [done|done|].
  intros r' job0 job' Hjob0 Hjob'.
  unfold calls_of, results_of. rewrite traced_step_races.
  destruct (static_part_lookup _ _ _ _ Hstatic' Hjob') as (j0 & Hj0 & Hsame').
  rewrite Hjob0 in Hj0. injection Hj0 as <-.
  destruct (handed_over env (sched t)) as [[[k raced] processingTime]|] eqn:Hhand.
  - (* a race is handed over *)
    unfold handed_over in Hhand. destruct (pc (sched t)) eqn:Hloc; try done.
    destruct (completing env (sched t)) as [[[[k' running] raced'] processingTime']|] eqn:Hc;
      [|done].
    injection Hhand as -> -> ->.
    destruct (step_completion cfg env _ _ _ _ _ _ ids_distinct Hacc Hloc Hc)
      as (r & Hrun & Hrunning & Hkr & Hfresh & Hstep).
    assert (Hr0 : ∃ jobr, jobs0 !! r = Some jobr ∧ id jobr = k).
    { rewrite list_lookup_fmap in Hkr. destruct (jobs0 !! r) as [jobr|]; [|done].
      exists jobr. split; [done|]. by injection Hkr. }
    destruct Hr0 as (jobr & Hjobr & Hidr).
    rewrite filter_app, fmap_app, filter_cons, filter_nil. cbn [fst snd].
    destruct (decide (k = id job0)) as [Hk|Hk].
    + (* the Job of the race *)
      assert (r' = r) as ->.
      { eapply NoDup_lookup; [exact ids_distinct| |];
          rewrite list_lookup_fmap; [by rewrite Hjob0|rewrite Hjobr; simpl; congruence]. }
      rewrite Hjobr in Hjob0. injection Hjob0 as ->.
      specialize (Hjobs r job0 running Hjobr Hrun).
      unfold calls_of, results_of in Hjobs.
      assert (Hnone : filter (fun res => res_jobId res = id job0) (results (sched t)) = []).
      { apply filter_none, Forall_forall. intros res Hres Hid. apply Hfresh.
        rewrite Hk, <- Hid. by apply list_elem_of_fmap_2. }
      rewrite Hnone in Hjobs. destruct Hjobs as [Hfailed Hattempts].
      destruct (static_part_lookup _ _ _ _ Hstatic Hrun) as (j0 & Hj0 & Hsame).
      rewrite Hjobr in Hj0. injection Hj0 as <-.
      pose proof (executeJob_static cfg running job0 raced processingTime (eq_sym Hsame))
        as Hexec.
      simpl. set (handed := _ <$> filter _ (races t)) in *.
      destruct (executeJob cfg running raced processingTime) as [result|message] eqn:Hrace.
      * destruct Hstep as [Hstore Hres]. rewrite Hres, filter_app, Hnone.
        apply executeJob_Fulfilled in Hrace as Hshape.
        destruct Hshape as (remediations & _ & ->).
        rewrite filter_cons, filter_nil. cbn [res_jobId].
        rewrite decide_True by congruence. simpl.
        exists handed, (raced, processingTime). split_and!; [done|done| |].
        -- rewrite Hstore, Hrun in Hjob'. injection Hjob' as <-. done.
        -- cbn [fst snd]. by rewrite <- Hexec.
      * destruct (decide (attempts running < maxAttempts running)) as [Hlt|Hge].
        -- destruct Hstep as [Hstore Hres]. rewrite Hres, Hnone.
           rewrite Hstore, list_lookup_insert_eq in Hjob'
             by (by eapply lookup_lt_Some).
           injection Hjob' as <-. simpl. split.
           ++ apply Forall_app. split; [done|]. apply Forall_singleton.
              by apply executeJob_Rejected in Hrace as [? _].
           ++ rewrite length_app. simpl. lia.
        -- destruct Hstep as [Hstore Hres]. rewrite Hres, filter_app, Hnone.
           rewrite filter_cons, filter_nil. cbn [res_jobId failed_result].
           rewrite decide_True by done. simpl.
           rewrite Hstore, Hrun in Hjob'. injection Hjob' as <-.
           exists handed, (raced, processingTime). split_and!; [done|done|done|].
           cbn [fst snd]. rewrite <- Hexec. split; [by rewrite Hk|].
           injection Hsame as _ _ _ _ ->. done.
    + (* another Job *)
      assert (Hne : r' ≠ r).
      { intros ->. rewrite Hjobr in Hjob0. injection Hjob0 as ->. done. }
      simpl. rewrite app_nil_r.
      assert (Hold : ∃ job, store (sched t) !! r' = Some job ∧ attempts job' = attempts job
                            ∧ filter (fun res => res_jobId res = id job0)
                                     (results (step cfg env (sched t)))
                              = filter (fun res => res_jobId res = id job0)
                                       (results (sched t))).
      { destruct (executeJob cfg running raced processingTime) as [result|message] eqn:Hrace.
        - destruct Hstep as [Hstore Hres]. exists job'.
          rewrite <- Hstore. split_and!; [done|done|].
          rewrite Hres, filter_app.
          apply executeJob_Fulfilled in Hrace as (remediations & _ & ->).
          rewrite filter_cons, filter_nil. cbn [res_jobId].
          rewrite decide_False by congruence. by rewrite app_nil_r.
        - destruct (decide (attempts running < maxAttempts running)).
          + destruct Hstep as [Hstore Hres]. exists job'.
            rewrite Hstore, list_lookup_insert_ne in Hjob' by done.
            by rewrite Hres.
          + destruct Hstep as [Hstore Hres]. exists job'.
            rewrite <- Hstore. split_and!; [done|done|].
            rewrite Hres, filter_app, filter_cons, filter_nil. cbn [res_jobId failed_result].
            rewrite decide_False by done. by rewrite app_nil_r. }
      destruct Hold as (job & Hjob & Hatt & ->).
      eapply job_history_attempts; [exact Hatt|]. by apply (Hjobs r').
  - (* no race is handed over *)
    rewrite app_nil_r.
    destruct (step_quiet cfg env (sched t) Hhand) as [-> Hatt].
    assert (Hold : ∃ job, store (sched t) !! r' = Some job ∧ attempts job' = attempts job).
    { apply (f_equal (fun l => l !! r')) in Hatt.
      rewrite !list_lookup_fmap, Hjob' in Hatt.
      destruct (store (sched t) !! r') as [job|]; [|done].
      exists job. split; [done|]. by injection Hatt. }
    destruct Hold as (job & Hjob & Hatt').
    eapply job_history_attempts; [exact Hatt'|]. by apply (Hjobs r').
Qed.

Lemma traced_steps_history (n : nat) : ∀ t,
  history_ok cfg jobs0 t → history_ok cfg jobs0 (traced_steps n cfg env drain t).
Proof.
  induction n as [|n IH]; intros t Ht; simpl; [done|].
  by apply IH, traced_step_history.
Qed.

Lemma initial_history (queue : list Job) :
  queue ≡ₚ jobs0 → history_ok cfg jobs0 (traced_initial jobs0 queue).
Proof.
  intros Hperm. constructor; cbn [traced_initial sched].
  - by apply initial_accounted.
  - done.
  - intros r job0 job Hjob0 Hjob. cbn [initial store] in Hjob.
    rewrite Hjob0 in Hjob. injection Hjob as <-.
    unfold calls_of, results_of. simpl. split; [done|lia].
Qed.

(** The invariant at every point of the run [executeJobs] makes. *)
Lemma run_history (queue : list Job) (n : nat) :
  resolveDependencies jobs0 = Some queue →
  history_ok cfg jobs0 (traced_steps n cfg env drain (traced_initial jobs0 queue)).
Proof.
  intros Hqueue. apply traced_steps_history, initial_history.
  destruct (resolveDependencies_keeps_every_job_aux jobs0 ids_distinct)
    as (out & Hout & Hperm).
  rewrite Hqueue in Hout. by injection Hout as ->.
Qed.
End history.

(** When the counted run has reached [return], [executeJobs] returns what
    it holds. *)
Lemma executeJobs_traced cfg env drain (jobs queue : list Job) (n : nat) :
  resolveDependencies jobs = Some queue →
  pc (sched (traced_steps n cfg env drain (traced_initial jobs queue))) = Finished →
  executeJobs n cfg env jobs
  = Some (results (sched (traced_steps n cfg env drain (traced_initial jobs queue))),
          store (sched (traced_steps n cfg env drain (traced_initial jobs queue)))).
Proof.
  intros Hqueue. rewrite sched_traced_steps. cbn [traced_initial sched].
  intros Hfin. unfold executeJobs. by rewrite Hqueue, run_steps.
Qed.

(** Every race handed over is one the environment decided. *)
Lemma traced_steps_races_env cfg env drain (P : Raced * Z → Prop) (n : nat) : ∀ t,
  (∀ k, P (snd (fst (env k)), snd (env k))) →
  Forall (fun call => P (snd (fst call), snd call)) (races t) →
  Forall (fun call => P (snd (fst call), snd call))
         (races (traced_steps n cfg env drain t)).
Proof.
  induction n as [|n IH]; intros t Henv Ht; simpl; [done|].
  apply IH; [done|]. rewrite traced_step_races. apply Forall_app. split; [done|].
  destruct (handed_over env (sched t)) as [[[k raced] processingTime]|] eqn:Hhand; [|done].
  apply Forall_singleton. cbn [fst snd].
  unfold handed_over, completing in Hhand. destruct (pc (sched t)); try done.
  specialize (Henv (completedCount (sched t))).
  destruct (env (completedCount (sched t))) as [[choice raced'] processingTime'].
  destruct (processing (sched t) !! _) as [[k' r]|]; [|done].
  destruct (store (sched t) !! r); [|done]. by injection Hhand as _ <- <-.
Qed.

(** When [executeJobs] returns, every Job has a result. *)
Lemma finished_has_result cfg env drain (jobs queue : list Job) (n : nat) (job : Job) :
  NoDup (id <$> jobs) → resolveDependencies jobs = Some queue → job ∈ jobs →
  pc (sched (traced_steps n cfg env drain (traced_initial jobs queue))) = Finished →
  results_of (id job) (sched (traced_steps n cfg env drain (traced_initial jobs queue)))
  ≠ [].
Proof.
  intros Hids Hqueue Hjob Hfin.
  destruct (run_history cfg env drain jobs Hids queue n Hqueue) as [[_ _ _ Hall Hdone] _ _].
  destruct (Hdone Hfin) as [Hq Hp]. rewrite Hq, Hp in Hall. simpl in Hall.
  assert (Hin : id job ∈ res_jobId <$> results
                  (sched (traced_steps n cfg env drain (traced_initial jobs queue)))).
  { rewrite Hall. by apply list_elem_of_fmap_2. }
  apply list_elem_of_fmap in Hin as (r & Hid & Hr).
  intros Hnone. assert (Hmem : r ∈ results_of (id job)
      (sched (traced_steps n cfg env drain (traced_initial jobs queue)))).
  { unfold results_of. by apply list_elem_of_filter. }
  rewrite Hnone in Hmem. by apply elem_of_nil in Hmem.
Qed.

(** The history of a Job of the batch, at every point of the run. *)
Lemma job_history_at cfg env drain (jobs queue : list Job) (n : nat) (job0 : Job) :
  NoDup (id <$> jobs) → resolveDependencies jobs = Some queue → job0 ∈ jobs →
  let t := traced_steps n cfg env drain (traced_initial jobs queue) in
  ∃ r job, jobs !! r = Some job0 ∧ store (sched t) !! r = Some job ∧
           static_part job = static_part job0 ∧
           job_history cfg job0 job (calls_of (id job0) t) (results_of (id job0) (sched t)).
Proof.
  intros Hids Hqueue Hjob0. cbn zeta.
  destruct (run_history cfg env drain jobs Hids queue n Hqueue) as [_ Hstatic Hjobs].
  apply list_elem_of_lookup in Hjob0 as [r Hr].
  assert (Hstore : ∃ job, store (sched (traced_steps n cfg env drain
                                          (traced_initial jobs queue))) !! r = Some job
                          ∧ static_part job = static_part job0).
  { symmetry in Hstatic.
    destruct (static_part_lookup _ _ _ _ Hstatic Hr) as (job & Hjob & Hsame).
    by exists job. }
  destruct Hstore as (job & Hjob & Hsame).
  exists r, job. split_and!; [done..|]. by apply (Hjobs r).
Qed.




Lemma step_result_shape (cfg : Config) (env : Env) (s : SState) :
  Forall result_shape (results s) →
  Forall result_shape (results (step cfg env s)).
Proof.
  intros Hres. unfold step. destruct (pc s); try done.
  - by destruct (jobQueue s), (processing s).
  - destruct (jobQueue s) as [|r queue']; [done|].
    destruct (decide (length (processing s) < maxConcurrency cfg)); [|done].
    destruct (store s !! r) as [job|]; [|done].
    unfold inner_iteration. by destruct (dependenciesMet job (results s)).
  - destruct (processing s) eqn:Hp; [done|]. clear Hp.
    unfold handle_completion, completing.
    destruct (env (completedCount s)) as [[choice raced] processingTime].
    destruct (processing s !! (choice mod length (processing s)))
      as [[completed_jobId r]|]; [|done].
    destruct (store s !! r) as [running|]; [|done].
    assert (Hfailed : ∀ message, Forall result_shape
              (results s ++ [mkJobResult completed_jobId None failed (Some message) []])).
    { intros message. apply Forall_app. split; [done|].
      apply Forall_singleton. by right. }
    destruct (executeJob cfg running raced processingTime) as [result|message] eqn:Hexec;
      simpl.
    + apply executeJob_Fulfilled in Hexec as (remediations & _ & ->).
      apply Forall_app. split; [done|]. apply Forall_singleton. by left.
    + destruct (list_find _ (store s)) as [[i job]|]; [|by apply Hfailed].
      destruct (decide (attempts job < maxAttempts job)); [done|by apply Hfailed].
Qed.

Lemma steps_result_shape (cfg : Config) (env : Env) (n : nat) : ∀ s,
  Forall result_shape (results s) →
  Forall result_shape (results (steps n cfg env s)).
Proof.
  induction n as [|n IH]; intros s Hs; simpl; [done|].
  by apply IH, step_result_shape.
Qed.

Lemma executeJob_failing cfg job (call : Raced * Z) :
  failing call →
  executeJob cfg job (fst call) (snd call) = Rejected (thrown_message cfg call).
Proof. destruct call as [[remediations|message|] processingTime]; by simpl. Qed.

(** The one result of a Job every call of which failed. *)
Lemma exhausted_job_result cfg env drain (jobs queue : list Job) (n : nat) (job : Job) :
  NoDup (id <$> jobs) → resolveDependencies jobs = Some queue → job ∈ jobs →
  Forall failing (calls_of (id job) (traced_steps n cfg env drain (traced_initial jobs queue))) →
  pc (sched (traced_steps n cfg env drain (traced_initial jobs queue))) = Finished →
  ∃ given_up,
    last (calls_of (id job) (traced_steps n cfg env drain (traced_initial jobs queue)))
    = Some given_up ∧
    results_of (id job) (sched (traced_steps n cfg env drain (traced_initial jobs queue)))
    = [failed_result (id job) (thrown_message cfg given_up)].
Proof.
  intros Hids Hqueue Hjob Hall Hfin.
  pose proof (finished_has_result cfg env drain jobs queue n job Hids Hqueue Hjob Hfin)
    as Hsome.
  destruct (job_history_at cfg env drain jobs queue n job Hids Hqueue Hjob)
    as (r & final & _ & _ & _ & Hhist).
  unfold job_history in Hhist.
  destruct (results_of (id job) _) as [|result [|]]; [done| |done].
  destruct Hhist as (before & given_up & Heq & _ & _ & Hlast).
  exists given_up. rewrite Heq in Hall |- *. split; [by rewrite last_snoc|].
  rewrite Forall_app, Forall_singleton in Hall. destruct Hall as [_ Hall].
  rewrite (executeJob_failing _ _ _ Hall) in Hlast. by destruct Hlast as [-> _].
Qed.

(** How many calls are made for a Job before it is given up: one more than
    [maxAttempts], the guard of the retry being [job.attempts <
    job.maxAttempts] with a counter that starts at 0. *)
Lemma exhausted_job_call_count cfg env drain (jobs queue : list Job) (n : nat) (job : Job) :
  NoDup (id <$> jobs) → resolveDependencies jobs = Some queue → job ∈ jobs →
  attempts_bounded jobs → attempts job = 0 →
  Forall failing (calls_of (id job) (traced_steps n cfg env drain (traced_initial jobs queue))) →
  pc (sched (traced_steps n cfg env drain (traced_initial jobs queue))) = Finished →
  length (calls_of (id job) (traced_steps n cfg env drain (traced_initial jobs queue)))
  = maxAttempts job + 1.
Proof.
  intros Hids Hqueue Hjob Hbounded Hzero Hall Hfin.
  pose proof (finished_has_result cfg env drain jobs queue n job Hids Hqueue Hjob Hfin)
    as Hsome.
  destruct (job_history_at cfg env drain jobs queue n job Hids Hqueue Hjob)
    as (r & final & _ & Hfinal & Hsame & Hhist).
  assert (Hle : attempts final ≤ maxAttempts final).
  { pose proof (steps_attempts_bounded cfg env n (initial jobs queue) Hbounded) as Hb.
    rewrite sched_traced_steps in Hfinal. cbn [traced_initial sched] in Hfinal.
    unfold attempts_bounded in Hb. rewrite Forall_forall in Hb.
    apply Hb. by eapply list_elem_of_lookup_2. }
  assert (Hmax : maxAttempts final = maxAttempts job) by (by injection Hsame).
  unfold job_history in Hhist.
  destruct (results_of (id job) _) as [|result [|]]; [done| |done].
  destruct Hhist as (before & given_up & Heq & _ & Hatt & Hlast).
  rewrite Heq in Hall |- *.
  rewrite Forall_app, Forall_singleton in Hall. destruct Hall as [_ Hall].
  rewrite (executeJob_failing _ _ _ Hall) in Hlast. destruct Hlast as [_ Hno].
  rewrite length_app. simpl. lia.
Qed.

(** C8, as amended.  In every batch a result of status failed carries an
    empty list of remediations.  A Job, in whatever batch with pairwise
    distinct identifiers, whose every worker call failed has, when [executeJobs] returns, exactly that: one result,
    failed, with the error message of the last call and no remediation; and
    when every call fails [executeJobs] does return, with such a result for
    each Job, on every batch without dependencies.  The failed placeholders,
    one per Issue, are made one level down, by [remediateIssues], when the
    processing of the issue group rejects; that call then resolves, and
    [executeJob] reports the Job as a success carrying the placeholders. *)
Theorem exhausted_job_fails_with_no_remediation
    (cfg : Config) (env : Env) (drain : nat → nat) :
  (∀ jobs queue n r,
     r ∈ results (steps n cfg env (initial jobs queue)) →
     res_status r = failed → res_remediations r = []) ∧
  (∀ jobs queue n job,
     let t := traced_steps n cfg env drain (traced_initial jobs queue) in
     NoDup (id <$> jobs) → resolveDependencies jobs = Some queue → job ∈ jobs →
     Forall failing (calls_of (id job) t) →
     pc (sched t) = Finished →
     executeJobs n cfg env jobs = Some (results (sched t), store (sched t)) ∧
     ∃ given_up,
       last (calls_of (id job) t) = Some given_up ∧
       results_of (id job) (sched t)
       = [mkJobResult (id job) None failed (Some (thrown_message cfg given_up)) []]) ∧
  (∀ jobs,
     NoDup (id <$> jobs) → 0 < maxConcurrency cfg →
     Forall (fun job => dependencies job = []) jobs →
     (∀ k, failing (snd (fst (env k)), snd (env k))) →
     ∃ results final,
       executeJobs (6 * retries_left jobs + 9 * length jobs + 2) cfg env jobs
       = Some (results, final) ∧
       res_jobId <$> results ≡ₚ id <$> jobs ∧
       Forall (fun r => ∃ message,
                 r = mkJobResult (res_jobId r) None failed (Some message) []) results) ∧
  (∀ job reason processingTime,
     let placeholders := remediateIssues (issues job) (fun _ => Rejected reason) in
     length placeholders = length (issues job) ∧
     Forall (fun r => rstatus r = failed) placeholders ∧
     ∃ result,
       executeJob cfg job (AgentResolved placeholders) processingTime = Fulfilled result ∧
       res_status result = success ∧
       res_remediations result = placeholders).
Proof.
  split_and!.
  - intros jobs queue n r Hr Hfailed.
    pose proof (steps_result_shape cfg env n (initial jobs queue)
                  (Forall_nil_2 _)) as Hshape.
    rewrite Forall_forall in Hshape.
    destruct (Hshape r Hr) as [Hs|[_ Hnil]]; [congruence|done].
  - intros jobs queue n job. cbn zeta. intros Hids Hqueue Hjob Hall Hfin.
    split; [by apply executeJobs_traced|].
    by apply exhausted_job_result.
  - intros jobs Hids Hslot Hdeps Henv.
    destruct (resolveDependencies_keeps_every_job_aux jobs Hids) as (queue & Hqueue & Hperm).
    destruct (run_without_dependencies cfg env jobs queue Hslot Hdeps) as [s Hrun].
    { by rewrite Hperm. }
    destruct (run_Some_steps _ _ _ _ _ Hrun) as (n & Hs & Hfin).
    set (t := traced_steps n cfg env drain (traced_initial jobs queue)).
    assert (Hsched : sched t = s).
    { unfold t. rewrite sched_traced_steps. by cbn [traced_initial sched]. }
    assert (Hall : res_jobId <$> results s ≡ₚ id <$> jobs).
    { destruct (run_history cfg env drain jobs Hids queue n Hqueue)
        as [[_ _ _ Hall Hdone] _ _].
      fold t in Hall, Hdone. rewrite Hsched in Hall, Hdone.
      destruct (Hdone Hfin) as [Hq Hp]. by rewrite Hq, Hp in Hall. }
    exists (results s), (store s). split_and!.
    + unfold executeJobs. by rewrite Hqueue, Hrun.
    + done.
    + apply Forall_forall. intros r Hr.
      assert (Hin : res_jobId r ∈ id <$> jobs).
      { rewrite <- Hall. by apply list_elem_of_fmap_2. }
      apply list_elem_of_fmap in Hin as (job & Hid & Hjob).
      assert (Hcalls : Forall failing (calls_of (id job) t)).
      { pose proof (traced_steps_races_env cfg env drain failing n
                      (traced_initial jobs queue) Henv (Forall_nil_2 _)) as Hraces.
        fold t in Hraces. rewrite Forall_forall in Hraces.
        unfold calls_of. apply Forall_fmap, Forall_forall.
        intros call Hcall. apply list_elem_of_filter in Hcall as [_ Hcall].
        by apply Hraces. }
      destruct (exhausted_job_result cfg env drain jobs queue n job
                  Hids Hqueue Hjob Hcalls) as (given_up & _ & Hres).
      { fold t. by rewrite Hsched. }
      fold t in Hres. rewrite Hsched in Hres.
      assert (Hmem : r ∈ results_of (id job) s).
      { unfold results_of. by apply list_elem_of_filter. }
      rewrite Hres in Hmem. apply list_elem_of_singleton in Hmem as ->.
      by eexists.
  - intros job reason processingTime. unfold remediateIssues. simpl.
    rewrite length_fmap.
    split_and!; [done| |by eexists].
    apply Forall_fmap, Forall_true. done.
Qed.

(** C8, instance.  Two alt-text Jobs, one slot, every call timing out:
    [executeJobs] returns a failed result without remediation for each. *)
Lemma exhausted_job_fails_with_no_remediation_witness :
  ∃ results final,
    executeJobs (6 * retries_left batch_two_alt + 9 * length batch_two_alt + 2)
                cfg_serial env_always_rejects batch_two_alt
    = Some (results, final) ∧
    res_jobId <$> results ≡ₚ id <$> batch_two_alt ∧
    Forall (fun r => ∃ message,
              r = mkJobResult (res_jobId r) None failed (Some message) []) results.
Proof.
  apply (proj1 (proj2 (proj2
           (exhausted_job_fails_with_no_remediation
              cfg_serial env_always_rejects drain_never)))).
  - apply createJobs_ids_distinct.
  - simpl. lia.
  - repeat constructor.
  - intros k. exact I.
Defined.

(** C8, counterexample.  Each of the two alt-text Jobs has one Issue; when
    every call times out the failed result of the second carries no
    placeholder at all. *)
Lemma exhausted_contract_fails :
  ¬ exhausted_contract cfg_serial env_always_rejects drain_never
      batch_two_alt batch_two_alt 34 (createJob cfg_serial 1 group_alt).
Proof.
  intros Hc. destruct Hc as (result & Hres & _ & Hlen).
  - apply createJobs_ids_distinct.
  - vm_compute. reflexivity.
  - unfold batch_two_alt, createJobs. simpl. apply list_elem_of_further, list_elem_of_here.
  - vm_compute. repeat constructor.
  - vm_compute. reflexivity.
  - vm_compute in Hres. injection Hres as <-. simpl in Hlen. lia.
Qed.

(** ** The conflict resolver *)

Lemma sort_insert_perm {A : Type} (after : A → A → bool) (x : A) (l : list A) :
  sort_insert after x l ≡ₚ x :: l.
Proof.
  induction l as [|y l IH]; simpl; [done|].
  destruct (after x y); [|done].
  rewrite IH. apply Permutation_swap.
Qed.

Lemma js_sort_perm {A : Type} (after : A → A → bool) (l : list A) :
  js_sort after l ≡ₚ l.
Proof.
  induction l as [|x l IH]; simpl; [done|].
  by rewrite sort_insert_perm, IH.
Qed.

Lemma head_js_sort {A : Type} (after : A → A → bool) (l : list A) :
  l ≠ [] → ∃ p, head (js_sort after l) = Some p ∧ p ∈ l.
Proof.
  intros Hne. pose proof (js_sort_perm after l) as Hperm.
  destruct (js_sort after l) as [|p l'] eqn:Hs.
  - apply Permutation_nil_l in Hperm. done.
  - exists p. split; [done|]. rewrite <- Hperm. by left.
Qed.

Lemma group_push_keys lineNum r groups (k : option Z) :
  k ∈ fst <$> group_push lineNum r groups ↔ k = lineNum ∨ k ∈ fst <$> groups.
Proof.
  induction groups as [|[k' g] groups IH]; simpl.
  - rewrite list_elem_of_singleton. split; [by left|]. intros [?|H]; [done|].
    by apply elem_of_nil in H.
  - destruct (decide (k' = lineNum)) as [->|Hne]; simpl.
    + rewrite !elem_of_cons. tauto.
    + rewrite !elem_of_cons, IH. tauto.
Qed.

Lemma group_push_ok r groups :
  rstatus r = success → groups_ok groups →
  groups_ok (group_push (lineNumber r) r groups).
Proof.
  intros Hr [Hnd Hall]. induction groups as [|[k g] groups IH]; simpl.
  - split; [apply NoDup_singleton|].
    apply Forall_singleton. split; simpl; [done|]. by apply Forall_singleton.
  - simpl in Hnd. apply NoDup_cons in Hnd as [Hk Hnd].
    apply Forall_cons in Hall as [[Hg1 Hg2] Hall]. simpl in *.
    destruct (decide (k = lineNumber r)) as [->|Hne].
    + split; simpl; [by apply NoDup_cons|].
      apply Forall_cons. split; [|done]. split; simpl.
      * by destruct g.
      * apply Forall_app. split; [done|]. by apply Forall_singleton.
    + destruct (IH Hnd Hall) as [Hnd' Hall'].
      split; simpl.
      * apply NoDup_cons. split; [|done].
        rewrite group_push_keys. intros [?|?]; done.
      * apply Forall_cons. by split.
Qed.

Lemma lineGroups_from_ok (all : list Remediation) : ∀ groups,
  groups_ok groups →
  let final := fold_left (fun groups r =>
                            if decide (rstatus r = success)
                            then group_push (lineNumber r) r groups
                            else groups) all groups in
  groups_ok final ∧
  (∀ k, k ∈ fst <$> groups → k ∈ fst <$> final) ∧
  (∀ r, r ∈ all → rstatus r = success → lineNumber r ∈ fst <$> final).
Proof.
  induction all as [|r all IH]; intros groups Hok; simpl.
  - split_and!; [done|done|]. intros r Hr. by apply elem_of_nil in Hr.
  - destruct (decide (rstatus r = success)) as [Hs|Hs].
    + destruct (IH (group_push (lineNumber r) r groups)) as (H1 & H2 & H3).
      { by apply group_push_ok. }
      split_and!; [done| |].
      * intros k Hk. apply H2, group_push_keys. by right.
      * intros r' Hr' Hs'. apply elem_of_cons in Hr' as [->|Hr'].
        -- apply H2, group_push_keys. by left.
        -- by apply H3.
    + destruct (IH groups Hok) as (H1 & H2 & H3).
      split_and!; [done|done|].
      intros r' Hr' Hs'. apply elem_of_cons in Hr' as [->|Hr']; [done|by apply H3].
Qed.

Lemma lineGroups_ok (all : list Remediation) :
  groups_ok (lineGroups all) ∧
  (∀ r, r ∈ all → rstatus r = success → lineNumber r ∈ fst <$> lineGroups all).
Proof.
  destruct (lineGroups_from_ok all []) as (H1 & _ & H3).
  - split; [apply NoDup_nil_2|apply Forall_nil_2].
  - by split.
Qed.

(** A group resolves to one entry, which is about the group's line; outside
    the manual strategy the entry is a patch on that line. *)
Lemma resolve_group_line strategy lines (k : option Z) (g : list Remediation) :
  group_ok (k, g) →
  ∃ x, resolve_group strategy lines (k, g) = [x] ∧ line_about x = k ∧
       (strategy ≠ "manual" → line_of x = k ∧ resolved_patch x).
Proof.
  intros [Hne Hall]. simpl in *. rewrite Forall_forall in Hall.
  assert (Hhead : ∀ after, ∃ p, head (js_sort after g) = Some p ∧ p ∈ g)
    by (intros; by apply head_js_sort).
  assert (Hconf : ∃ p, resolveByConfidence g = Some p ∧ p ∈ g) by apply Hhead.
  destruct g as [|r1 [|r2 g']]; [done| |].
  { exists (Patch r1). destruct (Hall r1) as [? ?]; [by left|].
    split_and!; [done|done|]. intros _. split; [done|]. exists r1. auto. }
  set (g := r1 :: r2 :: g') in *.
  assert (Hpick : ∀ o, (∃ p, o = Some p ∧ p ∈ g) →
            ∃ x, match Patch <$> o with
                 | Some resolved => [resolved]
                 | None => []
                 end = [x] ∧ line_about x = k ∧
                 (strategy ≠ "manual" → line_of x = k ∧ resolved_patch x)).
  { intros o (p & -> & Hp). exists (Patch p). destruct (Hall p Hp) as [? ?].
    split_and!; [done|done|]. intros _. split; [done|]. exists p. auto. }
  unfold resolve_group. change (r1 :: r2 :: g') with g.
  unfold applyConflictResolution.
  destruct (decide (strategy = "priority")); [by apply Hpick, Hhead|].
  destruct (decide (strategy = "merge")).
  { unfold mergeRemediations.
    destruct (merge_loop (by_confidence g) (line_at lines k) []) as [mergedLine applied].
    pose proof (js_sort_perm
                  (fun a b => negb (Qle_bool (confidence_or_half b) (confidence_or_half a)))
                  g) as Hperm.
    fold (by_confidence g) in Hperm.
    destruct (by_confidence g) as [|base rest] eqn:Hsorted.
    { apply Permutation_nil_l in Hperm. done. }
    assert (Hbase : base ∈ g) by (rewrite <- Hperm; by left).
    destruct applied as [|a applied'].
    - apply Hpick. destruct (head_js_sort
        (fun a b => negb (Qle_bool (confidence_or_half b) (confidence_or_half a)))
        (base :: rest)) as (p & Hp & Hin); [done|].
      exists p. split; [done|]. by rewrite <- Hperm.
    - destruct (Hall base Hbase) as [? ?].
      eexists. split; [reflexivity|]. split; [done|]. intros _. split; [done|].
      eexists. split; [reflexivity|]. by right. }
  destruct (decide (strategy = "confidence")); [by apply Hpick|].
  destruct (decide (strategy = "manual")); [|by apply Hpick].
  exists (NeedsReview g (line_at lines k)).
  split_and!; [done| |done].
  simpl. by destruct (Hall r1) as [? ?]; [by left|].
Qed.

Lemma filter_ext_Forall {A : Type} (P Q : A → Prop)
    `{∀ x, Decision (P x)} `{∀ x, Decision (Q x)} (l : list A) :
  Forall (fun x => P x ↔ Q x) l → filter P l = filter Q l.
Proof.
  induction 1 as [|x l Hx _ IH]; [done|].
  rewrite !filter_cons, IH.
  destruct (decide (P x)), (decide (Q x)); tauto.
Qed.

Lemma group_push_elem lineNum r groups (k : option Z) (g : list Remediation) :
  NoDup (fst <$> groups) →
  (k, g) ∈ group_push lineNum r groups →
  (k = lineNum ∧ ((∃ g0, (k, g0) ∈ groups ∧ g = g0 ++ [r])
                  ∨ ((lineNum ∉ fst <$> groups) ∧ g = [r])))
  ∨ (k ≠ lineNum ∧ (k, g) ∈ groups).
Proof.
  induction groups as [|[k' g'] groups IH]; cbn [group_push]; intros Hnd Hin.
  - apply list_elem_of_singleton in Hin. injection Hin as -> ->.
    left. split; [done|]. right. split; [apply not_elem_of_nil|done].
  - rewrite fmap_cons in Hnd. apply NoDup_cons in Hnd as [Hfresh Hnd]. simpl in Hfresh.
    destruct (decide (k' = lineNum)) as [->|Hne].
    + apply elem_of_cons in Hin as [Heq|Hin].
      * injection Heq as -> ->. left. split; [done|]. left.
        exists g'. split; [by left|done].
      * destruct (decide (k = lineNum)) as [->|Hk].
        -- exfalso. apply Hfresh. apply list_elem_of_fmap. by exists (lineNum, g).
        -- right. split; [done|by right].
    + apply elem_of_cons in Hin as [Heq|Hin].
      * injection Heq as -> ->. right. split; [done|by left].
      * destruct (IH Hnd Hin) as [[-> [(g0 & Hg0 & ->)|[Hfr ->]]]|[Hk Hin']].
        -- left. split; [done|]. left. exists g0. split; [by right|done].
        -- left. split; [done|]. right. split; [|done].
           rewrite fmap_cons. by apply not_elem_of_cons.
        -- right. split; [done|by right].
Qed.

Lemma lineGroups_snoc (all : list Remediation) (r : Remediation) :
  lineGroups (all ++ [r])
  = if decide (rstatus r = success)
    then group_push (lineNumber r) r (lineGroups all)
    else lineGroups all.
Proof. unfold lineGroups. by rewrite fold_left_app. Qed.

(** Under each key [lineGroups] holds the successful patches for that line,
    in their order. *)
Lemma lineGroups_content (all : list Remediation) : ∀ k g,
  (k, g) ∈ lineGroups all →
  g = filter (fun r => rstatus r = success ∧ lineNumber r = k) all.
Proof.
  induction all as [|r all IH] using rev_ind; intros k g Hin.
  - by apply elem_of_nil in Hin.
  - rewrite lineGroups_snoc in Hin. rewrite filter_app, filter_cons, filter_nil.
    destruct (lineGroups_ok all) as [[Hnd _] Hkeys].
    destruct (decide (rstatus r = success)) as [Hs|Hs].
    + destruct (group_push_elem _ _ _ _ _ Hnd Hin)
        as [[-> [(g0 & Hg0 & ->)|[Hfresh ->]]]|[Hk Hin']].
      * rewrite decide_True by done. by rewrite (IH _ _ Hg0).
      * rewrite decide_True by done.
        rewrite filter_none; [done|]. apply Forall_forall.
        intros r' Hr' [Hs' Hz']. apply Hfresh. rewrite <- Hz'. by apply Hkeys.
      * rewrite decide_False by (intros [_ ?]; done).
        rewrite app_nil_r. by apply IH.
    + rewrite decide_False by (intros [? _]; done).
      rewrite app_nil_r. by apply IH.
Qed.

Lemma tag_collected (results : list JobResult) (result : JobResult) (r : Remediation) :
  result ∈ results → res_status result = success → r ∈ res_remediations result →
  tag result r ∈ collect results.
Proof.
  intros Hresult Hs Hr. unfold collect.
  apply list_elem_of_In, in_flat_map. exists result.
  split; [by apply list_elem_of_In|].
  rewrite decide_True by done. by apply list_elem_of_In, list_elem_of_fmap_2.
Qed.

Lemma filter_key_unique (groups : list (option Z * list Remediation)) k g :
  NoDup (fst <$> groups) → (k, g) ∈ groups →
  filter (fun entry => fst entry = k) groups = [(k, g)].
Proof.
  induction groups as [|[k' g'] groups IH]; intros Hnd Hin.
  - by apply elem_of_nil in Hin.
  - rewrite fmap_cons in Hnd. apply NoDup_cons in Hnd as [Hfresh Hnd].
    rewrite filter_cons. cbn [fst] in *.
    apply elem_of_cons in Hin as [Heq|Hin].
    + injection Heq as <- <-. rewrite decide_True by done. f_equal.
      apply filter_none, Forall_forall. intros [k2 g2] Hin2 Hk2. simpl in Hk2. subst k2.
      apply Hfresh, list_elem_of_fmap. by exists (k, g2).
    + rewrite decide_False; [by apply IH|].
      intros ->. apply Hfresh, list_elem_of_fmap. by exists (k, g).
Qed.

(** The entries about a line come from the group of that line. *)
Lemma about_groups strategy lines z groups :
  Forall group_ok groups →
  about z (flat_map (resolve_group strategy lines) groups)
  = flat_map (resolve_group strategy lines)
             (filter (fun entry => fst entry = Some z) groups).
Proof.
  unfold about. induction 1 as [|[k g] groups Hg _ IH]; [done|].
  destruct (resolve_group_line strategy lines k g Hg) as (x & Hx & Hline & _).
  cbn [flat_map]. rewrite filter_app, IH, filter_cons, Hx. cbn [fst].
  rewrite filter_cons, filter_nil, Hline.
  destruct (decide (k = Some z)); [|done].
  cbn [flat_map]. by rewrite Hx.
Qed.

(** What a group resolves to: the review placeholder under the manual
    strategy when there are several candidates, and otherwise one patch on
    the line of the group, a candidate or a merged one. *)
Lemma resolve_group_entry strategy lines (k : option Z) (g : list Remediation) :
  group_ok (k, g) →
  (strategy = "manual" → 2 ≤ length g →
   resolve_group strategy lines (k, g) = [NeedsReview g (line_at lines k)]) ∧
  (¬ (strategy = "manual" ∧ 2 ≤ length g) →
   ∃ p, resolve_group strategy lines (k, g) = [Patch p] ∧ lineNumber p = k ∧
        (p ∈ g ∨ rstatus p = merged) ∧
        (rstatus p = success ∨ rstatus p = merged)).
Proof.
  intros [Hne Hall]. simpl in *. rewrite Forall_forall in Hall. split.
  - intros -> Hlen. destruct g as [|r1 [|r2 g']]; simpl in Hlen; [lia|lia|]. done.
  - intros Hnot.
    assert (Hhead : ∀ after, ∃ p, head (js_sort after g) = Some p ∧ p ∈ g)
      by (intros; by apply head_js_sort).
    assert (Hconf : ∃ p, resolveByConfidence g = Some p ∧ p ∈ g) by apply Hhead.
    destruct g as [|r1 [|r2 g']]; [done| |].
    { exists r1. destruct (Hall r1) as [? ?]; [by left|].
      split_and!; [done|done|left; by left|by left]. }
    set (g := r1 :: r2 :: g') in *.
    assert (Hpick : ∀ o, (∃ p, o = Some p ∧ p ∈ g) →
              ∃ p, match Patch <$> o with
                   | Some resolved => [resolved]
                   | None => []
                   end = [Patch p] ∧ lineNumber p = k ∧
                   (p ∈ g ∨ rstatus p = merged) ∧
                   (rstatus p = success ∨ rstatus p = merged)).
    { intros o (p & -> & Hp). exists p. destruct (Hall p Hp) as [? ?].
      split_and!; [done|done|by left|by left]. }
    unfold resolve_group. change (r1 :: r2 :: g') with g.
    unfold applyConflictResolution.
    destruct (decide (strategy = "priority")); [by apply Hpick, Hhead|].
    destruct (decide (strategy = "merge")).
    { unfold mergeRemediations.
      destruct (merge_loop (by_confidence g) (line_at lines k) []) as [mergedLine applied].
      pose proof (js_sort_perm
                    (fun a b => negb (Qle_bool (confidence_or_half b) (confidence_or_half a)))
                    g) as Hperm.
      fold (by_confidence g) in Hperm.
      destruct (by_confidence g) as [|base rest] eqn:Hsorted.
      { apply Permutation_nil_l in Hperm. done. }
      assert (Hbase : base ∈ g) by (rewrite <- Hperm; by left).
      destruct applied as [|a applied'].
      - apply Hpick. destruct (head_js_sort
          (fun a b => negb (Qle_bool (confidence_or_half b) (confidence_or_half a)))
          (base :: rest)) as (p & Hp & Hin); [done|].
        exists p. split; [done|]. by rewrite <- Hperm.
      - destruct (Hall base Hbase) as [? ?].
        eexists. split; [reflexivity|]. split_and!; [done|by right|by right]. }
    destruct (decide (strategy = "confidence")); [by apply Hpick|].
    destruct (decide (strategy = "manual")) as [->|]; [|by apply Hpick].
    exfalso. apply Hnot. split; [done|]. simpl. lia.
Qed.

Lemma about_patches z (l : list Remediation) :
  about z (Patch <$> l) = Patch <$> filter (fun r => lineNumber r = Some z) l.
Proof.
  unfold about. induction l as [|r l IH]; [done|].
  rewrite fmap_cons, !filter_cons, IH. simpl.
  by destruct (decide (lineNumber r = Some z)).
Qed.

(** The entries of a list that target a line are among those about it. *)
Lemma targeting_about z (l : list Resolved) :
  targeting z l = targeting z (about z l).
Proof.
  unfold targeting, about. rewrite list_filter_filter. f_equal.
  apply filter_ext_Forall, Forall_forall. intros x _. split; [|by intros [? _]].
  intros Hx. split; [done|]. by destruct x.
Qed.

Lemma targeting_patches z (l : list Remediation) :
  Forall (fun r => lineNumber r = Some z) l → targeting z (Patch <$> l) = length l.
Proof.
  intros Hall. unfold targeting. induction Hall as [|r l Hr _ IH]; [done|].
  rewrite fmap_cons, filter_cons. simpl. rewrite decide_True by done.
  simpl. by rewrite IH.
Qed.

(** C4, as amended.  For every list of job results and every strategy,
    take a line number found among the successful patches of the job results
    of status success.  In the returned list the entries about that line are
    one resolved entry, followed by the collected patches for the line whose
    status is not success, passed through as they came.  Under the manual
    strategy with several candidates the resolved entry is a review
    placeholder that carries the candidates and has no line number of its
    own, so that only the patches passed through target the line.  In every
    other case it is one patch with this line number, a candidate or a merged
    patch, of status success or merged, and the line is targeted by it and by
    the patches passed through. *)
Theorem resolveConflicts_one_entry_per_line
    (results : list JobResult) (sourceHtml strategy : string) (z : Z) :
  let returned := resolveConflicts results sourceHtml strategy in
  collected_line results z →
  ∃ entry,
    about z returned = entry :: (Patch <$> unsuccessful_on results z) ∧
    (strategy = "manual" → 2 ≤ length (candidates results z) →
     entry = NeedsReview (candidates results z)
                         (line_at (split_lines sourceHtml) (Some z)) ∧
     targeting z returned = length (unsuccessful_on results z)) ∧
    (¬ (strategy = "manual" ∧ 2 ≤ length (candidates results z)) →
     (∃ p, entry = Patch p ∧ lineNumber p = Some z ∧
           (p ∈ candidates results z ∨ rstatus p = merged) ∧
           (rstatus p = success ∨ rstatus p = merged)) ∧
     targeting z returned = 1 + length (unsuccessful_on results z)).
Proof.
  cbn zeta. intros (result & r & Hresult & Hsuccess & Hr & Hs & Hline).
  pose proof (tag_collected results result r Hresult Hsuccess Hr) as Hin.
  destruct (lineGroups_ok (collect results)) as [[Hnd Hall] Hkeys].
  assert (Hgroup : (Some z, candidates results z) ∈ lineGroups (collect results)).
  { specialize (Hkeys (tag result r) Hin Hs). simpl in Hkeys. rewrite Hline in Hkeys.
    apply list_elem_of_fmap in Hkeys as ([k g] & Hk & Hg). simpl in Hk. subst k.
    by rewrite (lineGroups_content _ _ _ Hg) in Hg. }
  assert (Hok : group_ok (Some z, candidates results z)).
  { rewrite Forall_forall in Hall. by apply Hall. }
  assert (Habout : about z (resolveConflicts results sourceHtml strategy)
            = resolve_group strategy (split_lines sourceHtml) (Some z, candidates results z)
              ++ (Patch <$> unsuccessful_on results z)).
  { unfold resolveConflicts, about. rewrite filter_app. f_equal.
    - fold (about z (resolved_part results sourceHtml strategy)).
      unfold resolved_part. rewrite about_groups by done.
      rewrite (filter_key_unique _ _ _ Hnd Hgroup). cbn [flat_map].
      by rewrite app_nil_r.
    - fold (about z (passed_through results)).
      unfold passed_through, unsuccessful_on. rewrite about_patches. f_equal.
      rewrite list_filter_filter. apply filter_ext_Forall, Forall_forall.
      intros r' _. tauto. }
  assert (Hothers : targeting z (Patch <$> unsuccessful_on results z)
                    = length (unsuccessful_on results z)).
  { apply targeting_patches, Forall_forall. intros r' Hr'.
    unfold unsuccessful_on in Hr'. by apply list_elem_of_filter in Hr' as [[_ ?] _]. }
  destruct (resolve_group_entry strategy (split_lines sourceHtml) _ _ Hok)
    as [Hmanual Hother].
  destruct (decide (strategy = "manual" ∧ 2 ≤ length (candidates results z)))
    as [[Hman Hlen]|Hnot].
  - rewrite (Hmanual Hman Hlen) in Habout. cbn [app] in Habout. eexists. split; [exact Habout|].
    split; [|by intros []]. intros _ _. split; [done|].
    rewrite targeting_about, Habout. unfold targeting at 1.
    rewrite filter_cons. simpl. exact Hothers.
  - destruct (Hother Hnot) as (p & Hp & Hz & Hfrom & Hstatus).
    rewrite Hp in Habout. cbn [app] in Habout. exists (Patch p). split; [exact Habout|].
    split; [intros; exfalso; by apply Hnot|]. intros _. split; [by exists p|].
    rewrite targeting_about, Habout. unfold targeting at 1.
    rewrite filter_cons. cbn [line_of]. rewrite decide_True by done.
    cbn [length]. f_equal. exact Hothers.
Qed.

(** C4, instance.  Two successful patches on line 1, under the manual
    strategy: the one entry about line 1 is the review placeholder, and no
    entry targets line 1. *)
Lemma resolveConflicts_one_entry_per_line_witness :
  about 1 (resolveConflicts results_two_on_line_1 original_img "manual")
  = [NeedsReview (candidates results_two_on_line_1 1) (Some original_img)] ∧
  targeting 1 (resolveConflicts results_two_on_line_1 original_img "manual") = 0.
Proof.
  destruct (resolveConflicts_one_entry_per_line
              results_two_on_line_1 original_img "manual" 1)
    as (entry & Habout & Hmanual & _).
  - exists (mkJobResult "job-0" (Some "1.1.1") success None [patch_alt; patch_role]),
           patch_alt.
    split_and!; [by left|reflexivity|by left|reflexivity|reflexivity].
  - destruct (Hmanual eq_refl) as [Hentry Htargeting].
    + vm_compute. lia.
    + split; [|exact Htargeting]. rewrite Habout, Hentry. reflexivity.
Defined.

(** C4, counterexample.  Under the manual strategy two successful patches
    on line 1 resolve to a review placeholder, which has no line number: no
    entry of the returned list targets line 1.  Under the confidence strategy
    a successful patch on line 1 beside a patch for line 1 that is not
    successful gives two entries that target line 1.  And a successful patch
    in a job result that is not a success is not collected: no entry targets
    its line. *)
Lemma unique_per_line_fails :
  ¬ unique_per_line results_two_on_line_1 original_img "manual" ∧
  ¬ unique_per_line results_with_warning original_img "confidence" ∧
  ¬ unique_per_line results_of_failed_job original_img "confidence".
Proof.
  split_and!; intros Hc; specialize (Hc 1%Z).
  - assert (Hzero : targeting 1 (resolveConflicts results_two_on_line_1 original_img "manual")
                    = 0) by (vm_compute; reflexivity).
    rewrite Hzero in Hc. discriminate Hc.
    eexists _, patch_alt. split_and!; [by left|by left|done|done].
  - assert (Htwo : targeting 1 (resolveConflicts results_with_warning original_img "confidence")
                   = 2) by (vm_compute; reflexivity).
    rewrite Htwo in Hc. discriminate Hc.
    eexists _, patch_alt. split_and!; [by left|by left|done|done].
  - assert (Hzero : targeting 1 (resolveConflicts results_of_failed_job original_img "confidence")
                    = 0) by (vm_compute; reflexivity).
    rewrite Hzero in Hc. discriminate Hc.
    eexists _, patch_alt. split_and!; [by left|by left|done|done].
Qed.

(** The key of the first criterion of the list, and of any criterion
    outside the list. *)
Lemma priority_index_language (r : Remediation) :
  wcagCriterion r = Some "3.1.1" → priority_index r = 999%Z.
Proof. intros H. unfold priority_index. by rewrite H. Qed.

Lemma priority_index_unlisted (r : Remediation) :
  (∀ c, wcagCriterion r = Some c → c ∉ priorityOrder) →
  priority_index r = (-1)%Z.
Proof.
  intros H. unfold priority_index, indexOf, priorityOrder. cbn [indexOf_from].
  repeat (destruct (decide (Some _ = wcagCriterion r)) as [Heq|_];
          [exfalso; symmetry in Heq; apply (H _ Heq); set_solver|]).
  done.
Qed.

(** C5, the code at the failing inputs.  Alt text against name/role/value
    goes to alt text, as the list says.  But the page-language criterion, the
    first of the list, has index 0, which [|| 999] turns into 999: it loses to
    every other listed criterion.  And a criterion outside the list has index
    -1, which [|| 999] keeps: it wins against every listed one. *)
Theorem priority_strategy_on_first_and_unlisted :
  resolveByCriteriaPriority [patch_role; patch_alt] = Some patch_alt ∧
  priority_index patch_lang = 999%Z ∧
  resolveByCriteriaPriority [patch_lang; patch_role] = Some patch_role ∧
  priority_index patch_unlisted = (-1)%Z ∧
  resolveByCriteriaPriority [patch_alt; patch_unlisted] = Some patch_unlisted.
Proof. split_and!; vm_compute; reflexivity. Qed.

(** When every candidate adds an attribute, each one folded in replaces
    the merged line: what is left is the line of the last candidate. *)
Lemma merge_loop_attributes (l : list Remediation) : ∀ line applied,
  Forall (fun r => ∃ a, afterCode r = Some a ∧ includes a "=" = true) l →
  merge_loop l line applied
  = (match last l with Some r => afterCode r | None => line end, applied ++ l).
Proof.
  induction l as [|r l IH]; intros line applied Hall.
  - simpl. by rewrite app_nil_r.
  - apply Forall_cons in Hall as [(a & Ha & Hinc) Hall].
    cbn [merge_loop]. unfold attemptMerge, hasAttributeConflict, mergeAttributes.
    rewrite Ha, Hinc. cbn [andb negb].
    rewrite (IH (Some a) (applied ++ [r]) Hall), <- app_assoc.
    destruct l as [|r' l]; simpl; [by rewrite Ha|].
    destruct (last (r' :: l)) eqn:Hl; [done|]. by apply last_None in Hl.
Qed.

Lemma merge_keeps_last_candidate (g : list Remediation) (originalLine : option string) :
  g ≠ [] →
  Forall (fun r => ∃ a, afterCode r = Some a ∧ includes a "=" = true) g →
  ∃ m r, mergeRemediations g originalLine = Some m ∧ rstatus m = merged ∧
         r ∈ g ∧ afterCode m = afterCode r ∧
         mergedFrom m = Some (wcagCriterion <$> by_confidence g).
Proof.
  intros Hne Hall. unfold mergeRemediations.
  pose proof (js_sort_perm
                (fun a b => negb (Qle_bool (confidence_or_half b) (confidence_or_half a)))
                g) as Hperm.
  fold (by_confidence g) in Hperm.
  rewrite <- Hperm in Hall.
  rewrite (merge_loop_attributes _ _ _ Hall). simpl.
  destruct (by_confidence g) as [|base rest] eqn:Hsorted.
  { apply Permutation_nil_l in Hperm. done. }
  destruct (last (base :: rest)) as [r|] eqn:Hlast.
  - eexists _, r. split; [reflexivity|]. split_and!; try done.
    rewrite <- Hperm. by apply last_Some_elem_of.
  - by apply last_None in Hlast.
Qed.

(** C6, the code at the failing input.  The two image patches each add one
    attribute to the original line.  The merge strategy returns one patch of
    status merged that lists both criteria as merged, but [mergeAttributes]
    returns the new line as it is, so the merged line is that of the last
    candidate folded in and the attribute of the first one is lost. *)
Theorem merge_strategy_keeps_last_candidate_only :
  ∃ m, mergeRemediations [patch_alt; patch_role] (Some original_img) = Some m ∧
       rstatus m = merged ∧
       mergedFrom m = Some [Some "1.1.1"; Some "4.1.2"] ∧
       afterCode m = Some "<img src=a.png role=img>" ∧
       includes "<img src=a.png role=img>" "role=img" = true ∧
       includes "<img src=a.png role=img>" "alt=logo" = false.
Proof.
  eexists. split; [vm_compute; reflexivity|].
  split_and!; vm_compute; reflexivity.
Qed.

(** ** The rate limiter and [processIssueType] *)

Lemma frozen_loop_denied (maxRetries : nat) (type : string) (remaining : nat) :
  ∀ checks0,
  processIssueType_loop env_frozen maxRetries type remaining
    (mkAgentState requests_full checks0 0 None)
  = (ThrewTypeError, mkAgentState requests_full (checks0 + remaining) 0 None).
Proof.
  induction remaining as [|remaining IH]; intros checks0.
  - simpl. by rewrite Nat.add_0_r.
  - cbn [processIssueType_loop requests checks calls lastError clock env_frozen].
    assert (Hdeny : canMakeRequest 121000 requests_full = (false, requests_full))
      by (vm_compute; reflexivity).
    rewrite Hdeny. rewrite IH. by rewrite Nat.add_succ_r.
Qed.

(** C9, the code at the failing input.  The limiter has let sixty requests
    through in the current minute.  With the default single attempt the one
    denial ends the loop: [processIssueType] throws without a single call to
    the service, and [remediateIssues] marks every issue of the group failed.
    With any number of attempts, each denial uses one up. *)
Theorem rate_limit_denial_uses_up_attempts :
  fst (canMakeRequest 121000 requests_full) = false ∧
  processIssueType env_same_minute (retries_of None) "all" requests_full
  = (ThrewTypeError, mkAgentState requests_full 1 0 None) ∧
  (∀ issues,
     remediateIssues issues (fun _ => settle ThrewTypeError)
     = failed_placeholder "all" "Cannot read properties of undefined (reading 'message')"
         <$> issues) ∧
  (∀ maxRetries type,
     processIssueType env_frozen maxRetries type requests_full
     = (ThrewTypeError, mkAgentState requests_full maxRetries 0 None)).
Proof.
  split_and!.
  - vm_compute. reflexivity.
  - vm_compute. reflexivity.
  - intros issues. unfold remediateIssues. simpl. done.
  - intros maxRetries type. unfold processIssueType. by rewrite frozen_loop_denied.
Qed.

(** ** [applyRemediations]: lines that are not targeted are kept *)

Lemma split_lines_app (s t : string) :
  has_newline s = false →
  split_lines (s +:+ String newline t) = s :: split_lines t.
Proof.
  induction s as [|c s IH]; intros Hs.
  - done.
  - cbn [has_newline] in Hs. apply orb_false_iff in Hs as [Hc Hs].
    change (String c s +:+ String newline t)
      with (String c (s +:+ String newline t)).
    cbn [split_lines]. rewrite Hc. by rewrite IH.
Qed.

Lemma split_lines_single (s : string) :
  has_newline s = false → split_lines s = [s].
Proof.
  induction s as [|c s IH]; intros Hs.
  - done.
  - cbn [has_newline] in Hs. apply orb_false_iff in Hs as [Hc Hs].
    cbn [split_lines]. rewrite Hc. by rewrite IH.
Qed.

Lemma split_lines_no_newline (s : string) :
  Forall (fun l => has_newline l = false) (split_lines s).
Proof.
  induction s as [|c s IH].
  - by apply Forall_singleton.
  - cbn [split_lines]. destruct (Ascii.eqb c newline) eqn:Hc.
    + by apply Forall_cons.
    + destruct (split_lines s) as [|l ls].
      * apply Forall_singleton. cbn [has_newline]. by rewrite Hc.
      * apply Forall_cons in IH as [Hl Hls]. apply Forall_cons. split; [|done].
        cbn [has_newline]. by rewrite Hc.
Qed.

Lemma split_lines_length (s : string) : 0 < length (split_lines s).
Proof.
  induction s as [|c s IH]; cbn [split_lines]; [simpl; lia|].
  destruct (Ascii.eqb c newline); [simpl; lia|].
  destruct (split_lines s); simpl; lia.
Qed.

Lemma split_join (l : list string) :
  l ≠ [] → Forall (fun s => has_newline s = false) l →
  split_lines (join (String newline "") l) = l.
Proof.
  induction l as [|x l IH]; intros Hne Hall; [done|].
  apply Forall_cons in Hall as [Hx Hall].
  destruct l as [|y l].
  - by apply split_lines_single.
  - change (join (String newline "") (x :: y :: l))
      with (x +:+ String newline (join (String newline "") (y :: l))).
    rewrite split_lines_app by done. by rewrite IH.
Qed.

Section apply.
Variable sourceHtml : string.
Variable remediations : list Remediation.
Hypothesis one_line : ∀ r z a,
  r ∈ remediations → applies_to sourceHtml r z →
  afterCode r = Some a → has_newline a = false.

Lemma apply_one_kept (r : Remediation) lines applied errs :
  r ∈ remediations → rstatus r = success → lines_kept sourceHtml remediations lines →
  lines_kept sourceHtml remediations (fst (fst (apply_one (lines, applied, errs) r))).
Proof.
  intros Hin Hs (Hlen & Hnl & Hframe). unfold apply_one, line_index.
  destruct (lineNumber r) as [z|] eqn:Hz; [|done].
  destruct (decide (0 ≤ z - 1 < Z.of_nat (length lines))%Z) as [Hrange|]; [|done].
  assert (Happ : applies_to sourceHtml r z).
  { split; [done|]. split; [done|]. lia. }
  cbn [fst]. split_and!.
  - by rewrite length_insert.
  - apply Forall_insert; [done|].
    destruct (afterCode r) as [a|] eqn:Ha; [|done]. by eapply one_line.
  - intros k Hk. destruct (decide (k = Z.to_nat (z - 1))) as [->|Hne].
    + exfalso. apply Hk. exists r. split; [done|].
      by replace (Z.of_nat (Z.to_nat (z - 1)) + 1)%Z with z by lia.
    + rewrite list_lookup_insert_ne by done. by apply Hframe.
Qed.

Lemma fold_apply_kept (rs : list Remediation) : ∀ acc,
  (∀ r, r ∈ rs → r ∈ remediations ∧ rstatus r = success) →
  lines_kept sourceHtml remediations (fst (fst acc)) →
  lines_kept sourceHtml remediations (fst (fst (fold_left apply_one rs acc))).
Proof.
  induction rs as [|r rs IH]; intros [[lines applied] errs] Hrs Hk; [done|].
  cbn [fold_left]. apply IH.
  - intros r' Hr'. apply Hrs. by right.
  - destruct (Hrs r) as [? ?]; [by left|]. by apply apply_one_kept.
Qed.

(** C10, as amended.  When no remediation that applies, that is a
    successful one whose line number is that of an existing line, carries a
    line break in its new text, [modifiedHtml] has as many lines as the source,
    and every line that no such remediation targets is the source line. *)
Theorem applyRemediations_frame : apply_frame sourceHtml remediations.
Proof.
  unfold apply_frame, applyRemediations.
  set (sortedRemediations :=
         js_sort line_after (filter (fun r => rstatus r = success) remediations)).
  pose proof (fold_apply_kept sortedRemediations (split_lines sourceHtml, 0, [])) as Hk.
  destruct (fold_left apply_one sortedRemediations (split_lines sourceHtml, 0, []))
    as [[lines' applied] errs].
  destruct Hk as (Hlen & Hnl & Hframe).
  - intros r Hr. unfold sortedRemediations in Hr.
    rewrite js_sort_perm in Hr. by apply list_elem_of_filter in Hr as [? ?].
  - split_and!; [done|apply split_lines_no_newline|done].
  - cbn [modifiedHtml fst] in *. rewrite split_join; [done| |done].
    pose proof (split_lines_length sourceHtml) as Hpos.
    destruct lines'; simpl in *; [lia|done].
Qed.
End apply.

Lemma applyRemediations_frame_witness :
  apply_frame (String "a" (String newline "b")) [patch_alt].
Proof.
  apply applyRemediations_frame.
  intros r z a Hr _ Ha. apply list_elem_of_singleton in Hr. subst r.
  injection Ha as <-. vm_compute. reflexivity.
Defined.

(** C10, counterexample.  A successful patch for line 1 of a one-line
    source whose new text holds a line break: the result has two lines. *)
Lemma apply_frame_fails_on_line_break :
  ¬ apply_frame "<p>a</p>" [patch_two_lines].
Proof.
  intros [Hlen _]. vm_compute in Hlen. discriminate.
Qed.

(** * Further properties *)

(** ** The dependency resolver on arbitrary graphs *)

(** X1.  On every input, with or without circular dependencies,
    [resolveDependencies] returns: its output holds Jobs of the input only, no
    identifier twice and every identifier of the input.  When the identifiers
    of the input are pairwise distinct the output is a permutation of the
    input: a circular dependency is passed over, and no Job is dropped or
    repeated. *)
Theorem resolveDependencies_keeps_every_job (jobs : list Job) :
  ∃ out, resolveDependencies jobs = Some out ∧
         (∀ j, j ∈ out → j ∈ jobs) ∧
         NoDup (id <$> out) ∧
         (∀ j, j ∈ jobs → id j ∈ id <$> out) ∧
         (NoDup (id <$> jobs) → out ≡ₚ jobs).
Proof.
  destruct (resolveDependencies_sound jobs) as (out & Hout & Hsub & Hnd & Hall).
  exists out. split_and!; try done.
  intros Hids.
  destruct (resolveDependencies_keeps_every_job_aux jobs Hids) as (out' & Hout' & Hperm).
  congruence.
Qed.

(** ** The scheduler *)

(** X2.  With at least one slot, a batch in which no Job has a dependency
    always runs to completion, whatever the workers answer and in whatever
    order: [executeJobs] returns within six steps of the coordinator per retry
    that is left, nine per Job, and two.  A Job that fails does not keep the
    others from finishing. *)
Theorem executeJobs_returns_without_dependencies
    (cfg : Config) (env : Env) (jobs : list Job) :
  0 < maxConcurrency cfg →
  Forall (fun j => dependencies j = []) jobs →
  is_Some (executeJobs (6 * retries_left jobs + 9 * length jobs + 2) cfg env jobs).
Proof.
  intros Hslot Hdeps. unfold executeJobs.
  destruct (resolveDependencies jobs) as [queue|] eqn:Hqueue.
  2:{ destruct (resolveDependencies_returns jobs) as [q Hq]. congruence. }
  pose proof (resolveDependencies_length _ _ Hqueue) as Hlen.
  destruct (run_without_dependencies cfg env jobs queue Hslot Hdeps) as [s ->];
    [lia|by eexists].
Qed.

(** X3.  At every point of [executeJobs] every Job of the batch has the
    [id], [type], [issues], [dependencies] and [maxAttempts] it was passed
    with: of the fields the scheduler reads, the run writes [status] and
    [attempts] only.  ([executeJob] also writes [startTime], a field that
    nothing reads and that the Job record here does not have.)  An [attempts]
    counter that started within [maxAttempts] stays within it. *)
Theorem executeJobs_keeps_what_the_scheduler_reads
    (cfg : Config) (env : Env) (jobs queue : list Job) (n : nat) :
  attempts_bounded jobs →
  static_part <$> store (steps n cfg env (initial jobs queue)) = static_part <$> jobs ∧
  attempts_bounded (store (steps n cfg env (initial jobs queue))).
Proof.
  intros Hb. split; [apply steps_static|].
  generalize (initial jobs queue), (Hb : attempts_bounded (store (initial jobs queue))).
  induction n as [|n IH]; intros s Hs; simpl; [done|].
  by apply IH, step_attempts_bounded.
Qed.

(** X4.  For a batch of Jobs with pairwise distinct identifiers, at no
    point of [executeJobs] does a Job have two results, and when the call
    returns there is exactly one result for each Job. *)
Theorem executeJobs_one_result_per_job
    (cfg : Config) (env : Env) (jobs : list Job) :
  NoDup (id <$> jobs) →
  (∀ queue n,
     resolveDependencies jobs = Some queue →
     NoDup (res_jobId <$> results (steps n cfg env (initial jobs queue)))) ∧
  (∀ fuel results final,
     executeJobs fuel cfg env jobs = Some (results, final) →
     res_jobId <$> results ≡ₚ id <$> jobs).
Proof.
  intros Hids.
  destruct (resolveDependencies_keeps_every_job_aux jobs Hids) as (out & Hout & Hperm).
  assert (Hacc : ∀ n, accounted (id <$> jobs) (steps n cfg env (initial jobs out))).
  { intros n. apply steps_accounted; [done|]. by apply initial_accounted. }
  split.
  - intros queue n Hqueue. rewrite Hout in Hqueue. injection Hqueue as <-.
    destruct (Hacc n) as [_ _ _ Hall _].
    rewrite <- Hall in Hids.
    apply NoDup_app in Hids as (_ & _ & Hids).
    by apply NoDup_app in Hids as (_ & _ & Hids).
  - intros fuel results final Hrun. unfold executeJobs in Hrun.
    rewrite Hout in Hrun.
    destruct (run fuel cfg env (initial jobs out)) as [s|] eqn:Hs; [|done].
    injection Hrun as <- <-.
    apply run_Some_steps in Hs as (n & -> & Hfin).
    destruct (Hacc n) as [_ _ _ Hall Hdone].
    destruct (Hdone Hfin) as [Hq Hp]. by rewrite Hq, Hp in Hall.
Qed.

(** ** The scheduler: a dependency on a type that no Job has *)

Lemma dependenciesMet_true (job : Job) (completed : list JobResult) :
  dependenciesMet job completed = true →
  ∀ t, t ∈ dependencies job →
       ∃ r, r ∈ completed ∧ res_status r = success ∧ res_type r = Some t.
Proof.
  unfold dependenciesMet. intros Hmet t Ht.
  destruct (dependencies job) as [|d ds] eqn:Hdeps; [by apply elem_of_nil in Ht|].
  rewrite forallb_forall in Hmet. apply list_elem_of_In in Ht.
  specialize (Hmet t Ht). apply existsb_exists in Hmet as (r & Hr & Hb).
  apply andb_true_iff in Hb as [Hs Hty].
  apply bool_decide_eq_true in Hs, Hty.
  exists r. split; [by apply list_elem_of_In|done].
Qed.

Section dispatch.
Variable cfg : Config.
Variable env : Env.
Variable jobs : list Job.
Hypothesis ids_distinct : NoDup (id <$> jobs).

Lemma at_loc_dispatch_sound (l : Loc) (s : SState) :
  dispatch_sound jobs s → dispatch_sound jobs (at_loc l s).
Proof. intros [? ? ? ? ?]. by constructor. Qed.

Lemma step_dispatch_sound (s : SState) :
  dispatch_sound jobs s → dispatch_sound jobs (step cfg env s).
Proof.
  intros Hds. pose proof Hds as Hds0.
  assert (Hstatic' : static_part <$> store (step cfg env s) = static_part <$> jobs).
  { destruct Hds as [Hst _ _ _ _]. by rewrite step_static. }
  destruct Hds as [Hstatic Htyped Hkeys Hproc Hres].
  revert Hstatic'. unfold step. destruct (pc s) eqn:Hloc.
  - intros _. destruct (jobQueue s), (processing s) eqn:Hp;
      by apply at_loc_dispatch_sound.
  - destruct (jobQueue s) as [|r queue'];
      [intros _; by apply at_loc_dispatch_sound|].
    destruct (decide (length (processing s) < maxConcurrency cfg));
      [|intros _; by apply at_loc_dispatch_sound].
    destruct (store s !! r) as [job|] eqn:Hjob; [|by intros _].
    unfold inner_iteration.
    destruct (dependenciesMet job (results s)) eqn:Hmet; simpl;
      intros Hst'; constructor; simpl; try done.
    + apply map_set_Forall; [|done]. simpl.
      destruct (static_part_lookup _ _ _ _ Hstatic Hjob) as (j & Hj & Hsj).
      rewrite list_lookup_fmap, Hj. simpl.
      by injection Hsj as -> _ _ _ _.
    + apply map_set_Forall; [|done]. simpl.
      intros j Hj Hid.
      destruct (static_part_lookup _ _ _ _ Hstatic Hjob) as (j' & Hj' & Hsj).
      assert (j' = j) as ->.
      { apply (NoDup_fmap_inj id jobs); try done.
        - by eapply list_elem_of_lookup_2.
        - injection Hsj as ? _ _ _ _. congruence. }
      injection Hsj as _ _ _ Hdeps _. rewrite Hdeps.
      apply Forall_forall. intros t Ht.
      destruct (dependenciesMet_true _ _ Hmet t Ht) as (res & Hin & Hs & Hty).
      rewrite Forall_forall in Htyped.
      destruct (Htyped res Hin Hs) as (t' & Ht' & Hin'). congruence.
  - destruct (processing s) as [|kr0 p0] eqn:Hp;
      [intros _; by apply at_loc_dispatch_sound|].
    rewrite <- Hp in *. clear kr0 p0 Hp.
    unfold handle_completion, completing.
    destruct (env (completedCount s)) as [[choice raced] processingTime].
    destruct (processing s !! (choice mod length (processing s)))
      as [[k r]|] eqn:Hpick; [|intros _; by apply at_loc_dispatch_sound].
    apply list_elem_of_lookup_2 in Hpick as Hin.
    pose proof (map_delete_Forall _ k _ Hkeys) as Hkeys'.
    pose proof (map_delete_Forall _ k _ Hproc) as Hproc'.
    assert (Hk : deps_present jobs k).
    { rewrite Forall_forall in Hproc. apply (Hproc _ Hin). }
    assert (Hkr : (id <$> jobs) !! r = Some k).
    { rewrite Forall_forall in Hkeys. apply (Hkeys _ Hin). }
    destruct (store s !! r) as [running|] eqn:Hrun;
      [|intros _; by apply at_loc_dispatch_sound].
    destruct (static_part_lookup _ _ _ _ Hstatic Hrun) as (j & Hj & Hsj).
    assert (Hfailed : ∀ message,
      Forall (fun r => res_status r = success →
                       ∃ t, res_type r = Some t ∧ t ∈ type <$> jobs)
             (results s ++ [mkJobResult k None failed (Some message) []]) ∧
      Forall (fun r => deps_present jobs (res_jobId r))
             (results s ++ [mkJobResult k None failed (Some message) []])).
    { intros message. split; (apply Forall_app; split; [done|]);
        by apply Forall_singleton. }
    destruct (executeJob cfg running raced processingTime) as [result|message] eqn:Hexec;
      simpl.
    + apply executeJob_Fulfilled in Hexec as (remediations & _ & ->).
      intros Hst'. constructor; simpl; try done.
      * apply Forall_app. split; [done|]. apply Forall_singleton. simpl.
        intros _. exists (type running). split; [done|].
        injection Hsj as _ <- _ _ _. apply list_elem_of_fmap_2.
        by eapply list_elem_of_lookup_2.
      * apply Forall_app. split; [done|]. apply Forall_singleton. simpl.
        rewrite list_lookup_fmap, Hj in Hkr. simpl in Hkr.
        injection Hsj as Hid _ _ _ _. by replace (id running) with k by congruence.
    + destruct (list_find _ (store s)) as [[i job]|];
        [|intros Hst'; constructor; simpl; try done; apply Hfailed].
      destruct (decide (attempts job < maxAttempts job)); simpl;
        intros Hst'; constructor; simpl; try done; apply Hfailed.
  - by intros _.
Qed.

Lemma steps_dispatch_sound (n : nat) : ∀ s,
  dispatch_sound jobs s → dispatch_sound jobs (steps n cfg env s).
Proof.
  induction n as [|n IH]; intros s Hs; simpl; [done|].
  by apply IH, step_dispatch_sound.
Qed.
End dispatch.

Lemma initial_dispatch_sound (jobs queue : list Job) :
  dispatch_sound jobs (initial jobs queue).
Proof. by constructor. Qed.

Lemma absent_dependency_no_result
    (cfg : Config) (env : Env) (jobs : list Job) (job0 : Job) (t : string) :
  NoDup (id <$> jobs) →
  job0 ∈ jobs → t ∈ dependencies job0 → t ∉ type <$> jobs →
  ∀ queue n r,
    r ∈ results (steps n cfg env (initial jobs queue)) → res_jobId r ≠ id job0.
Proof.
  intros Hids Hjob0 Ht Habsent queue n r Hr Hid.
  destruct (steps_dispatch_sound cfg env jobs Hids n _ (initial_dispatch_sound jobs queue))
    as [_ _ _ _ Hres].
  rewrite Forall_forall in Hres.
  specialize (Hres r Hr job0 Hjob0 (eq_sym Hid)).
  rewrite Forall_forall in Hres. by apply Habsent, Hres.
Qed.

Lemma absent_dependency_never_returns
    (cfg : Config) (env : Env) (jobs : list Job) (job0 : Job) (t : string) :
  NoDup (id <$> jobs) →
  job0 ∈ jobs → t ∈ dependencies job0 → t ∉ type <$> jobs →
  ∀ fuel, executeJobs fuel cfg env jobs = None.
Proof.
  intros Hids Hjob0 Ht Habsent fuel. unfold executeJobs.
  destruct (resolveDependencies_keeps_every_job_aux jobs Hids) as (out & -> & Hperm).
  destruct (run fuel cfg env (initial jobs out)) as [s|] eqn:Hs; [|done].
  exfalso. apply run_Some_steps in Hs as (n & -> & Hfin).
  pose proof (steps_accounted cfg env (id <$> jobs) Hids n _
                (initial_accounted jobs out Hperm)) as [_ _ _ Hall Hdone].
  destruct (Hdone Hfin) as [Hq Hp]. rewrite Hq, Hp in Hall. simpl in Hall.
  assert (Hin : id job0 ∈ res_jobId <$> results (steps n cfg env (initial jobs out))).
  { rewrite Hall. by apply list_elem_of_fmap_2. }
  apply list_elem_of_fmap in Hin as (r & Hid & Hr).
  by apply (absent_dependency_no_result cfg env jobs job0 t Hids Hjob0 Ht Habsent out n r Hr).
Qed.

(** X5.  In a batch of Jobs with pairwise distinct identifiers, a Job that
    lists a dependency type that no Job of the batch has is never ready:
    [dependenciesMet] answers false for it at every point, since only the
    result of a Job of that type could satisfy it.  The Job is never given a
    result, and [executeJobs] does not return. *)
Theorem absent_dependency_is_never_met
    (cfg : Config) (env : Env) (jobs : list Job) (job0 : Job) (t : string) :
  NoDup (id <$> jobs) →
  job0 ∈ jobs → t ∈ dependencies job0 → t ∉ type <$> jobs →
  (∀ queue n job,
     job ∈ store (steps n cfg env (initial jobs queue)) →
     static_part job = static_part job0 →
     dependenciesMet job (results (steps n cfg env (initial jobs queue))) = false) ∧
  (∀ queue n r,
     r ∈ results (steps n cfg env (initial jobs queue)) →
     res_jobId r ≠ id job0) ∧
  (∀ fuel, executeJobs fuel cfg env jobs = None).
Proof.
  intros Hids Hjob0 Ht Habsent.
  split_and!.
  - intros queue n job Hjob Hsame.
    destruct (steps_dispatch_sound cfg env jobs Hids n _
                (initial_dispatch_sound jobs queue)) as [_ Htyped _ _ _].
    destruct (dependenciesMet job _) eqn:Hmet; [|done].
    exfalso. assert (Ht' : t ∈ dependencies job).
    { injection Hsame as _ _ _ -> _. done. }
    destruct (dependenciesMet_true _ _ Hmet t Ht') as (res & Hin & Hs & Hty).
    rewrite Forall_forall in Htyped.
    destruct (Htyped res Hin Hs) as (t' & Ht'' & Hin'). congruence.
  - by eapply absent_dependency_no_result.
  - by eapply absent_dependency_never_returns.
Qed.

(** ** [createJobs] *)

(** X6.  [createJobs] makes one Job per prepared group, with pairwise
    distinct identifiers, each pending with no attempt made and one attempt
    more than the configured retries allowed.  [resolveDependencies] then
    returns a permutation of these Jobs, whatever dependencies the groups
    carry. *)
Theorem createJobs_then_resolveDependencies
    (cfg : Config) (processedIssues : list Prepared) :
  length (createJobs cfg processedIssues) = length processedIssues ∧
  NoDup (id <$> createJobs cfg processedIssues) ∧
  Forall (fun j => status j = pending ∧ attempts j = 0 ∧
                   maxAttempts j = retryAttempts cfg + 1)
         (createJobs cfg processedIssues) ∧
  ∃ out, resolveDependencies (createJobs cfg processedIssues) = Some out ∧
         out ≡ₚ createJobs cfg processedIssues.
Proof.
  split_and!.
  - apply length_imap.
  - apply createJobs_ids_distinct.
  - apply Forall_forall. intros j Hj.
    apply list_elem_of_lookup in Hj as [i Hi].
    unfold createJobs in Hi. rewrite list_lookup_imap in Hi.
    destruct (processedIssues !! i) as [p|]; [|done].
    injection Hi as <-. done.
  - apply resolveDependencies_keeps_every_job_aux, createJobs_ids_distinct.
Qed.

(** ** The conflict resolver: which candidate a strategy selects *)

(** The first element of a sorted array: every element before it in the
    input compares strictly behind it, every element after it does not
    compare before it. *)
Lemma head_js_sort_first {A : Type} (after : A → A → bool) :
  (∀ a b c, after a b = false → after b c = false → after a c = false) →
  (∀ a b, after a b = true → after b a = false) →
  ∀ l p, head (js_sort after l) = Some p →
         ∃ l1 l2, l = l1 ++ p :: l2 ∧
                  (∀ x, x ∈ l1 → after x p = true) ∧
                  (∀ x, x ∈ l2 → after p x = false).
Proof.
  intros Htrans Htotal. induction l as [|x l IH]; intros p Hp; [done|].
  cbn [js_sort] in Hp.
  destruct (js_sort after l) as [|y s] eqn:Hs.
  - injection Hp as <-.
    pose proof (js_sort_perm after l) as Hperm. rewrite Hs in Hperm.
    apply Permutation_nil_l in Hperm as <-.
    exists [], []. split_and!; [done|..]; intros z Hz; by apply elem_of_nil in Hz.
  - destruct (IH y eq_refl) as (l1 & l2 & -> & Hl1 & Hl2).
    cbn [sort_insert] in Hp. destruct (after x y) eqn:Hxy.
    + injection Hp as <-. exists (x :: l1), l2. split_and!; [done| |done].
      intros z Hz. apply elem_of_cons in Hz as [->|Hz]; [done|by apply Hl1].
    + injection Hp as <-. exists [], (l1 ++ y :: l2). split_and!; [done| |].
      * intros z Hz. by apply elem_of_nil in Hz.
      * intros z Hz. apply elem_of_app in Hz as [Hz|Hz].
        -- destruct (after x z) eqn:Hxz; [|done].
           apply Htotal in Hxz. pose proof (Htrans _ _ _ Hxz Hxy) as Hzy.
           rewrite (Hl1 z Hz) in Hzy. done.
        -- apply elem_of_cons in Hz as [->|Hz]; [done|].
           eapply Htrans; [done|by apply Hl2].
Qed.

Lemma head_js_sort_None {A : Type} (after : A → A → bool) (l : list A) :
  head (js_sort after l) = None ↔ l = [].
Proof.
  split; [|by intros ->].
  intros Hnone. destruct l as [|x l]; [done|].
  destruct (head_js_sort after (x :: l)) as (p & Hp & _); [done|]. congruence.
Qed.

(** X7.  [resolveByConfidence] answers nothing only for an empty list.
    Otherwise it selects a candidate of the list whose confidence, with a
    missing or zero confidence read as 0.5, is the highest: every candidate
    before it in the list has a strictly lower one and none after it a higher
    one, so that among equals the first wins. *)
Theorem resolveByConfidence_selects_first_highest (remediations : list Remediation) :
  (resolveByConfidence remediations = None ↔ remediations = []) ∧
  (∀ p, resolveByConfidence remediations = Some p →
        ∃ l1 l2, remediations = l1 ++ p :: l2 ∧
                 (∀ x, x ∈ l1 → (confidence_or_half x < confidence_or_half p)%Q) ∧
                 (∀ x, x ∈ l2 → (confidence_or_half x <= confidence_or_half p)%Q)).
Proof.
  split; [apply head_js_sort_None|].
  intros p Hp. unfold resolveByConfidence, by_confidence in Hp.
  apply head_js_sort_first in Hp as (l1 & l2 & Heq & Hl1 & Hl2).
  - exists l1, l2. split_and!; [done| |].
    + intros x Hx. specialize (Hl1 x Hx).
      apply negb_true_iff in Hl1. apply Qnot_le_lt. intros Hle.
      apply Qle_bool_iff in Hle. congruence.
    + intros x Hx. specialize (Hl2 x Hx).
      apply negb_false_iff in Hl2. by apply Qle_bool_iff.
  - intros a b c Hab Hbc. apply negb_false_iff in Hab, Hbc.
    apply negb_false_iff. apply Qle_bool_iff in Hab, Hbc. apply Qle_bool_iff.
    by eapply Qle_trans.
  - intros a b Hab. apply negb_true_iff in Hab. apply negb_false_iff.
    apply Qle_bool_iff. apply Qlt_le_weak, Qnot_le_lt. intros Hle.
    apply Qle_bool_iff in Hle. congruence.
Qed.

(** X8.  [resolveByCriteriaPriority] answers nothing only for an empty
    list.  Otherwise it selects a candidate of the list with the least sort
    key [priorityOrder.indexOf(criterion) || 999], the first one among
    equals. *)
Theorem resolveByCriteriaPriority_selects_first_least (remediations : list Remediation) :
  (resolveByCriteriaPriority remediations = None ↔ remediations = []) ∧
  (∀ p, resolveByCriteriaPriority remediations = Some p →
        ∃ l1 l2, remediations = l1 ++ p :: l2 ∧
                 (∀ x, x ∈ l1 → (priority_index p < priority_index x)%Z) ∧
                 (∀ x, x ∈ l2 → (priority_index p <= priority_index x)%Z)).
Proof.
  split; [apply head_js_sort_None|].
  intros p Hp. unfold resolveByCriteriaPriority in Hp.
  apply head_js_sort_first in Hp as (l1 & l2 & Heq & Hl1 & Hl2).
  - exists l1, l2. split_and!; [done| |].
    + intros x Hx. specialize (Hl1 x Hx). apply bool_decide_eq_true in Hl1. lia.
    + intros x Hx. specialize (Hl2 x Hx). apply bool_decide_eq_false in Hl2. lia.
  - intros a b c Hab Hbc. apply bool_decide_eq_false in Hab, Hbc.
    apply bool_decide_eq_false. lia.
  - intros a b Hab. apply bool_decide_eq_true in Hab.
    apply bool_decide_eq_false. lia.
Qed.

(** ** The conflict resolver without conflicts *)

Lemma group_push_fresh lineNum r groups :
  lineNum ∉ fst <$> groups →
  group_push lineNum r groups = groups ++ [(lineNum, [r])].
Proof.
  induction groups as [|[k g] groups IH]; intros Hk; [done|].
  csimpl in Hk. apply not_elem_of_cons in Hk as [Hne Hk].
  cbn [group_push]. rewrite decide_False by done. by rewrite IH.
Qed.

Lemma lineGroups_distinct (all : list Remediation) : ∀ groups,
  NoDup ((fst <$> groups) ++ (lineNumber <$> filter (fun r => rstatus r = success) all)) →
  fold_left (fun groups r =>
               if decide (rstatus r = success)
               then group_push (lineNumber r) r groups
               else groups) all groups
  = groups ++ ((fun r => (lineNumber r, [r])) <$> filter (fun r => rstatus r = success) all).
Proof.
  induction all as [|r all IH]; intros groups Hnd.
  - simpl. by rewrite app_nil_r.
  - cbn [fold_left]. rewrite filter_cons in *.
    destruct (decide (rstatus r = success)) as [Hs|Hs]; [|by apply IH].
    rewrite fmap_cons in Hnd.
    rewrite group_push_fresh.
    + rewrite IH.
      * rewrite fmap_cons, <- app_assoc. done.
      * rewrite fmap_app. simpl. rewrite <- app_assoc. done.
    + apply NoDup_app in Hnd as (_ & Hdisj & _).
      intros Hin. apply (Hdisj _ Hin). by left.
Qed.

(** X9.  When no two successful patches share a line, [resolveConflicts]
    consults no strategy: it returns the successful patches in their order,
    followed by the patches that are not successful, each as it was
    collected. *)
Theorem resolveConflicts_without_conflict
    (results : list JobResult) (sourceHtml strategy : string) :
  NoDup (lineNumber <$> filter (fun r => rstatus r = success) (collect results)) →
  resolveConflicts results sourceHtml strategy
  = (Patch <$> filter (fun r => rstatus r = success) (collect results))
    ++ (Patch <$> filter (fun r => rstatus r ≠ success) (collect results)).
Proof.
  intros Hnd. unfold resolveConflicts, passed_through. f_equal.
  unfold resolved_part, lineGroups.
  rewrite (lineGroups_distinct _ []) by done. simpl.
  generalize (filter (fun r => rstatus r = success) (collect results)).
  intros l. induction l as [|r l IH]; [done|].
  rewrite !fmap_cons. cbn [flat_map resolve_group]. by rewrite IH.
Qed.

(** ** [detectConflicts] *)

Lemma line_push_keys lineNum d lineMap (k : Z) :
  k ∈ fst <$> line_push lineNum d lineMap ↔ k = lineNum ∨ k ∈ fst <$> lineMap.
Proof.
  induction lineMap as [|[k' g] lineMap IH]; csimpl.
  - rewrite list_elem_of_singleton. split; [by left|]. intros [?|H]; [done|].
    by apply elem_of_nil in H.
  - destruct (decide (k' = lineNum)) as [->|Hne]; csimpl.
    + rewrite !elem_of_cons. tauto.
    + rewrite !elem_of_cons, IH. tauto.
Qed.

Lemma line_push_elem lineNum d lineMap k g :
  NoDup (fst <$> lineMap) →
  (k, g) ∈ line_push lineNum d lineMap →
  (k = lineNum ∧ ((∃ g0, (k, g0) ∈ lineMap ∧ g = g0 ++ [d])
                  ∨ ((lineNum ∉ fst <$> lineMap) ∧ g = [d])))
  ∨ (k ≠ lineNum ∧ (k, g) ∈ lineMap).
Proof.
  induction lineMap as [|[k' g'] lineMap IH]; cbn [line_push]; intros Hnd Hin.
  - apply list_elem_of_singleton in Hin. injection Hin as -> ->.
    left. split; [done|]. right. split; [apply not_elem_of_nil|done].
  - rewrite fmap_cons in Hnd. apply NoDup_cons in Hnd as [Hfresh Hnd]. simpl in Hfresh.
    destruct (decide (k' = lineNum)) as [->|Hne].
    + apply elem_of_cons in Hin as [Heq|Hin].
      * injection Heq as -> ->. left. split; [done|]. left.
        exists g'. split; [by left|done].
      * destruct (decide (k = lineNum)) as [->|Hk].
        -- exfalso. apply Hfresh. apply list_elem_of_fmap. by exists (lineNum, g).
        -- right. split; [done|by right].
    + apply elem_of_cons in Hin as [Heq|Hin].
      * injection Heq as -> ->. right. split; [done|by left].
      * destruct (IH Hnd Hin) as [[-> [(g0 & Hg0 & ->)|[Hfr ->]]]|[Hk Hin']].
        -- left. split; [done|]. left. exists g0. split; [by right|done].
        -- left. split; [done|]. right. split; [|done].
           rewrite fmap_cons. by apply not_elem_of_cons.
        -- right. split; [done|by right].
Qed.

Lemma line_push_NoDup lineNum d lineMap :
  NoDup (fst <$> lineMap) → NoDup (fst <$> line_push lineNum d lineMap).
Proof.
  induction lineMap as [|[k g] lineMap IH]; cbn [line_push]; intros Hnd.
  - apply NoDup_singleton.
  - rewrite fmap_cons in Hnd. apply NoDup_cons in Hnd as [Hfresh Hnd]. simpl in Hfresh.
    destruct (decide (k = lineNum)) as [->|Hne]; rewrite fmap_cons; apply NoDup_cons.
    + done.
    + split; [|by apply IH]. simpl. rewrite line_push_keys. intros [?|?]; done.
Qed.

Lemma line_push_ok (es : list (Z * Detected)) lineMap (e : Z * Detected) :
  lineMap_ok es lineMap →
  lineMap_ok (es ++ [e]) (line_push (fst e) (snd e) lineMap).
Proof.
  intros (Hnd & Hgroups & Hkeys). destruct e as [lineNum d]. simpl.
  split_and!.
  - by apply line_push_NoDup.
  - intros k g Hin. rewrite filter_app, fmap_app, filter_cons, filter_nil. simpl.
    destruct (line_push_elem _ _ _ _ _ Hnd Hin)
      as [[-> [(g0 & Hg0 & ->)|[Hfresh ->]]]|[Hk Hin']].
    + destruct (Hgroups _ _ Hg0) as [Hne ->]. rewrite decide_True by done.
      split; [by destruct (snd <$> _)|done].
    + rewrite decide_True by done. split; [done|].
      assert (Hnone : filter (fun e => fst e = lineNum) es = []).
      { destruct (filter (fun e => fst e = lineNum) es) as [|e l] eqn:Hf; [done|].
        assert (He : e ∈ filter (fun e => fst e = lineNum) es) by (rewrite Hf; by left).
        apply list_elem_of_filter in He as [Hx He].
        exfalso. apply Hfresh. rewrite <- Hx. by apply Hkeys. }
      by rewrite Hnone.
    + destruct (Hgroups _ _ Hin') as [Hne ->]. rewrite decide_False by done.
      simpl. by rewrite app_nil_r.
  - intros e He. apply line_push_keys. apply elem_of_app in He as [He|He].
    + right. by apply Hkeys.
    + apply list_elem_of_singleton in He as ->. by left.
Qed.

Lemma lineMap_of_ok (es : list (Z * Detected)) : lineMap_ok es (lineMap_of es).
Proof.
  induction es as [|e es IH] using rev_ind.
  - split_and!; [apply NoDup_nil_2| |]; intros *; intros H; by apply elem_of_nil in H.
  - unfold lineMap_of. rewrite fold_left_app. simpl. by apply line_push_ok.
Qed.

(** X10.  [detectConflicts] reports a line exactly when at least two
    remediations of the results, of whatever status, carry that non-zero line
    number: each line is reported once, with these remediations in their order
    and their number as [count]. *)
Theorem detectConflicts_reports_shared_lines (results : list JobResult) :
  NoDup (c_lineNumber <$> detectConflicts results) ∧
  (∀ c, c ∈ detectConflicts results →
        2 ≤ c_count c ∧
        c_count c = length (c_remediations c) ∧
        c_remediations c
        = snd <$> filter (fun e => fst e = c_lineNumber c) (detected results)) ∧
  (∀ z, 2 ≤ length (filter (fun e => fst e = z) (detected results)) →
        z ∈ c_lineNumber <$> detectConflicts results).
Proof.
  destruct (lineMap_of_ok (detected results)) as (Hnd & Hgroups & Hkeys).
  unfold detectConflicts. set (m := lineMap_of (detected results)) in *.
  split_and!.
  - clear Hgroups Hkeys. induction m as [|[k g] m IH]; [apply NoDup_nil_2|].
    rewrite fmap_cons in Hnd. apply NoDup_cons in Hnd as [Hfresh Hnd].
    csimpl. destruct (decide (1 < length g)); csimpl; [|by apply IH].
    apply NoDup_cons. split; [|by apply IH].
    intros Hin. apply Hfresh.
    apply list_elem_of_fmap in Hin as (c & -> & Hc).
    apply list_elem_of_omap in Hc as ([k' g'] & Hin' & Hc).
    simpl in Hc. destruct (decide (1 < length g')); [|done].
    injection Hc as <-. simpl. apply list_elem_of_fmap. by exists (k', g').
  - intros c Hc. apply list_elem_of_omap in Hc as ([k g] & Hin & Hc).
    simpl in Hc. destruct (decide (1 < length g)) as [Hlen|]; [|done].
    injection Hc as <-. simpl. split_and!; [lia|done|].
    by destruct (Hgroups _ _ Hin) as [_ ?].
  - intros z Hz.
    assert (Hex : ∃ e, e ∈ detected results ∧ fst e = z).
    { destruct (filter (fun e => fst e = z) (detected results)) as [|e l] eqn:Hf;
        [simpl in Hz; lia|].
      assert (He : e ∈ filter (fun e => fst e = z) (detected results))
        by (rewrite Hf; by left).
      apply list_elem_of_filter in He as [Hx He]. by exists e. }
    destruct Hex as (e & He & <-).
    specialize (Hkeys e He). apply list_elem_of_fmap in Hkeys as ([k g] & Hk & Hin).
    simpl in Hk. subst k.
    destruct (Hgroups _ _ Hin) as [_ Hg].
    apply list_elem_of_fmap.
    exists (mkConflict (fst e) (length g) g). split; [done|].
    apply list_elem_of_omap. exists (fst e, g). split; [done|]. simpl.
    rewrite decide_True; [done|]. rewrite Hg, length_fmap. lia.
Qed.

(** ** The rate limiter *)

Lemma total_requests_from (requests : list (Z * nat)) (n : nat) :
  fold_left (fun sum e => sum + snd e) requests n = n + total_requests requests.
Proof.
  unfold total_requests. revert n.
  induction requests as [|e requests IH]; intros n; simpl; [lia|].
  rewrite (IH (n + snd e)), (IH (snd e)). lia.
Qed.

Lemma total_requests_cons e (requests : list (Z * nat)) :
  total_requests (e :: requests) = snd e + total_requests requests.
Proof. unfold total_requests. simpl. by rewrite total_requests_from. Qed.

Lemma total_requests_get (k : Z) (requests : list (Z * nat)) :
  default 0 (requests_get k requests) ≤ total_requests requests.
Proof.
  unfold requests_get.
  induction requests as [|[k' v] requests IH]; [simpl; lia|].
  rewrite total_requests_cons. cbn [List.find fst snd].
  destruct (bool_decide (k' = k)); simpl in *; lia.
Qed.

Lemma total_requests_set (k : Z) (requests : list (Z * nat)) :
  total_requests (requests_set k (default 0 (requests_get k requests) + 1) requests)
  = total_requests requests + 1.
Proof.
  unfold requests_get.
  induction requests as [|[k' v] requests IH].
  - done.
  - cbn [requests_set List.find fst snd].
    destruct (decide (k' = k)) as [->|Hne].
    + rewrite bool_decide_true by done. rewrite !total_requests_cons. simpl. lia.
    + rewrite bool_decide_false by done. rewrite !total_requests_cons, IH. simpl. lia.
Qed.

Lemma requests_get_set (k : Z) (v : nat) (requests : list (Z * nat)) :
  requests_get k (requests_set k v requests) = Some v.
Proof.
  unfold requests_get.
  induction requests as [|[k' v'] requests IH]; cbn [requests_set].
  - cbn [List.find fst]. by rewrite bool_decide_true.
  - destruct (decide (k' = k)) as [->|Hne]; cbn [List.find fst].
    + by rewrite bool_decide_true.
    + by rewrite bool_decide_false.
Qed.

Lemma requests_get_set_ne (k k0 : Z) (v : nat) (requests : list (Z * nat)) :
  k0 ≠ k → requests_get k0 (requests_set k v requests) = requests_get k0 requests.
Proof.
  intros Hne. unfold requests_get.
  induction requests as [|[k' v'] requests IH]; cbn [requests_set].
  - cbn [List.find fst]. by rewrite bool_decide_false.
  - destruct (decide (k' = k)) as [->|Hne']; cbn [List.find fst].
    + by rewrite !bool_decide_false by done.
    + destruct (bool_decide (k' = k0)); [done|apply IH].
Qed.

Lemma requests_set_Forall (P : Z * nat → Prop) k v requests :
  P (k, v) → Forall P requests → Forall P (requests_set k v requests).
Proof.
  intros Hk. induction 1 as [|[k' v'] requests Hx Hall IH]; cbn [requests_set].
  - by apply Forall_singleton.
  - destruct (decide (k' = k)); apply Forall_cons; by split.
Qed.

Lemma requests_get_recent (now k : Z) (requests : list (Z * nat)) :
  ¬ (k < now - windowMs)%Z →
  requests_get k (recent now requests) = requests_get k requests.
Proof.
  intros Hk. unfold requests_get, recent.
  induction requests as [|[k' v] requests IH]; [done|].
  rewrite filter_cons. cbn [fst].
  destruct (decide (¬ (k' < now - windowMs)%Z)) as [Hin|Hout]; cbn [List.find fst].
  - destruct (bool_decide (k' = k)); [done|apply IH].
  - rewrite bool_decide_false; [apply IH|]. intros ->. done.
Qed.

Lemma requests_get_stale (now k : Z) (requests : list (Z * nat)) :
  (k < now - windowMs)%Z → requests_get k (recent now requests) = None.
Proof.
  intros Hk. unfold requests_get, recent.
  induction requests as [|[k' v] requests IH]; [done|].
  rewrite filter_cons. cbn [fst].
  destruct (decide (¬ (k' < now - windowMs)%Z)) as [Hin|Hout]; [|apply IH].
  cbn [List.find fst]. rewrite bool_decide_false; [apply IH|]. intros ->. done.
Qed.

Lemma minute_of_bounds (now : Z) :
  (minute_of now <= now < minute_of now + windowMs)%Z.
Proof.
  unfold minute_of, windowMs.
  pose proof (Z.mod_pos_bound now 60000 ltac:(lia)).
  pose proof (Z.div_mod now 60000 ltac:(lia)). lia.
Qed.

Lemma canMakeRequest_unfold (now : Z) (requests : list (Z * nat)) :
  canMakeRequest now requests
  = if decide (maxRequests ≤ total_requests (recent now requests))
    then (false, recent now requests)
    else (true, requests_set (minute_of now)
                  (default 0 (requests_get (minute_of now) (recent now requests)) + 1)
                  (recent now requests)).
Proof. reflexivity. Qed.

(** X11.  One call of [canMakeRequest] at time [now]: it lets the request
    through exactly when the buckets that are not older than the window hold
    fewer than sixty requests; the buckets it leaves hold those requests and,
    when it lets the request through, one more; none of them is older than
    the window. *)
Theorem canMakeRequest_accounting (now : Z) (requests : list (Z * nat)) :
  let allowed := fst (canMakeRequest now requests) in
  let requests' := snd (canMakeRequest now requests) in
  (allowed = true ↔ total_requests (recent now requests) < maxRequests) ∧
  total_requests requests'
  = total_requests (recent now requests) + (if allowed then 1 else 0) ∧
  total_requests requests' ≤ Nat.max maxRequests (total_requests requests) ∧
  Forall (fun e => (now - windowMs <= fst e)%Z) requests'.
Proof.
  cbn zeta. rewrite canMakeRequest_unfold.
  assert (Hle : total_requests (recent now requests) ≤ total_requests requests).
  { unfold recent. induction requests as [|e requests IH]; [done|].
    rewrite filter_cons. destruct (decide _); rewrite !total_requests_cons; lia. }
  assert (Hrecent : Forall (fun e : Z * nat => (now - windowMs <= fst e)%Z)
                           (recent now requests)).
  { apply Forall_forall. intros e He. apply list_elem_of_filter in He as [He _]. lia. }
  destruct (decide (maxRequests ≤ total_requests (recent now requests))) as [Hfull|Hroom];
    cbn [fst snd].
  - split_and!; [split; [done|lia]|lia|lia|done].
  - rewrite total_requests_set. split_and!; [split; [lia|done]|done|lia|].
    apply requests_set_Forall; [|done]. cbn [fst].
    pose proof (minute_of_bounds now). lia.
Qed.

Lemma limiter_run_cons (now : Z) (times : list Z) (requests : list (Z * nat)) :
  fst (limiter_run (now :: times) requests)
  = (now, fst (canMakeRequest now requests))
      :: fst (limiter_run times (snd (canMakeRequest now requests))).
Proof.
  cbn [limiter_run]. destruct (canMakeRequest now requests) as [allowed requests'].
  cbn [fst snd]. by destruct (limiter_run times requests').
Qed.

Lemma granted_in_cons (minute now : Z) (allowed : bool) (log : list (Z * bool)) :
  granted_in minute ((now, allowed) :: log)
  = (if decide (minute_of now = minute ∧ allowed = true) then 1 else 0)
    + granted_in minute log.
Proof.
  unfold granted_in. rewrite filter_cons. cbn [fst snd].
  by destruct (decide (minute_of now = minute ∧ allowed = true)).
Qed.

Lemma granted_in_other (minute : Z) (times : list Z) : ∀ requests,
  Forall (fun t => minute_of t ≠ minute) times →
  granted_in minute (fst (limiter_run times requests)) = 0.
Proof.
  induction times as [|now times IH]; intros requests Hall; [done|].
  apply Forall_cons in Hall as [Hnow Hall].
  rewrite limiter_run_cons, granted_in_cons, IH by done.
  rewrite decide_False; [done|]. by intros [? _].
Qed.

Lemma granted_in_bound (minute : Z) (times : list Z) : ∀ requests,
  StronglySorted Z.le times →
  granted_in minute (fst (limiter_run times requests))
  ≤ maxRequests - default 0 (requests_get minute requests).
Proof.
  induction times as [|now times IH]; intros requests Hsorted; [apply Nat.le_0_l|].
  apply StronglySorted_inv in Hsorted as [Hsorted Hnow].
  rewrite limiter_run_cons, granted_in_cons.
  pose proof (minute_of_bounds now) as Hb.
  specialize (IH (snd (canMakeRequest now requests)) Hsorted).
  rewrite canMakeRequest_unfold in *.
  destruct (decide (minute < now - windowMs)%Z) as [Hstale|Hkept].
  - rewrite granted_in_other.
    + rewrite decide_False; [lia|]. intros [<- _]. unfold windowMs in *. lia.
    + eapply Forall_impl; [exact Hnow|]. intros t Ht <-.
      pose proof (minute_of_bounds t). unfold windowMs in *. lia.
  - pose proof (requests_get_recent now minute requests Hkept) as Hget.
    pose proof (total_requests_get minute (recent now requests)) as Hc.
    rewrite Hget in Hc.
    destruct (decide (maxRequests ≤ total_requests (recent now requests)))
      as [Hfull|Hroom]; cbn [fst snd] in *.
    + rewrite Hget in IH. rewrite decide_False by (by intros [_ ?]). lia.
    + destruct (decide (minute_of now = minute)) as [Heq|Hne].
      * rewrite Heq in *. rewrite requests_get_set in IH.
        change (default 0 (Some ?v)) with v in IH.
        rewrite Hget in *. rewrite decide_True by done. unfold maxRequests in *. lia.
      * rewrite requests_get_set_ne, Hget in IH by done.
        rewrite decide_False by (by intros [? _]). lia.
Qed.

(** X12.  Under a clock that does not go back, one limiter lets through at
    most sixty of the calls that fall in any one calendar minute, whatever
    it held before. *)
Theorem canMakeRequest_sixty_per_calendar_minute
    (times : list Z) (requests : list (Z * nat)) (minute : Z) :
  Sorted Z.le times →
  granted_in minute (fst (limiter_run times requests)) ≤ maxRequests.
Proof.
  intros Hsorted. apply Sorted_StronglySorted in Hsorted; [|intros x y z; lia].
  pose proof (granted_in_bound minute times requests Hsorted). lia.
Qed.

Lemma canMakeRequest_sixty_per_calendar_minute_witness :
  granted_in 120000 (fst (limiter_run (replicate 61 120500%Z) [])) ≤ maxRequests.
Proof.
  apply canMakeRequest_sixty_per_calendar_minute.
  repeat (apply Sorted_cons; [|first [apply HdRel_nil | apply HdRel_cons; lia]]).
  apply Sorted_nil.
Defined.

(** ** [processIssueType] *)



(** ** [applyRemediations]: what is applied *)

Lemma line_index_length (lines lines' : list string) (r : Remediation) :
  length lines = length lines' → line_index lines r = line_index lines' r.
Proof. intros Hlen. unfold line_index. by rewrite Hlen. Qed.

Lemma on_line_length (lines lines' : list string) (r : Remediation) :
  length lines = length lines' → on_line lines r ↔ on_line lines' r.
Proof. intros Hlen. unfold on_line. by rewrite (line_index_length _ _ _ Hlen). Qed.

Lemma fold_apply_counts (rs : list Remediation) : ∀ lines applied errs,
  let out := fold_left apply_one rs (lines, applied, errs) in
  length (fst (fst out)) = length lines ∧
  snd (fst out) = applied + length (filter (on_line lines) rs) ∧
  length (snd out) = length errs + length (filter (fun r => ¬ on_line lines r) rs).
Proof.
  induction rs as [|r rs IH]; intros lines applied errs; cbn zeta.
  - cbn [fold_left fst snd]. rewrite !filter_nil. simpl. lia.
  - cbn [fold_left]. rewrite !filter_cons.
    remember (apply_one (lines, applied, errs) r) as acc eqn:Hacc.
    unfold apply_one in Hacc.
    destruct (line_index lines r) as [i|] eqn:Hi; subst acc.
    + specialize (IH (<[i:=default "" (afterCode r)]> lines) (S applied) errs).
      cbn zeta in IH. destruct IH as (Hlen & Happlied & Herrs).
      rewrite length_insert in Hlen.
      assert (Hsame : ∀ r', on_line (<[i:=default "" (afterCode r)]> lines) r'
                            ↔ on_line lines r').
      { intros r'. apply on_line_length. by rewrite length_insert. }
      rewrite (list_filter_iff _ _ _ Hsame) in Happlied.
      rewrite (list_filter_iff (fun r' => ¬ on_line (<[i:=_]> lines) r')
                               (fun r' => ¬ on_line lines r')) in Herrs
        by (intros r'; by rewrite Hsame).
      rewrite decide_True by (unfold on_line; by rewrite Hi).
      rewrite decide_False by (unfold on_line; rewrite Hi; by intros H; apply H).
      simpl. split_and!; [done|lia|lia].
    + specialize (IH lines applied
                     (errs ++ ["Invalid line number: " +:+
                               match lineNumber r with
                               | Some z => pretty z
                               | None => "undefined"
                               end])).
      cbn zeta in IH. destruct IH as (Hlen & Happlied & Herrs).
      rewrite length_app in Herrs.
      rewrite decide_False by (unfold on_line; rewrite Hi; by intros [? ?]).
      rewrite decide_True by (unfold on_line; rewrite Hi; by intros [? ?]).
      simpl in *. split_and!; [done|lia|lia].
Qed.

Lemma applyRemediations_counts_of (sourceHtml : string) (remediations : list Remediation) :
  let out := applyRemediations sourceHtml remediations in
  let lines := split_lines sourceHtml in
  totalRemediations out
  = length (filter (fun r => rstatus r = success) remediations) ∧
  appliedCount out
  = length (filter (fun r => on_line lines r ∧ rstatus r = success) remediations) ∧
  length (errors out)
  = length (filter (fun r => ¬ on_line lines r ∧ rstatus r = success) remediations).
Proof.
  cbn zeta. unfold applyRemediations.
  set (sortedRemediations :=
         js_sort line_after (filter (fun r => rstatus r = success) remediations)).
  pose proof (fold_apply_counts sortedRemediations (split_lines sourceHtml) 0 []) as Hc.
  cbn zeta in Hc.
  destruct (fold_left apply_one sortedRemediations (split_lines sourceHtml, 0, []))
    as [[lines' applied] errs].
  cbn [fst snd modifiedHtml appliedCount errors totalRemediations] in *.
  destruct Hc as (_ & Ha & He). simpl in Ha, He.
  assert (Hperm : sortedRemediations ≡ₚ filter (fun r => rstatus r = success) remediations)
    by apply js_sort_perm.
  split_and!; [by rewrite Hperm| |].
  - by rewrite Ha, Hperm, list_filter_filter.
  - by rewrite He, Hperm, list_filter_filter.
Qed.

(** X14.  [applyRemediations] considers the successful remediations only:
    [totalRemediations] is their number, [appliedCount] the number of those
    whose line number is that of a line of the source, and there is one
    error for each of the others; so the two add up to [totalRemediations]. *)
Theorem applyRemediations_counts (sourceHtml : string) (remediations : list Remediation) :
  let out := applyRemediations sourceHtml remediations in
  let lines := split_lines sourceHtml in
  totalRemediations out
  = length (filter (fun r => rstatus r = success) remediations) ∧
  appliedCount out
  = length (filter (fun r => on_line lines r ∧ rstatus r = success) remediations) ∧
  length (errors out)
  = length (filter (fun r => ¬ on_line lines r ∧ rstatus r = success) remediations) ∧
  appliedCount out + length (errors out) = totalRemediations out.
Proof.
  cbn zeta.
  destruct (applyRemediations_counts_of sourceHtml remediations) as (Ht & Ha & He).
  cbn zeta in *. split_and!; [done..|].
  rewrite Ht, Ha, He, <- !list_filter_filter, <- length_app.
  by rewrite filter_app_complement.
Qed.

Lemma apply_one_length acc r :
  length (fst (fst (apply_one acc r))) = length (fst (fst acc)).
Proof.
  destruct acc as [[lines applied] errs]. unfold apply_one.
  destruct (line_index lines r); cbn [fst]; [by rewrite length_insert|done].
Qed.

(** The lines of [modifiedHtml] are the array the loop leaves, when no
    applied text holds a line break. *)
Lemma applyRemediations_lines (sourceHtml : string) (remediations : list Remediation) :
  (∀ r z a, r ∈ remediations → applies_to sourceHtml r z →
            afterCode r = Some a → has_newline a = false) →
  split_lines (modifiedHtml (applyRemediations sourceHtml remediations))
  = fst (fst (fold_left apply_one
                (js_sort line_after (filter (fun r => rstatus r = success) remediations))
                (split_lines sourceHtml, 0, []))).
Proof.
  intros one_line. unfold applyRemediations.
  set (sortedRemediations :=
         js_sort line_after (filter (fun r => rstatus r = success) remediations)).
  pose proof (fold_apply_kept sourceHtml remediations one_line sortedRemediations
                (split_lines sourceHtml, 0, [])) as Hk.
  destruct (fold_left apply_one sortedRemediations (split_lines sourceHtml, 0, []))
    as [[lines' applied] errs].
  destruct Hk as (Hlen & Hnl & _).
  - intros r Hr. unfold sortedRemediations in Hr.
    rewrite js_sort_perm in Hr. by apply list_elem_of_filter in Hr as [? ?].
  - split_and!; [done|apply split_lines_no_newline|done].
  - cbn [modifiedHtml fst] in *. apply split_join; [|done].
    pose proof (split_lines_length sourceHtml) as Hpos.
    destruct lines'; simpl in *; [lia|done].
Qed.

Lemma fold_apply_target (k : nat) (a : string) (rs : list Remediation) : ∀ acc,
  k < length (fst (fst acc)) →
  (∀ r, r ∈ rs → lineNumber r = Some (Z.of_nat k + 1)%Z → default "" (afterCode r) = a) →
  (fst (fst acc) !! k = Some a
   ∨ ∃ r, r ∈ rs ∧ lineNumber r = Some (Z.of_nat k + 1)%Z) →
  fst (fst (fold_left apply_one rs acc)) !! k = Some a.
Proof.
  induction rs as [|r rs IH]; intros acc Hk Hagree Hor.
  - destruct Hor as [?|(r & Hin & _)]; [done|]. by apply elem_of_nil in Hin.
  - cbn [fold_left]. apply IH.
    + by rewrite apply_one_length.
    + intros r' Hr'. apply Hagree. by right.
    + destruct acc as [[lines applied] errs]. cbn [fst] in *.
      unfold apply_one, line_index.
      destruct (lineNumber r) as [z|] eqn:Hz.
      * destruct (decide (0 ≤ z - 1 < Z.of_nat (length lines))%Z) as [Hrange|Hout];
          cbn [fst].
        -- destruct (decide (Z.to_nat (z - 1) = k)) as [Heq|Hne].
           ++ left. subst k. rewrite list_lookup_insert_eq by lia. f_equal.
              apply Hagree; [by left|]. rewrite Hz. f_equal. lia.
           ++ rewrite list_lookup_insert_ne by done.
              destruct Hor as [?|(r' & Hin & Hr')]; [by left|].
              apply elem_of_cons in Hin as [->|Hin].
              ** rewrite Hz in Hr'. injection Hr' as ->. lia.
              ** right. by exists r'.
        -- destruct Hor as [?|(r' & Hin & Hr')]; [by left|].
           apply elem_of_cons in Hin as [->|Hin].
           ** rewrite Hz in Hr'. injection Hr' as ->. lia.
           ** right. by exists r'.
      * cbn [fst]. destruct Hor as [?|(r' & Hin & Hr')]; [by left|].
        apply elem_of_cons in Hin as [->|Hin].
        -- by rewrite Hz in Hr'.
        -- right. by exists r'.
Qed.

(** X15.  When no applied text holds a line break, a line that a
    successful remediation targets, and for which all successful remediations
    that target it propose the same text, is that text in [modifiedHtml],
    whatever else is applied. *)
Theorem applyRemediations_writes_agreed_line
    (sourceHtml : string) (remediations : list Remediation) (k : nat) (r : Remediation) :
  (∀ r z a, r ∈ remediations → applies_to sourceHtml r z →
            afterCode r = Some a → has_newline a = false) →
  r ∈ remediations → applies_to sourceHtml r (Z.of_nat k + 1) →
  (∀ r', r' ∈ remediations → rstatus r' = success →
         lineNumber r' = Some (Z.of_nat k + 1)%Z → afterCode r' = afterCode r) →
  split_lines (modifiedHtml (applyRemediations sourceHtml remediations)) !! k
  = Some (default "" (afterCode r)).
Proof.
  intros one_line Hin (Hs & Hz & Hrange) Hagree.
  rewrite applyRemediations_lines by done.
  assert (Hmem : ∀ r', r' ∈ js_sort line_after
                              (filter (fun r => rstatus r = success) remediations)
                       ↔ r' ∈ remediations ∧ rstatus r' = success).
  { intros r'. rewrite js_sort_perm, list_elem_of_filter. tauto. }
  apply fold_apply_target.
  - cbn [fst]. lia.
  - intros r' Hr' Hz'. apply Hmem in Hr' as [Hr' Hs']. by rewrite (Hagree r').
  - right. exists r. split; [|done]. by apply Hmem.
Qed.

Lemma applyRemediations_writes_agreed_line_witness :
  split_lines (modifiedHtml (applyRemediations (String "a" (String newline "b"))
                                               [patch_alt; patch_far])) !! 0
  = Some (default "" (afterCode patch_alt)).
Proof.
  apply (applyRemediations_writes_agreed_line _ _ 0 patch_alt).
  - intros r z a Hr _ Ha.
    apply elem_of_cons in Hr as [->|Hr]; [|apply list_elem_of_singleton in Hr as ->];
      injection Ha as <-; reflexivity.
  - by left.
  - split; [done|]. split; [done|]. vm_compute. split; discriminate.
  - intros r' Hr' _ Hz.
    apply elem_of_cons in Hr' as [->|Hr']; [done|].
    apply list_elem_of_singleton in Hr' as ->. discriminate Hz.
Defined.

(** ** [validateRemediations], and [applyRemediations] after it *)

Lemma validate_one_success trim lines r v :
  validate_one trim lines r = Some v → rstatus (v_remediation v) = success →
  v_remediation v = r ∧ on_line lines r ∧
  ∃ z line before,
    lineNumber r = Some z ∧ line_at lines (Some z) = Some line ∧
    beforeCode r = Some before ∧ trim line = trim before.
Proof.
  unfold validate_one. intros Hv Hs.
  destruct (decide (rstatus r ≠ success)) as [Hne|Heq].
  { injection Hv as <-. done. }
  destruct (lineNumber r) as [z|] eqn:Hz; [|done].
  destruct (decide (z - 1 < 0 ∨ Z.of_nat (length lines) ≤ z - 1)%Z) as [Hout|Hin].
  { injection Hv as <-. done. }
  destruct (lines !! Z.to_nat (z - 1)) as [line|] eqn:Hline; [|done].
  destruct (beforeCode r) as [before|] eqn:Hb; [|done].
  destruct (decide (trim line ≠ trim before)) as [Hdiff|Hsame].
  { injection Hv as <-. done. }
  injection Hv as <-. split_and!; [done| |].
  - unfold on_line, line_index. rewrite Hz.
    rewrite decide_True by lia. by eexists.
  - exists z, line, before. split_and!; [done| |done|].
    + unfold line_at. by rewrite decide_True by lia.
    + by destruct (decide (trim line = trim before)); [|exfalso; apply Hsame].
Qed.

Lemma Forall2_elem_of_r {A B : Type} (R : A → B → Prop) (l : list A) (k : list B) y :
  Forall2 R l k → y ∈ k → ∃ x, x ∈ l ∧ R x y.
Proof.
  induction 1 as [|x y' l k Hxy _ IH]; intros Hy.
  - by apply elem_of_nil in Hy.
  - apply elem_of_cons in Hy as [->|Hy].
    + exists x. split; [by left|done].
    + destruct (IH Hy) as (x' & Hx' & HR). exists x'. split; [by right|done].
Qed.

(** X16.  Where [validateRemediations] returns, [applyRemediations] on the
    remediations it leaves reports no error and applies every remediation it
    counts: each of them is one of the given remediations, unchanged, names a
    line of the source, and has a [beforeCode] equal to that line up to
    [trim]. *)
Theorem validateRemediations_then_applyRemediations
    (trim : string → string) (sourceHtml : string)
    (remediations : list Remediation) (out : list Validated) :
  validateRemediations trim sourceHtml remediations = Some out →
  let validated := v_remediation <$> out in
  let application := applyRemediations sourceHtml validated in
  length out = length remediations ∧
  (∀ r, r ∈ validated → rstatus r = success →
        r ∈ remediations ∧
        ∃ z line before,
          lineNumber r = Some z ∧ line_at (split_lines sourceHtml) (Some z) = Some line ∧
          beforeCode r = Some before ∧ trim line = trim before) ∧
  errors application = [] ∧
  appliedCount application = totalRemediations application ∧
  totalRemediations application
  = length (filter (fun r => rstatus r = success) validated).
Proof.
  unfold validateRemediations. intros Hout. cbn zeta.
  pose proof (length_mapM _ _ _ Hout) as Hlen. symmetry in Hlen.
  apply mapM_Some in Hout.
  assert (Hvalid : ∀ r, r ∈ v_remediation <$> out → rstatus r = success →
                        r ∈ remediations ∧ on_line (split_lines sourceHtml) r ∧
                        ∃ z line before,
                          lineNumber r = Some z ∧
                          line_at (split_lines sourceHtml) (Some z) = Some line ∧
                          beforeCode r = Some before ∧ trim line = trim before).
  { intros r Hr Hs. apply list_elem_of_fmap in Hr as (v & -> & Hv).
    destruct (Forall2_elem_of_r _ _ _ _ Hout Hv) as (r0 & Hr0 & Hone).
    destruct (validate_one_success _ _ _ _ Hone Hs) as (Heq & Hon & Hline).
    rewrite Heq. by split_and!. }
  pose proof (applyRemediations_counts_of sourceHtml (v_remediation <$> out))
    as (Htotal & Happlied & Herrors).
  assert (Hnone : filter (fun r => ¬ on_line (split_lines sourceHtml) r
                                   ∧ rstatus r = success) (v_remediation <$> out) = []).
  { apply filter_none, Forall_forall. intros r Hr [Hoff Hs].
    by destruct (Hvalid r Hr Hs) as (_ & Hon & _). }
  rewrite Hnone in Herrors. simpl in Herrors.
  split_and!.
  - done.
  - intros r Hr Hs. destruct (Hvalid r Hr Hs) as (? & _ & ?). by split.
  - by apply length_zero_iff_nil.
  - cbn zeta in *. rewrite Happlied, Htotal. f_equal.
    apply filter_ext_Forall, Forall_forall. intros r Hr. split; [by intros [_ ?]|].
    intros Hs. by destruct (Hvalid r Hr Hs) as (_ & Hon & _).
  - done.
Qed.

Lemma validateRemediations_then_applyRemediations_witness :
  errors (applyRemediations original_img (v_remediation <$> validated_alt_far)) = [] ∧
  totalRemediations (applyRemediations original_img (v_remediation <$> validated_alt_far))
  = 1.
Proof.
  destruct (validateRemediations_then_applyRemediations
              trim_none original_img [patch_alt; patch_far] validated_alt_far)
    as (_ & _ & Herrors & _ & Htotal).
  - vm_compute. reflexivity.
  - split; [exact Herrors|]. rewrite Htotal. vm_compute. reflexivity.
Defined.

Lemma applyRemediations_kept (sourceHtml : string) (remediations : list Remediation) :
  (∀ r z a, r ∈ remediations → applies_to sourceHtml r z →
            afterCode r = Some a → has_newline a = false) →
  lines_kept sourceHtml remediations
    (split_lines (modifiedHtml (applyRemediations sourceHtml remediations))).
Proof.
  intros one_line. rewrite applyRemediations_lines by done.
  apply fold_apply_kept; [done| |].
  - intros r Hr. rewrite js_sort_perm in Hr. by apply list_elem_of_filter in Hr as [? ?].
  - split_and!; [done|apply split_lines_no_newline|done].
Qed.

(** ** [applyRemediations] after [resolveConflicts] *)

Lemma merge_loop_applied (l : list Remediation) : ∀ line applied,
  (applied ≠ [] ∨ ∃ r, r ∈ l ∧ is_Some (afterCode r)) →
  snd (merge_loop l line applied) ≠ [].
Proof.
  induction l as [|r l IH]; intros line applied Hor.
  - destruct Hor as [?|(r & Hin & _)]; [done|]. by apply elem_of_nil in Hin.
  - cbn [merge_loop].
    destruct (attemptMerge line r applied) as [result|] eqn:Hmerge.
    + apply IH. left. by destruct applied.
    + apply IH. destruct Hor as [?|(r' & Hin & Ha)]; [by left|].
      apply elem_of_cons in Hin as [->|Hin]; [|right; by exists r'].
      left. intros ->. destruct Ha as [a Ha].
      unfold attemptMerge, hasAttributeConflict in Hmerge. rewrite Ha in Hmerge.
      cbn [forallb negb] in Hmerge. by destruct (includes a "=").
Qed.

Lemma mergeRemediations_merged (g : list Remediation) (originalLine : option string) :
  (∃ r, r ∈ g ∧ is_Some (afterCode r)) →
  ∃ m base, mergeRemediations g originalLine = Some m ∧ rstatus m = merged ∧
            base ∈ g ∧ lineNumber m = lineNumber base.
Proof.
  intros (r & Hr & Ha). unfold mergeRemediations.
  pose proof (js_sort_perm
                (fun a b => negb (Qle_bool (confidence_or_half b) (confidence_or_half a)))
                g) as Hperm.
  fold (by_confidence g) in Hperm.
  pose proof (merge_loop_applied (by_confidence g) originalLine []) as Happlied.
  destruct (merge_loop (by_confidence g) originalLine []) as [mergedLine applied].
  cbn [snd] in Happlied.
  destruct applied as [|first applied].
  { exfalso. apply Happlied; [|done]. right. exists r. by rewrite Hperm. }
  destruct (by_confidence g) as [|base sorted].
  { apply Permutation_nil_l in Hperm. subst g. by apply elem_of_nil in Hr. }
  eexists _, base. split_and!; [done|done| |done].
  rewrite <- Hperm. by left.
Qed.

(** X17.  Under the merge strategy the resolver answers a line on which
    two or more successful patches meet, one of them with a new text, by one
    entry of status [merged], and [applyRemediations], which applies
    successful entries only, leaves that line of the source as it was. *)
Theorem merged_conflict_is_not_applied
    (results : list JobResult) (sourceHtml : string) (k : nat) :
  let z := (Z.of_nat k + 1)%Z in
  let resolved := as_remediation <$> resolveConflicts results sourceHtml "merge" in
  (∀ r z a, r ∈ resolved → applies_to sourceHtml r z →
            afterCode r = Some a → has_newline a = false) →
  2 ≤ length (filter (fun r => rstatus r = success ∧ lineNumber r = Some z)
                     (collect results)) →
  (∃ r, r ∈ collect results ∧ rstatus r = success ∧ lineNumber r = Some z ∧
        is_Some (afterCode r)) →
  (∃ m, Patch m ∈ resolveConflicts results sourceHtml "merge" ∧
        rstatus m = merged ∧ lineNumber m = Some z) ∧
  split_lines (modifiedHtml (applyRemediations sourceHtml resolved)) !! k
  = split_lines sourceHtml !! k.
Proof.
  cbn zeta. intros one_line Htwo (r0 & Hr0 & Hs0 & Hz0 & Ha0).
  set (z := (Z.of_nat k + 1)%Z) in *.
  destruct (lineGroups_ok (collect results)) as [[Hnd Hall] Hkeys].
  rewrite Forall_forall in Hall.
  (* the group of line [z] resolves to a merged entry *)
  assert (Hgroup : ∀ g, (Some z, g) ∈ lineGroups (collect results) →
            ∃ m, resolve_group "merge" (split_lines sourceHtml) (Some z, g) = [Patch m] ∧
                 rstatus m = merged ∧ lineNumber m = Some z).
  { intros g Hg. pose proof (lineGroups_content _ _ _ Hg) as Hcontent.
    destruct (mergeRemediations_merged g (line_at (split_lines sourceHtml) (Some z)))
      as (m & base & Hm & Hstatus & Hbase & Hline).
    { exists r0. split; [|done]. rewrite Hcontent. by apply list_elem_of_filter. }
    exists m. split_and!; [|done|].
    - cbn [resolve_group]. rewrite <- Hcontent in Htwo.
      destruct g as [|r1 [|r2 g]]; [simpl in Htwo; lia..|].
      unfold applyConflictResolution.
      rewrite decide_False by done. rewrite decide_True by done.
      by rewrite Hm.
    - rewrite Hline. destruct (Hall _ Hg) as [_ Hg']. cbn [fst snd] in Hg'.
      rewrite Forall_forall in Hg'. by apply Hg'. }
  assert (Hkey : Some z ∈ fst <$> lineGroups (collect results)).
  { rewrite <- Hz0. by apply Hkeys. }
  apply list_elem_of_fmap in Hkey as ([k0 g0] & Hk0 & Hg0). simpl in Hk0. subst k0.
  split.
  - destruct (Hgroup g0 Hg0) as (m & Hres & Hstatus & Hline).
    exists m. split_and!; [|done|done].
    unfold resolveConflicts, resolved_part. apply elem_of_app. left.
    apply list_elem_of_In, in_flat_map. exists (Some z, g0).
    split; [by apply list_elem_of_In|]. rewrite Hres. by left.
  - pose proof (applyRemediations_kept sourceHtml _ one_line) as (_ & _ & Hframe).
    apply Hframe. intros (r & Hr & Hs & Hz & _). fold z in Hz.
    apply list_elem_of_fmap in Hr as (x & -> & Hx).
    unfold resolveConflicts in Hx. apply elem_of_app in Hx as [Hx|Hx].
    + unfold resolved_part in Hx.
      apply list_elem_of_In, in_flat_map in Hx as ([k1 g1] & Hg1 & Hx).
      apply list_elem_of_In in Hg1, Hx.
      destruct (decide (k1 = Some z)) as [->|Hne].
      * destruct (Hgroup g1 Hg1) as (m & Hres & Hstatus & _).
        rewrite Hres in Hx. apply list_elem_of_singleton in Hx as ->.
        simpl in Hs. congruence.
      * destruct (resolve_group_line "merge" (split_lines sourceHtml) k1 g1 (Hall _ Hg1))
          as (x' & Hres & _ & Hpatch).
        destruct Hpatch as [Hline (p & -> & _)]; [done|].
        rewrite Hres in Hx. apply list_elem_of_singleton in Hx as ->.
        simpl in *. congruence.
    + unfold passed_through in Hx.
      apply list_elem_of_fmap in Hx as (p & -> & Hp).
      apply list_elem_of_filter in Hp as [Hp _]. done.
Qed.

Lemma merged_conflict_is_not_applied_witness :
  split_lines (modifiedHtml
                 (applyRemediations original_img
                    (as_remediation
                       <$> resolveConflicts results_two_on_line_1 original_img "merge")))
    !! 0
  = split_lines original_img !! 0.
Proof.
  apply (merged_conflict_is_not_applied results_two_on_line_1 original_img 0).
  - intros r z a Hr [Hs _] _. vm_compute in Hr.
    apply list_elem_of_singleton in Hr as ->. discriminate Hs.
  - vm_compute. lia.
  - exists (tag (mkJobResult "job-0" (Some "1.1.1") success None []) patch_alt).
    split_and!; [|done|done|by eexists].
    unfold collect, results_two_on_line_1. simpl. by left.
Defined.

(** ** From [findDependencies] to [executeJobs] *)

Lemma pushed_for_criterion (issue otherIssue : Issue) (t : string) :
  t ∈ pushed_for issue otherIssue → criterion otherIssue = Some t.
Proof.
  unfold pushed_for. destruct (criterion otherIssue) as [other|].
  - intros Hin.
    repeat (apply elem_of_app in Hin as [Hin|Hin]);
      match type of Hin with
      | _ ∈ (if ?b then _ else _) => destruct b
      end;
      first [by apply elem_of_nil in Hin
            |by apply list_elem_of_singleton in Hin as ->].
  - intros Hin. by apply elem_of_nil in Hin.
Qed.

Lemma elem_of_concat {A : Type} (x : A) (ls : list (list A)) :
  x ∈ concat ls ↔ ∃ l, x ∈ l ∧ l ∈ ls.
Proof.
  rewrite list_elem_of_In, in_concat. split.
  - intros (l & Hl & Hx). exists l. by rewrite !list_elem_of_In.
  - intros (l & Hx & Hl). exists l. by rewrite <- !list_elem_of_In.
Qed.

Lemma findDependencies_elem (index : nat) (issue : Issue) (allIssues : list Issue)
    (t : string) :
  t ∈ findDependencies index issue allIssues ↔
  ∃ j otherIssue, allIssues !! j = Some otherIssue ∧ j ≠ index ∧
                  t ∈ pushed_for issue otherIssue.
Proof.
  unfold findDependencies. rewrite elem_of_concat. split.
  - intros (l & Ht & Hl). apply elem_of_lookup_imap_1 in Hl as (j & other & -> & Hj).
    destruct (decide (j = index)); [by apply elem_of_nil in Ht|].
    by exists j, other.
  - intros (j & other & Hj & Hne & Ht).
    exists (pushed_for issue other). split; [done|].
    pose proof (elem_of_lookup_imap_2
                  (fun j otherIssue =>
                     if decide (j = index) then [] else pushed_for issue otherIssue)
                  allIssues other j Hj) as Hin.
    cbn beta in Hin. by rewrite decide_False in Hin.
Qed.

(** X18.  [findDependencies] names criteria of other issues only, and
    [createJobs] types a Job by the [type] of its issue where there is one.
    So when the issues are not grouped, each has a [type] that is no
    criterion of the list, and one of them is given a dependency, then in
    whatever order the issues are passed on, no Job ever has the type the
    dependency asks for, and [executeJobs] does not return. *)
Theorem ungrouped_typed_issues_never_return
    (cfg : Config) (env : Env) (issues : list Issue) (processedIssues : list Prepared) :
  processedIssues ≡ₚ prepared_ungrouped issues →
  (∀ issue, issue ∈ issues →
            ∃ t, truthy (itype issue) = Some t ∧ Some t ∉ criterion <$> issues) →
  (∃ index issue, issues !! index = Some issue ∧
                  findDependencies index issue issues ≠ []) →
  (∀ index issue t, issues !! index = Some issue →
                    t ∈ findDependencies index issue issues →
                    ∃ j otherIssue, issues !! j = Some otherIssue ∧ j ≠ index ∧
                                    criterion otherIssue = Some t) ∧
  ∀ fuel, executeJobs fuel cfg env (createJobs cfg processedIssues) = None.
Proof.
  intros Hperm Htyped (index & issue & Hissue & Hdeps).
  assert (Hnames : ∀ index issue t, issues !! index = Some issue →
                     t ∈ findDependencies index issue issues →
                     ∃ j otherIssue, issues !! j = Some otherIssue ∧ j ≠ index ∧
                                     criterion otherIssue = Some t).
  { intros i0 issue0 t _ Ht. apply findDependencies_elem in Ht as (j & other & Hj & Hne & Ht).
    exists j, other. split_and!; [done..|]. by eapply pushed_for_criterion. }
  split; [done|].
  destruct (findDependencies index issue issues) as [|t deps] eqn:Hfind; [done|].
  destruct (Hnames index issue t Hissue) as (j & other & Hj & _ & Hcrit).
  { rewrite Hfind. by left. }
  set (p0 := mkPrepared (itype issue) (criterion issue) (title issue) None
                        (Some (t :: deps))).
  assert (Hp0 : p0 ∈ processedIssues).
  { rewrite Hperm. unfold prepared_ungrouped, p0. rewrite <- Hfind.
    by apply (elem_of_lookup_imap_2
                (fun index issue =>
                   mkPrepared (itype issue) (criterion issue) (title issue) None
                              (Some (findDependencies index issue issues)))). }
  apply list_elem_of_lookup in Hp0 as [i0 Hi0].
  apply (absent_dependency_never_returns cfg env _ (createJob cfg i0 p0) t).
  - apply createJobs_ids_distinct.
  - by apply (elem_of_lookup_imap_2 (createJob cfg)).
  - cbn. by left.
  - intros Hin. apply list_elem_of_fmap in Hin as (job & Htype & Hjob).
    apply elem_of_lookup_imap_1 in Hjob as (i1 & p1 & -> & Hp1).
    assert (Hin1 : p1 ∈ prepared_ungrouped issues).
    { rewrite <- Hperm. by eapply list_elem_of_lookup_2. }
    apply elem_of_lookup_imap_1 in Hin1 as (i2 & issue2 & -> & Hissue2).
    destruct (Htyped issue2) as (t2 & Ht2 & Hfresh).
    { by eapply list_elem_of_lookup_2. }
    cbn in Htype. rewrite Ht2 in Htype. cbn in Htype. subst t2.
    apply Hfresh. rewrite <- Hcrit. apply list_elem_of_fmap_2.
    by eapply list_elem_of_lookup_2.
Qed.

Lemma ungrouped_typed_issues_never_return_witness :
  (∀ index issue t,
     issues_alt_lang !! index = Some issue →
     t ∈ findDependencies index issue issues_alt_lang →
     ∃ j otherIssue, issues_alt_lang !! j = Some otherIssue ∧ j ≠ index ∧
                     criterion otherIssue = Some t) ∧
  (∀ fuel, executeJobs fuel cfg_default env_always_fulfils
             (createJobs cfg_default (prepared_ungrouped issues_alt_lang)) = None).
Proof.
  apply (ungrouped_typed_issues_never_return
           cfg_default env_always_fulfils issues_alt_lang
           (prepared_ungrouped issues_alt_lang)).
  - reflexivity.
  - intros issue Hin.
    apply elem_of_cons in Hin as [->|Hin]; [|apply list_elem_of_singleton in Hin as ->].
    + exists "error". split; [done|]. vm_compute. set_solver.
    + exists "warning". split; [done|]. vm_compute. set_solver.
  - exists 0, (mkIssue (Some "1.1.1") (Some "error") None). split; [done|].
    vm_compute. discriminate.
Defined.

(** ** From [groupIssuesByType] to [executeJobs] *)

Lemma group_key_truthy (issue : Issue) :
  truthy (Some (group_key issue)) = Some (group_key issue).
Proof.
  unfold group_key.
  destruct (criterion issue) as [[|c s]|], (itype issue) as [[|c' s']|]; done.
Qed.

Lemma createJob_group_type cfg (i : nat) (issue : Issue) (typeIssues : option (list Issue)) :
  type (createJob cfg i (mkPrepared (Some (group_key issue)) None None typeIssues None))
  = group_key issue.
Proof.
  unfold createJob. cbn [type p_type p_criterion]. by rewrite group_key_truthy.
Qed.

Lemma grouped_push_keys key issue grouped (k : string) :
  k ∈ fst <$> grouped_push key issue grouped ↔ k = key ∨ k ∈ fst <$> grouped.
Proof.
  induction grouped as [|[k' g] grouped IH]; simpl.
  - rewrite list_elem_of_singleton. split; [by left|]. intros [?|H]; [done|].
    by apply elem_of_nil in H.
  - destruct (decide (k' = key)) as [->|Hne]; simpl.
    + rewrite !elem_of_cons. tauto.
    + rewrite !elem_of_cons, IH. tauto.
Qed.

Lemma grouped_push_ok seen grouped issue :
  grouped_ok seen grouped →
  grouped_ok (seen ++ [issue]) (grouped_push (group_key issue) issue grouped).
Proof.
  revert seen. induction grouped as [|[k g] grouped IH]; intros seen (Hnd & Hall & Hperm).
  - simpl in *. split_and!.
    + apply NoDup_singleton.
    + apply Forall_singleton. split; [done|]. by apply Forall_singleton.
    + by rewrite <- Hperm.
  - rewrite fmap_cons in Hnd. apply NoDup_cons in Hnd as [Hfresh Hnd].
    apply Forall_cons in Hall as [[Hne Hkeys] Hall]. cbn [fst snd] in *.
    rewrite fmap_cons in Hperm. cbn [concat snd] in Hperm.
    cbn [grouped_push]. destruct (decide (k = group_key issue)) as [Hk|Hk].
    + split_and!.
      * rewrite fmap_cons. by apply NoDup_cons.
      * apply Forall_cons. split; [|done]. cbn [fst snd]. split; [by destruct g|].
        apply Forall_app. split; [done|]. by apply Forall_singleton.
      * rewrite fmap_cons. cbn [concat snd]. rewrite <- Hperm.
        rewrite <- !app_assoc. apply Permutation_app_head, Permutation_app_comm.
    + destruct (IH (concat (snd <$> grouped))) as (Hnd' & Hall' & Hperm'); [done|].
      split_and!.
      * rewrite fmap_cons. apply NoDup_cons. split; [|done].
        cbn [fst]. rewrite grouped_push_keys. intros [?|?]; done.
      * apply Forall_cons. by split.
      * rewrite fmap_cons. cbn [concat snd]. rewrite Hperm', <- Hperm.
        by rewrite app_assoc.
Qed.

Lemma groupIssuesByType_ok (allIssues : list Issue) : ∀ grouped,
  groupIssuesByType allIssues = Some grouped → grouped_ok allIssues grouped.
Proof.
  unfold groupIssuesByType.
  induction allIssues as [|issue allIssues IH] using rev_ind; intros grouped Hg.
  - injection Hg as <-. split_and!; [apply NoDup_nil_2|done|done].
  - rewrite fold_left_app in Hg. cbn [fold_left] in Hg.
    destruct (fold_left _ allIssues (Some [])) as [grouped0|]; [|done].
    destruct (decide (group_key issue ∈ inherited_keys)); [done|].
    injection Hg as <-. by apply grouped_push_ok, IH.
Qed.

Lemma fmap_imap_at {A B C : Type} (f : B → C) (g : nat → A → B) (l : list A) :
  (∀ i x, f (g i x) = f (g 0 x)) → f <$> imap g l = (fun x => f (g 0 x)) <$> l.
Proof.
  intros Hf. apply list_eq. intros i.
  rewrite !list_lookup_fmap, list_lookup_imap.
  destruct (l !! i); [|done]. simpl. by rewrite Hf.
Qed.

Lemma concat_Permutation {A : Type} (l k : list (list A)) :
  l ≡ₚ k → concat l ≡ₚ concat k.
Proof.
  induction 1 as [|x l k _ IH|x y l|l k m _ IH1 _ IH2]; simpl.
  - done.
  - by rewrite IH.
  - rewrite !app_assoc. apply Permutation_app_tail, Permutation_app_comm.
  - by rewrite IH1.
Qed.

(** X19.  Where [groupIssuesByType] returns, the Jobs that [createJobs]
    makes of the groups, in whatever order [prepareIssues] passes them on,
    have pairwise distinct types; each has no dependency and holds the issues
    of one key, at least one; together they hold every issue once.  With at
    least one slot [executeJobs] then returns for them, whatever the workers
    answer. *)
Theorem grouped_issues_run_to_completion
    (cfg : Config) (allIssues : list Issue) (grouped : list (string * list Issue))
    (processedIssues : list Prepared) :
  groupIssuesByType allIssues = Some grouped →
  processedIssues ≡ₚ prepared_grouped grouped →
  0 < maxConcurrency cfg →
  let jobs := createJobs cfg processedIssues in
  NoDup (type <$> jobs) ∧
  Forall (fun j => dependencies j = [] ∧ issues j ≠ [] ∧
                   Forall (fun issue => group_key issue = type j) (issues j)) jobs ∧
  concat (issues <$> jobs) ≡ₚ allIssues ∧
  ∀ env, is_Some (executeJobs (6 * retries_left jobs + 9 * length jobs + 2) cfg env jobs).
Proof.
  intros Hg Hperm Hslot. cbn zeta.
  destruct (groupIssuesByType_ok _ _ Hg) as (Hnd & Hall & Hissues).
  rewrite Forall_forall in Hall.
  assert (Hjob : ∀ j, j ∈ createJobs cfg processedIssues →
            ∃ entry, entry ∈ grouped ∧ type j = fst entry ∧ issues j = snd entry ∧
                     dependencies j = []).
  { intros j Hj. apply elem_of_lookup_imap_1 in Hj as (i & p & -> & Hp).
    apply list_elem_of_lookup_2 in Hp. rewrite Hperm in Hp.
    apply list_elem_of_fmap in Hp as ([k g] & -> & Hentry).
    exists (k, g). split_and!; [done| |done|done].
    destruct (Hall _ Hentry) as [Hne Hkeys]. cbn [fst snd] in *.
    destruct g as [|issue g]; [done|]. apply Forall_cons in Hkeys as [<- _].
    apply createJob_group_type. }
  assert (Hdeps : Forall (fun j => dependencies j = []) (createJobs cfg processedIssues)).
  { apply Forall_forall. intros j Hj. by destruct (Hjob j Hj) as (_ & _ & _ & _ & ?). }
  split_and!.
  - unfold createJobs. rewrite (fmap_imap_at type (createJob cfg)) by done.
    rewrite Hperm. unfold prepared_grouped. rewrite <- list_fmap_compose.
    erewrite list_fmap_ext; [exact Hnd|]. intros i [k g] Hentry.
    apply list_elem_of_lookup_2 in Hentry.
    destruct (Hall _ Hentry) as [Hne Hkeys]. cbn [fst snd] in *.
    destruct g as [|issue g]; [done|]. apply Forall_cons in Hkeys as [<- _].
    apply createJob_group_type.
  - apply Forall_forall. intros j Hj.
    destruct (Hjob j Hj) as (entry & Hentry & Htype & Hiss & Hd).
    destruct (Hall _ Hentry) as [Hne Hkeys]. rewrite Htype, Hiss. by split_and!.
  - unfold createJobs. rewrite (fmap_imap_at issues (createJob cfg)) by done.
    rewrite <- Hissues. apply concat_Permutation.
    rewrite Hperm. unfold prepared_grouped. by rewrite <- list_fmap_compose.
  - intros env. unfold executeJobs.
    destruct (resolveDependencies (createJobs cfg processedIssues)) as [queue|] eqn:Hqueue.
    2:{ destruct (resolveDependencies_returns (createJobs cfg processedIssues)) as [q Hq].
        congruence. }
    pose proof (resolveDependencies_length _ _ Hqueue) as Hlen.
    destruct (run_without_dependencies cfg env _ queue Hslot Hdeps) as [s ->];
      [lia|by eexists].
Qed.

Lemma grouped_issues_run_to_completion_witness :
  let jobs := createJobs cfg_default (prepared_grouped grouped_three) in
  NoDup (type <$> jobs) ∧
  Forall (fun j => dependencies j = [] ∧ issues j ≠ [] ∧
                   Forall (fun issue => group_key issue = type j) (issues j)) jobs ∧
  concat (issues <$> jobs) ≡ₚ issues_three ∧
  ∀ env, is_Some (executeJobs (6 * retries_left jobs + 9 * length jobs + 2)
                              cfg_default env jobs).
Proof.
  apply (grouped_issues_run_to_completion cfg_default issues_three grouped_three).
  - vm_compute. reflexivity.
  - reflexivity.
  - vm_compute. lia.
Defined.

(** ** Instances *)

Lemma executeJobs_returns_without_dependencies_witness :
  is_Some (executeJobs (6 * retries_left [job_alt] + 9 * length [job_alt] + 2)
                       cfg_serial env_always_rejects [job_alt]).
Proof.
  apply executeJobs_returns_without_dependencies.
  - vm_compute. lia.
  - by apply Forall_singleton.
Defined.

Lemma executeJobs_keeps_what_the_scheduler_reads_witness :
  static_part <$> store (steps 5 cfg_serial env_always_rejects
                               (initial batch_lang_alt queue_lang_alt))
  = static_part <$> batch_lang_alt ∧
  attempts_bounded (store (steps 5 cfg_serial env_always_rejects
                                 (initial batch_lang_alt queue_lang_alt))).
Proof.
  apply executeJobs_keeps_what_the_scheduler_reads.
  repeat (apply Forall_cons; split; [vm_compute; lia|]). apply Forall_nil_2.
Defined.

Lemma executeJobs_one_result_per_job_witness :
  (∀ queue n,
     resolveDependencies [job_alt] = Some queue →
     NoDup (res_jobId <$> results (steps n cfg_serial env_always_fulfils
                                         (initial [job_alt] queue)))) ∧
  (∀ fuel results final,
     executeJobs fuel cfg_serial env_always_fulfils [job_alt] = Some (results, final) →
     res_jobId <$> results ≡ₚ id <$> [job_alt]).
Proof.
  apply (executeJobs_one_result_per_job cfg_serial env_always_fulfils [job_alt]).
  apply NoDup_singleton.
Defined.

Lemma absent_dependency_is_never_met_witness :
  (∀ queue n job,
     job ∈ store (steps n cfg_serial env_always_fulfils (initial [job_orphan] queue)) →
     static_part job = static_part job_orphan →
     dependenciesMet job (results (steps n cfg_serial env_always_fulfils
                                         (initial [job_orphan] queue))) = false) ∧
  (∀ queue n r,
     r ∈ results (steps n cfg_serial env_always_fulfils (initial [job_orphan] queue)) →
     res_jobId r ≠ id job_orphan) ∧
  (∀ fuel, executeJobs fuel cfg_serial env_always_fulfils [job_orphan] = None).
Proof.
  apply (absent_dependency_is_never_met
           cfg_serial env_always_fulfils [job_orphan] job_orphan "3.1.1").
  - apply NoDup_singleton.
  - by left.
  - by left.
  - intros Hin. apply list_elem_of_singleton in Hin. discriminate Hin.
Defined.

Lemma resolveConflicts_without_conflict_witness :
  resolveConflicts results_two_lines original_img "merge"
  = (Patch <$> filter (fun r => rstatus r = success) (collect results_two_lines))
    ++ (Patch <$> filter (fun r => rstatus r ≠ success) (collect results_two_lines)).
Proof.
  apply resolveConflicts_without_conflict.
  vm_compute. apply NoDup_cons. split; [|apply NoDup_singleton].
  intros Hin. apply list_elem_of_singleton in Hin. discriminate Hin.
Defined.
